(** * Verification of the centidb key coder (ext/keycoder.c)

    A shallow embedding of the C extension module [_keycoder]: the buffer
    reader and writer, the variable-length integer codec, the bit-interleaved
    string codec, the element, tuple and batch encoders and decoders, and the
    offset-table decoder.

    Bytes are integers in [0, 256); the fixed-width casts of the C code are
    written out as [u8], [u64], [s64] and [s32].  Functions that can fail
    return in the error monad [res]; loops run on fuel that the calling
    function supplies in full.  The environment of the module is a parameter
    of the development: the allocator, the tag values and the two macros of
    the header [centidb.h], the C library's [timegm], the host's UTC offset,
    the strict UTF-8 decoder, and the content of a local variable that is
    read before it is written.

    The file has four parts: the embedding and the characterisations the
    proofs use; the proofs of the properties the specification states;
    further properties of the code; concrete instances. *)

From Stdlib Require Import ZArith List Bool Lia.
Import ListNotations.
Set Warnings "-register-all".
Local Open Scope Z_scope.

(** ** Machine integers and bytes *)

Definition bytes := list Z.

Definition is_byte (b : Z) : bool := (0 <=? b) && (b <? 256).

Definition is_bytes (l : bytes) : bool := forallb is_byte l.

(** [(uint8_t) x] *)
Definition u8 (x : Z) : Z := x mod 256.

(** [(uint64_t) x] *)
Definition u64 (x : Z) : Z := x mod 2 ^ 64.

(** [(int64_t) x] and [(long) x] on LP64: two's complement wrap-around. *)
Definition s64 (x : Z) : Z := (x + 2 ^ 63) mod 2 ^ 64 - 2 ^ 63.

(** [(int) x] *)
Definition s32 (x : Z) : Z := (x + 2 ^ 31) mod 2 ^ 32 - 2 ^ 31.

Definition len (l : bytes) : Z := Z.of_nat (length l).

(** Unsigned byte-wise comparison of two byte strings, a proper prefix
    being smaller: the order of [memcmp] extended by the length. *)
Fixpoint lex_lt (a b : bytes) : bool :=
  match a, b with
  | _, [] => false
  | [], _ :: _ => true
  | x :: a', y :: b' => (x <? y) || ((x =? y) && lex_lt a' b')
  end.

(** [memcmp(a, b, n)]: the sign of the first difference among the first
    [n] bytes. *)
Fixpoint memcmp (a b : bytes) (n : nat) : Z :=
  match n with
  | O => 0
  | S n' =>
      let x := hd 0 a in
      let y := hd 0 b in
      if x <? y then -1 else if y <? x then 1 else memcmp (tl a) (tl b) n'
  end.

(** ** Outcomes

    A Python-level function returns an object or [NULL] with an exception
    set.  The C helpers return 0 on failure, sometimes without setting an
    exception: the interpreter then reports [SystemError].  Three outcomes
    that are not Python exceptions are kept apart: an access outside a
    buffer, the [assert(0)] of the time decoder, and a loop that never
    ends. *)

Inductive PyExc :=
| ValueError
| TypeError
| MemoryError
| OverflowError
| UnicodeDecodeError
| SystemError
| OutOfBounds
| Aborted
| Diverges.

Inductive res (A : Type) :=
| Ok (a : A)
| Raise (e : PyExc).

Arguments Ok {A} a.
Arguments Raise {A} e.

Definition bind {A B : Type} (c : res A) (k : A -> res B) : res B :=
  match c with
  | Ok a => k a
  | Raise e => Raise e
  end.

Notation "x <- c ;; k" := (bind c (fun x => k))
  (at level 61, c at next level, right associativity).
Notation "' p <- c ;; k" := (bind c (fun x => let p := x in k))
  (at level 61, p pattern, c at next level, right associativity).

(** ** The reader (struct reader) *)

Record reader := mkReader { r_p : bytes; r_size : Z; r_pos : Z }.

Definition reader_init (p : bytes) (size : Z) : reader :=
  {| r_p := p; r_size := size; r_pos := 0 |}.

Definition peek (p : bytes) (i : Z) : option Z :=
  if i <? 0 then None else nth_error p (Z.to_nat i).

Definition reader_advance (rdr : reader) (n : Z) : reader :=
  {| r_p := r_p rdr; r_size := r_size rdr; r_pos := r_pos rdr + n |}.

(** [reader_getc]: [None] is the return value 0. *)
Definition reader_getc (rdr : reader) : option (Z * reader) :=
  if r_pos rdr <? r_size rdr then
    match peek (r_p rdr) (r_pos rdr) with
    | Some ch => Some (ch, reader_advance rdr 1)
    | None => None
    end
  else None.

Definition reader_ensure (rdr : reader) (n : Z) : res unit :=
  if r_size rdr - r_pos rdr <? n then Raise ValueError else Ok tt.

(** [reader_getchar]: the unchecked read. *)
Definition reader_getchar (rdr : reader) : res (Z * reader) :=
  match peek (r_p rdr) (r_pos rdr) with
  | Some ch => Ok (ch, reader_advance rdr 1)
  | None => Raise OutOfBounds
  end.

(** ** The writer (struct writer)

    [w_s] is the string object under construction ([None] is [NULL]); its
    length is the allocated size, and [w_pos] is the write position. *)

Record writer := mkWriter { w_pos : Z; w_s : option bytes }.

(** [_PyString_Resize]: the old content is kept, new room is zeroed here. *)
Definition resize (buf : bytes) (n : Z) : bytes :=
  firstn (Z.to_nat n) buf ++ repeat 0 (Z.to_nat n - length buf).

(** An unchecked store [buf[i] = v]. *)
Definition poke (buf : bytes) (i : Z) (v : Z) : option bytes :=
  if (0 <=? i) && (i <? len buf)
  then Some (firstn (Z.to_nat i) buf ++ v :: skipn (S (Z.to_nat i)) buf)
  else None.

Fixpoint memcpy (buf : bytes) (i : Z) (s : bytes) : option bytes :=
  match s with
  | [] => Some buf
  | b :: s' =>
      match poke buf i b with
      | Some buf' => memcpy buf' (i + 1) s'
      | None => None
      end
  end.

(** What [writer_fini] would return: the bytes written so far. *)
Definition written (w : writer) : bytes :=
  match w_s w with
  | Some buf => firstn (Z.to_nat (w_pos w)) buf
  | None => []
  end.

(** The allocated size, [PyString_GET_SIZE(wtr->s)]. *)
Definition w_size (w : writer) : Z :=
  match w_s w with
  | Some buf => len buf
  | None => 0
  end.

(** The slack invariant: the position is inside the buffer. *)
Definition writer_ok (w : writer) : bool :=
  match w_s w with
  | Some buf => (0 <=? w_pos w) && (w_pos w <? len buf)
  | None => false
  end.

Section KeyCoder.

(** Whether the allocator grants a string of the given size. *)
Variable alloc : Z -> bool.

Definition writer_init (initial : Z) : res writer :=
  if initial <? 0 then Raise SystemError
  else if alloc initial
  then Ok {| w_pos := 0; w_s := Some (repeat 0 (Z.to_nat initial)) |}
  else Raise MemoryError.

Definition writer_grow (w : writer) : res writer :=
  match w_s w with
  | None => Raise OutOfBounds
  | Some buf =>
      let cursize := len buf in
      let newsize := cursize * 2 in
      let newsize := if newsize >? cursize + 512 then cursize + 512 else newsize in
      if alloc newsize
      then Ok {| w_pos := w_pos w; w_s := Some (resize buf newsize) |}
      else Raise MemoryError
  end.

Definition writer_putchar (w : writer) (ch : Z) : res writer :=
  match w_s w with
  | None => Raise OutOfBounds
  | Some buf =>
      match poke buf (w_pos w) ch with
      | Some buf' => Ok {| w_pos := w_pos w + 1; w_s := Some buf' |}
      | None => Raise OutOfBounds
      end
  end.

Definition writer_putc (w : writer) (o : Z) : res writer :=
  match w_s w with
  | None => Raise SystemError
  | Some buf =>
      w1 <- (if 1 + w_pos w =? len buf then writer_grow w else Ok w) ;;
      writer_putchar w1 o
  end.

(** The loop of [writer_ensure]; it runs for ever on an empty buffer,
    which never grows. *)
Fixpoint writer_ensure_loop (fuel : nat) (w : writer) (size : Z) : res writer :=
  if w_size w - (w_pos w + 1) <? size then
    match fuel with
    | O => Raise Diverges
    | S fuel' => w' <- writer_grow w ;; writer_ensure_loop fuel' w' size
    end
  else Ok w.

Definition writer_ensure (w : writer) (size : Z) : res writer :=
  writer_ensure_loop (Z.to_nat (size + w_pos w + 1)) w size.

Definition writer_puts (w : writer) (s : bytes) : res writer :=
  w1 <- writer_ensure w (len s) ;;
  match w_s w1 with
  | None => Raise OutOfBounds
  | Some buf =>
      match memcpy buf (w_pos w1) s with
      | Some buf' => Ok {| w_pos := w_pos w1 + len s; w_s := Some buf' |}
      | None => Raise OutOfBounds
      end
  end.

(** [writer_fini]: the buffer cut to the write position. *)
Definition writer_fini (w : writer) : res bytes :=
  match w_s w with
  | None => Raise SystemError
  | Some buf => if alloc (w_pos w) then Ok (resize buf (w_pos w)) else Raise MemoryError
  end.


(** ** Python values

    [PyInt] is a C [long] (64 bits); [PyLong] is unbounded.  A unicode
    string is represented by its UTF-8 encoding, so that
    [PyUnicode_EncodeUTF8] is the projection.  A datetime carries its
    fields and the result of [utcoffset()] in seconds, [None] when it is
    naive.  A UUID is represented by the 16 bytes of [get_bytes()]. *)

Record datetime := mkDateTime {
  dt_year : Z;
  dt_month : Z;
  dt_day : Z;
  dt_hour : Z;
  dt_minute : Z;
  dt_second : Z;
  dt_microsecond : Z;
  dt_utcoffset : option Z
}.

Inductive PyObject :=
| PyNone
| PyInt (v : Z)
| PyString (b : bytes)
| PyUnicode (utf8 : bytes)
| PyBool (b : bool)
| PyLong (v : Z)
| PyDateTime (dt : datetime)
| PyUUID (b : bytes)
| PyTuple (items : list PyObject)
| PyList (items : list PyObject).

Definition tuplize (arg : PyObject) : PyObject :=
  match arg with
  | PyTuple _ => arg
  | _ => PyTuple [arg]
  end.

(** Python's [==] on decoded keys: an int and a long of the same value
    are equal, sequences are compared item by item. *)
Fixpoint py_eq (a b : PyObject) {struct a} : bool :=
  let fix items_eq (l1 l2 : list PyObject) {struct l1} : bool :=
    match l1, l2 with
    | [], [] => true
    | x :: l1', y :: l2' => py_eq x y && items_eq l1' l2'
    | _, _ => false
    end in
  match a, b with
  | PyNone, PyNone => true
  | PyInt x, PyInt y | PyInt x, PyLong y | PyLong x, PyInt y | PyLong x, PyLong y => x =? y
  | PyString x, PyString y => if list_eq_dec Z.eq_dec x y then true else false
  | PyUnicode x, PyUnicode y => if list_eq_dec Z.eq_dec x y then true else false
  | PyBool x, PyBool y => Bool.eqb x y
  | PyUUID x, PyUUID y => if list_eq_dec Z.eq_dec x y then true else false
  | PyTuple x, PyTuple y => items_eq x y
  | PyList x, PyList y => items_eq x y
  | _, _ => false
  end.

(** ** Element kinds (enum ElementKind)

    The header that assigns the tag values is not part of the sources at
    hand; the tags are a parameter of the development.  Every tag is one
    byte, the tags are pairwise distinct, and the tags handed to
    [write_int] and [write_str] are not zero (zero means: no tag). *)

Record Kinds := mkKinds {
  KIND_NULL : Z;
  KIND_NEG_INTEGER : Z;
  KIND_INTEGER : Z;
  KIND_BOOL : Z;
  KIND_BLOB : Z;
  KIND_TEXT : Z;
  KIND_UUID : Z;
  KIND_NEG_TIME : Z;
  KIND_TIME : Z;
  KIND_SEP : Z
}.

Definition kind_list (K : Kinds) : list Z :=
  [KIND_NULL K; KIND_NEG_INTEGER K; KIND_INTEGER K; KIND_BOOL K; KIND_BLOB K;
   KIND_TEXT K; KIND_UUID K; KIND_NEG_TIME K; KIND_TIME K; KIND_SEP K].

Fixpoint distinct (l : list Z) : bool :=
  match l with
  | [] => true
  | x :: l' => negb (existsb (Z.eqb x) l') && distinct l'
  end.

Definition kinds_ok (K : Kinds) : bool :=
  forallb (fun k => (0 <? k) && (k <? 256)) (kind_list K) && distinct (kind_list K).

(** Modelled from the spec: the tag values of the missing header, one
    assignment that follows the order of section 4.3,
    SEP < NULL < NEG_TIME < NEG_INTEGER < BOOL < INTEGER < TIME < BLOB <
    TEXT < UUID.  It is used for concrete instances only. *)
Definition spec_kinds : Kinds :=
  {| KIND_SEP := 10; KIND_NULL := 15; KIND_NEG_TIME := 18; KIND_NEG_INTEGER := 20;
     KIND_BOOL := 30; KIND_INTEGER := 35; KIND_TIME := 38; KIND_BLOB := 40;
     KIND_TEXT := 50; KIND_UUID := 90 |}.

Variable K : Kinds.

(** ** Encoding *)

Definition write_int (w : writer) (v : Z) (kind : Z) : res writer :=
  w <- (if kind =? 0 then Ok w else writer_putc w (u8 kind)) ;;
  if v <=? 240 then
    writer_putc w (u8 v)
  else if v <=? 2287 then
    w <- writer_ensure w 2 ;;
    let v := v - 240 in
    w <- writer_putchar w (u8 (241 + u8 (Z.shiftr v 8))) ;;
    writer_putchar w (u8 (Z.land v 255))
  else if v <=? 67823 then
    w <- writer_ensure w 3 ;;
    let v := v - 2288 in
    w <- writer_putchar w 249 ;;
    w <- writer_putchar w (u8 (Z.shiftr v 8)) ;;
    writer_putchar w (u8 (Z.land v 255))
  else if v <=? 16777215 then
    w <- writer_ensure w 4 ;;
    w <- writer_putchar w 250 ;;
    w <- writer_putchar w (u8 (Z.shiftr v 16)) ;;
    w <- writer_putchar w (u8 (Z.shiftr v 8)) ;;
    writer_putchar w (u8 v)
  else if v <=? 4294967295 then
    w <- writer_ensure w 5 ;;
    w <- writer_putchar w 251 ;;
    w <- writer_putchar w (u8 (Z.shiftr v 24)) ;;
    w <- writer_putchar w (u8 (Z.shiftr v 16)) ;;
    w <- writer_putchar w (u8 (Z.shiftr v 8)) ;;
    writer_putchar w (u8 v)
  else if v <=? 1099511627775 then
    w <- writer_ensure w 6 ;;
    w <- writer_putchar w 252 ;;
    w <- writer_putchar w (u8 (Z.shiftr v 32)) ;;
    w <- writer_putchar w (u8 (Z.shiftr v 24)) ;;
    w <- writer_putchar w (u8 (Z.shiftr v 16)) ;;
    w <- writer_putchar w (u8 (Z.shiftr v 8)) ;;
    writer_putchar w (u8 v)
  else if v <=? 281474976710655 then
    w <- writer_ensure w 7 ;;
    w <- writer_putchar w 253 ;;
    w <- writer_putchar w (u8 (Z.shiftr v 40)) ;;
    w <- writer_putchar w (u8 (Z.shiftr v 32)) ;;
    w <- writer_putchar w (u8 (Z.shiftr v 24)) ;;
    w <- writer_putchar w (u8 (Z.shiftr v 16)) ;;
    w <- writer_putchar w (u8 (Z.shiftr v 8)) ;;
    writer_putchar w (u8 v)
  else if v <=? 72057594037927935 then
    w <- writer_ensure w 8 ;;
    w <- writer_putchar w 254 ;;
    w <- writer_putchar w (u8 (Z.shiftr v 48)) ;;
    w <- writer_putchar w (u8 (Z.shiftr v 40)) ;;
    w <- writer_putchar w (u8 (Z.shiftr v 32)) ;;
    w <- writer_putchar w (u8 (Z.shiftr v 24)) ;;
    w <- writer_putchar w (u8 (Z.shiftr v 16)) ;;
    w <- writer_putchar w (u8 (Z.shiftr v 8)) ;;
    writer_putchar w (u8 v)
  else
    w <- writer_ensure w 9 ;;
    w <- writer_putchar w 255 ;;
    w <- writer_putchar w (u8 (Z.shiftr v 56)) ;;
    w <- writer_putchar w (u8 (Z.shiftr v 48)) ;;
    w <- writer_putchar w (u8 (Z.shiftr v 40)) ;;
    w <- writer_putchar w (u8 (Z.shiftr v 32)) ;;
    w <- writer_putchar w (u8 (Z.shiftr v 24)) ;;
    w <- writer_putchar w (u8 (Z.shiftr v 16)) ;;
    w <- writer_putchar w (u8 (Z.shiftr v 8)) ;;
    writer_putchar w (u8 v).

(** [py_pack_int]: the format "l" reads a C long into the unsigned [v]. *)
Definition py_pack_int (prefix : bytes) (v : Z) : res bytes :=
  if (v <? - 2 ^ 63) || (2 ^ 63 <=? v) then Raise OverflowError
  else
    w <- writer_init 9 ;;
    w <- writer_puts w prefix ;;
    w <- write_int w (u64 v) 0 ;;
    writer_fini w.

(** The loop of [write_str]: [shift] and [trailer] are the loop state. *)
Fixpoint write_str_loop (w : writer) (p : bytes) (shift trailer : Z)
  : res (writer * Z * Z) :=
  match p with
  | [] => Ok (w, shift, trailer)
  | o :: p' =>
      w <- writer_putc w (u8 (Z.lor (Z.lor 128 trailer) (Z.shiftr o shift))) ;;
      if shift <? 7 then
        write_str_loop w p' (shift + 1) (u8 (Z.shiftl o (7 - shift)))
      else
        w <- writer_putc w (u8 (Z.lor 128 o)) ;;
        write_str_loop w p' 1 0
  end.

Definition write_str (w : writer) (p : bytes) (kind : Z) : res writer :=
  w <- (if kind =? 0 then Ok w else writer_putc w (u8 kind)) ;;
  '(w, shift, trailer) <- write_str_loop w p 1 0 ;;
  if shift >? 1 then
    w <- writer_putc w trailer ;;
    if negb (trailer =? 0) then writer_putc w 0 else Ok w
  else
    writer_putc w 0.

(** ** Timestamps *)

Record tm := mkTm {
  tm_sec : Z; tm_min : Z; tm_hour : Z; tm_mday : Z; tm_mon : Z; tm_year : Z
}.

(** The macros [UTCOFFSET_SHIFT] and [UTCOFFSET_DIV] come from the header
    that is not at hand; they are parameters. *)
Variable UTCOFFSET_SHIFT : Z.
Variable UTCOFFSET_DIV : Z.

(** The C library's [timegm], and the offset of the host's local time
    (the difference [utc - local] computed for a naive datetime). *)
Variable timegm : tm -> Z.
Variable host_utcoffset : Z.

(** [get_utcoffset_secs].  The calls to [utcoffset] and [total_seconds]
    are taken to succeed. *)
Definition get_utcoffset_secs (dt : datetime) : Z :=
  match dt_utcoffset dt with
  | None => s32 host_utcoffset
  | Some offset => s32 (Z.quot offset (15 * 60))
  end.

(** [write_time].  On [offset_secs == -1] the C function returns -1
    without writing; [c_encode_value] hands that value on, and every caller
    tests the result for being non-zero, so the element is skipped and the
    encoding goes on: [Ok w]. *)
Definition write_time (w : writer) (dt : datetime) : res writer :=
  let t := {| tm_sec := dt_second dt; tm_min := dt_minute dt; tm_hour := dt_hour dt;
              tm_mday := dt_day dt; tm_mon := dt_month dt - 1;
              tm_year := dt_year dt - 1900 |} in
  let ts := s64 (timegm t) in
  let offset_secs := get_utcoffset_secs dt in
  if offset_secs =? -1 then Ok w
  else
    let offset_bits := s32 (UTCOFFSET_SHIFT + Z.quot offset_secs UTCOFFSET_DIV) in
    if negb ((offset_bits <=? 127) && (0 <=? offset_bits)) then Raise Aborted
    else
      let ts := s64 (ts * 1000) in
      let ts := s64 (ts + Z.quot (dt_microsecond dt) 1000) in
      let ts := s64 (Z.shiftl ts 7) in
      let ts := Z.lor ts offset_bits in
      if ts <? 0 then write_int w (u64 (- ts)) (KIND_NEG_TIME K)
      else write_int w (u64 ts) (KIND_TIME K).

(** ** Elements, tuples, batches *)

Definition c_encode_value (w : writer) (arg : PyObject) : res writer :=
  match arg with
  | PyNone => writer_putc w (u8 (KIND_NULL K))
  | PyInt v =>
      if v <? 0 then write_int w (u64 (- v)) (KIND_NEG_INTEGER K)
      else write_int w (u64 v) (KIND_INTEGER K)
  | PyString b => write_str w b (KIND_BLOB K)
  | PyUnicode utf8 => write_str w utf8 (KIND_TEXT K)
  | PyBool b =>
      w <- writer_putc w (u8 (KIND_BOOL K)) ;;
      writer_putc w (u8 (if b then 1 else 0))
  | PyLong v =>
      if (v <? - 2 ^ 63) || (2 ^ 63 <=? v) then Raise OverflowError
      else if v <? 0 then write_int w (u64 (- v)) (KIND_NEG_INTEGER K)
      else write_int w (u64 v) (KIND_INTEGER K)
  | PyDateTime dt => write_time w dt
  | PyUUID ss => write_str w ss (KIND_UUID K)
  | PyTuple _ | PyList _ => Raise TypeError
  end.

Fixpoint c_encode_key (w : writer) (tup : list PyObject) : res writer :=
  match tup with
  | [] => Ok w
  | arg :: tup' => w <- c_encode_value w arg ;; c_encode_key w tup'
  end.

(** The list branch of [packs]; [i] is the loop index. *)
Fixpoint packs_loop (w : writer) (tups : list PyObject) (i : Z) : res writer :=
  match tups with
  | [] => Ok w
  | elem :: tups' =>
      w <- (if negb (i =? 0) then writer_putc w (u8 (KIND_SEP K)) else Ok w) ;;
      w <- match elem with
           | PyTuple items => c_encode_key w items
           | _ => c_encode_value w elem
           end ;;
      packs_loop w tups' (i + 1)
  end.

(** [packs], also exported as [pack]; [args] is the argument tuple. *)
Definition packs (args : list PyObject) : res bytes :=
  match args with
  | [py_prefix; tups] =>
      match py_prefix with
      | PyString prefix =>
          w <- writer_init 20 ;;
          w <- writer_puts w prefix ;;
          w <- match tups with
               | PyList items => packs_loop w items 0
               | PyTuple items => c_encode_key w items
               | _ => c_encode_value w tups
               end ;;
          writer_fini w
      | _ => Raise TypeError
      end
  | _ => Raise TypeError
  end.

(** ** Decoding *)

(** The local [v] of [read_plain_int] is declared without an initial
    value.  [uninit pos] is the indeterminate content it holds in the call
    that starts reading at position [pos]; the positions of the calls of
    one decoding run differ, so every call has a content of its own. *)
Variable uninit : Z -> Z.

(** [read_plain_int].  The result pair is the final content of [*u64] and
    the reader.  On a lead byte up to 240 the function stores [ch] in
    [*u64], leaves [v] untouched, and ends with [*u64 = v]. *)
Definition read_plain_int (rdr0 : reader) : res (Z * reader) :=
  match reader_getc rdr0 with
  | None => Raise SystemError
  | Some (ch, rdr) =>
      let v := uninit (r_pos rdr0) in
      if ch <=? 240 then
        let out := ch in
        let out := v in
        Ok (out, rdr)
      else if ch <=? 248 then
        _ <- reader_ensure rdr 1 ;;
        let v := 240 in
        let v := u64 (v + 256 * (ch - 241)) in
        '(c, rdr) <- reader_getchar rdr ;;
        let v := u64 (v + c) in
        Ok (v, rdr)
      else if ch =? 249 then
        _ <- reader_ensure rdr 2 ;;
        let v := 2288 in
        '(c, rdr) <- reader_getchar rdr ;;
        let v := u64 (v + 256 * c) in
        '(c, rdr) <- reader_getchar rdr ;;
        let v := u64 (v + c) in
        Ok (v, rdr)
      else if ch =? 250 then
        _ <- reader_ensure rdr 3 ;;
        '(c, rdr) <- reader_getchar rdr ;;
        let v := u64 (Z.shiftl c 16) in
        '(c, rdr) <- reader_getchar rdr ;;
        let v := Z.lor v (u64 (Z.shiftl c 8)) in
        '(c, rdr) <- reader_getchar rdr ;;
        let v := Z.lor v c in
        Ok (v, rdr)
      else if ch =? 251 then
        _ <- reader_ensure rdr 4 ;;
        '(c, rdr) <- reader_getchar rdr ;;
        let v := u64 (Z.shiftl c 24) in
        '(c, rdr) <- reader_getchar rdr ;;
        let v := Z.lor v (u64 (Z.shiftl c 16)) in
        '(c, rdr) <- reader_getchar rdr ;;
        let v := Z.lor v (u64 (Z.shiftl c 8)) in
        '(c, rdr) <- reader_getchar rdr ;;
        let v := Z.lor v c in
        Ok (v, rdr)
      else if ch =? 252 then
        _ <- reader_ensure rdr 5 ;;
        '(c, rdr) <- reader_getchar rdr ;;
        let v := u64 (Z.shiftl c 32) in
        '(c, rdr) <- reader_getchar rdr ;;
        let v := Z.lor v (u64 (Z.shiftl c 24)) in
        '(c, rdr) <- reader_getchar rdr ;;
        let v := Z.lor v (u64 (Z.shiftl c 16)) in
        '(c, rdr) <- reader_getchar rdr ;;
        let v := Z.lor v (u64 (Z.shiftl c 8)) in
        '(c, rdr) <- reader_getchar rdr ;;
        let v := Z.lor v c in
        Ok (v, rdr)
      else if ch =? 253 then
        _ <- reader_ensure rdr 6 ;;
        '(c, rdr) <- reader_getchar rdr ;;
        let v := u64 (Z.shiftl c 40) in
        '(c, rdr) <- reader_getchar rdr ;;
        let v := Z.lor v (u64 (Z.shiftl c 32)) in
        '(c, rdr) <- reader_getchar rdr ;;
        let v := Z.lor v (u64 (Z.shiftl c 24)) in
        '(c, rdr) <- reader_getchar rdr ;;
        let v := Z.lor v (u64 (Z.shiftl c 16)) in
        '(c, rdr) <- reader_getchar rdr ;;
        let v := Z.lor v (u64 (Z.shiftl c 8)) in
        '(c, rdr) <- reader_getchar rdr ;;
        let v := Z.lor v c in
        Ok (v, rdr)
      else if ch =? 254 then
        _ <- reader_ensure rdr 7 ;;
        '(c, rdr) <- reader_getchar rdr ;;
        let v := u64 (Z.shiftl c 48) in
        '(c, rdr) <- reader_getchar rdr ;;
        let v := Z.lor v (u64 (Z.shiftl c 40)) in
        '(c, rdr) <- reader_getchar rdr ;;
        let v := Z.lor v (u64 (Z.shiftl c 32)) in
        '(c, rdr) <- reader_getchar rdr ;;
        let v := Z.lor v (u64 (Z.shiftl c 24)) in
        '(c, rdr) <- reader_getchar rdr ;;
        let v := Z.lor v (u64 (Z.shiftl c 16)) in
        '(c, rdr) <- reader_getchar rdr ;;
        let v := Z.lor v (u64 (Z.shiftl c 8)) in
        '(c, rdr) <- reader_getchar rdr ;;
        let v := Z.lor v c in
        Ok (v, rdr)
      else if ch =? 255 then
        _ <- reader_ensure rdr 8 ;;
        '(c, rdr) <- reader_getchar rdr ;;
        let v := u64 (Z.shiftl c 56) in
        '(c, rdr) <- reader_getchar rdr ;;
        let v := Z.lor v (u64 (Z.shiftl c 48)) in
        '(c, rdr) <- reader_getchar rdr ;;
        let v := Z.lor v (u64 (Z.shiftl c 40)) in
        '(c, rdr) <- reader_getchar rdr ;;
        let v := Z.lor v (u64 (Z.shiftl c 32)) in
        '(c, rdr) <- reader_getchar rdr ;;
        let v := Z.lor v (u64 (Z.shiftl c 24)) in
        '(c, rdr) <- reader_getchar rdr ;;
        let v := Z.lor v (u64 (Z.shiftl c 16)) in
        '(c, rdr) <- reader_getchar rdr ;;
        let v := Z.lor v (u64 (Z.shiftl c 8)) in
        '(c, rdr) <- reader_getchar rdr ;;
        let v := Z.lor v c in
        Ok (v, rdr)
      else Ok (v, rdr)
  end.

Definition read_int (rdr : reader) (negate : bool) : res (PyObject * reader) :=
  '(u, rdr) <- read_plain_int rdr ;;
  Ok (if negate then PyLong (- u) else PyLong u, rdr).

(** The loop of [read_str].  It stops at the end of the input, at a zero
    byte, or when the writer fails; each round reads at least one byte. *)
Fixpoint read_str_loop (fuel : nat) (rdr : reader) (wtr : writer) (lb shift : Z)
  : res (writer * reader) :=
  match reader_getc rdr with
  | None => Ok (wtr, rdr)
  | Some (cb, rdr) =>
      if cb =? 0 then Ok (wtr, rdr)
      else
        match fuel with
        | O => Raise Diverges
        | S fuel' =>
            let ch := u8 (Z.shiftl lb shift) in
            let ch := u8 (Z.lor ch (Z.shiftr (Z.land cb 127) (7 - shift))) in
            wtr <- writer_putc wtr ch ;;
            if shift <? 7 then read_str_loop fuel' rdr wtr cb (shift + 1)
            else
              match reader_getc rdr with
              | None => Ok (wtr, rdr)
              | Some (lb', rdr) =>
                  if lb' =? 0 then Ok (wtr, rdr)
                  else read_str_loop fuel' rdr wtr lb' 1
              end
        end
  end.

Definition read_str (rdr : reader) : res (bytes * reader) :=
  wtr <- writer_init 20 ;;
  match reader_getc rdr with
  | None => Raise SystemError
  | Some (lb, rdr) =>
      if lb =? 0 then
        s <- writer_fini wtr ;; Ok (s, rdr)
      else
        '(wtr, rdr) <- read_str_loop (Z.to_nat (r_size rdr - r_pos rdr)) rdr wtr lb 1 ;;
        s <- writer_fini wtr ;; Ok (s, rdr)
  end.

(** [read_time] is [assert(0)]. *)
Definition read_time (rdr : reader) (kind : Z) : res (PyObject * reader) :=
  Raise Aborted.

(** The strict UTF-8 decoder of the interpreter accepts or rejects a byte
    string; a unicode object is represented by its UTF-8 encoding. *)
Variable utf8_valid : bytes -> bool.

Definition PyUnicode_DecodeUTF8 (b : bytes) : res PyObject :=
  if utf8_valid b then Ok (PyUnicode b) else Raise UnicodeDecodeError.

(** The call [UUID(None, bytes)]: the constructor of the standard library
    rejects a string that is not 16 bytes long. *)
Definition UUID_call (b : bytes) : res PyObject :=
  if len b =? 16 then Ok (PyUUID b) else Raise ValueError.

(** The body of the switch of [unpack]: [None] is the separator, which
    ends the tuple. *)
Definition unpack_switch (ch : Z) (rdr : reader) : res (option PyObject * reader) :=
  if ch =? KIND_NULL K then Ok (Some PyNone, rdr)
  else if ch =? KIND_INTEGER K then
    '(arg, rdr) <- read_int rdr false ;; Ok (Some arg, rdr)
  else if ch =? KIND_NEG_INTEGER K then
    '(arg, rdr) <- read_int rdr true ;; Ok (Some arg, rdr)
  else if ch =? KIND_BOOL K then
    '(u, rdr) <- read_plain_int rdr ;;
    Ok (Some (PyBool (negb (u =? 0))), rdr)
  else if ch =? KIND_BLOB K then
    '(s, rdr) <- read_str rdr ;; Ok (Some (PyString s), rdr)
  else if ch =? KIND_TEXT K then
    '(tmp, rdr) <- read_str rdr ;;
    arg <- PyUnicode_DecodeUTF8 tmp ;; Ok (Some arg, rdr)
  else if (ch =? KIND_NEG_TIME K) || (ch =? KIND_TIME K) then
    '(arg, rdr) <- read_time rdr ch ;; Ok (Some arg, rdr)
  else if ch =? KIND_UUID K then
    '(tmp, rdr) <- read_str rdr ;;
    arg <- UUID_call tmp ;; Ok (Some arg, rdr)
  else if ch =? KIND_SEP K then Ok (None, rdr)
  else Raise ValueError.

(** The loop of [unpack]; [tup] holds the items stored so far.  The tuple
    object is allocated with room to spare and cut to [tpos] items at the
    end, which the list of items stands for. *)
Fixpoint unpack_loop (fuel : nat) (rdr : reader) (tup : list PyObject)
  : res (list PyObject * reader) :=
  if r_pos rdr <? r_size rdr then
    match fuel with
    | O => Raise Diverges
    | S fuel' =>
        match reader_getc rdr with
        | None => Ok (tup, rdr)
        | Some (ch, rdr) =>
            '(arg, rdr) <- unpack_switch ch rdr ;;
            match arg with
            | None => Ok (tup, rdr)
            | Some arg => unpack_loop fuel' rdr (tup ++ [arg])
            end
        end
    end
  else Ok (tup, rdr).

Definition unpack (rdr : reader) : res (PyObject * reader) :=
  '(tup, rdr) <- unpack_loop (Z.to_nat (r_size rdr - r_pos rdr)) rdr [] ;;
  Ok (PyTuple tup, rdr).

(** [py_unpack], exported as [unpack]; [PyNone] is the NoMatch value. *)
Definition py_unpack (prefix s : bytes) : res PyObject :=
  let prefix_len := len prefix in
  let s_len := len s in
  if s_len <? prefix_len then Raise ValueError
  else if negb (memcmp prefix s (Z.to_nat prefix_len) =? 0) then Ok PyNone
  else
    let rdr := reader_init s s_len in
    let rdr := reader_advance rdr prefix_len in
    '(tup, _) <- unpack rdr ;; Ok tup.

(** The loop of [unpacks]; every call of [unpack] on a reader that is not
    at its end reads at least one byte. *)
Fixpoint unpacks_loop (fuel : nat) (rdr : reader) (tups : list PyObject)
  : res (list PyObject) :=
  if r_pos rdr <? r_size rdr then
    match fuel with
    | O => Raise Diverges
    | S fuel' =>
        '(tup, rdr) <- unpack rdr ;;
        unpacks_loop fuel' rdr (tups ++ [tup])
    end
  else Ok tups.

Definition unpacks (prefix s : bytes) : res PyObject :=
  let prefix_len := len prefix in
  let s_len := len s in
  if s_len <? prefix_len then Raise ValueError
  else if negb (memcmp prefix s (Z.to_nat prefix_len) =? 0) then Ok PyNone
  else
    let rdr := reader_init s s_len in
    let rdr := reader_advance rdr prefix_len in
    tups <- unpacks_loop (Z.to_nat (r_size rdr - r_pos rdr)) rdr [] ;;
    Ok (PyList tups).

(** The loop of [py_decode_offsets]; [out] holds the items stored after
    the leading 0 and [n] is the allocated length of the list. *)
Fixpoint decode_offsets_loop (fuel : nat) (rdr : reader) (count i pos n : Z)
  (out : list PyObject) : res (list PyObject * reader) :=
  if i <? count then
    match fuel with
    | O => Raise Diverges
    | S fuel' =>
        '(offset, rdr) <- read_plain_int rdr ;;
        let pos := u64 (pos + offset) in
        let tmp := PyInt (s64 pos) in
        if 1 + i <? n
        then decode_offsets_loop fuel' rdr count (i + 1) pos n (out ++ [tmp])
        else Raise OutOfBounds
    end
  else Ok (out, rdr).

(** The length handed to [PyList_New] is [1 + (int) count], a sum of two
    [int]s: it is kept in 32 bits.  A negative length is refused by
    [PyList_New]. *)
Definition py_decode_offsets (s : bytes) : res PyObject :=
  let rdr := reader_init s (len s) in
  '(count, rdr) <- read_plain_int rdr ;;
  let n := s32 (1 + s32 count) in
  if n <? 0 then Raise SystemError
  else if n =? 0 then Raise OutOfBounds
  else
    '(out, rdr) <- decode_offsets_loop (Z.to_nat (r_size rdr - r_pos rdr) + 1) rdr
                     count 0 0 n [PyInt 0] ;;
    Ok (PyTuple [PyList out; PyInt (r_pos rdr)]).


(** ** Operations on a writer, as data

    The three checked operations of the writer, and a run of them. *)

Inductive writer_op :=
| OpPutc (o : Z)
| OpPuts (s : bytes)
| OpEnsure (size : Z).

Definition run_op (w : writer) (op : writer_op) : res writer :=
  match op with
  | OpPutc o => writer_putc w o
  | OpPuts s => writer_puts w s
  | OpEnsure size => writer_ensure w size
  end.

Fixpoint run_ops (w : writer) (ops : list writer_op) : res writer :=
  match ops with
  | [] => Ok w
  | op :: ops' => w' <- run_op w op ;; run_ops w' ops'
  end.

(** [room w n]: the buffer takes [n] more bytes and the position stays
    inside it; [room w 0] is the slack invariant. *)
Definition room (w : writer) (n : Z) : Prop :=
  exists buf, w_s w = Some buf /\ 0 <= w_pos w /\ w_pos w + n < len buf.

(** [extends w w' e]: [w'] holds what [w] held, followed by [e]. *)
Definition extends (w w' : writer) (e : bytes) : Prop :=
  room w' 0 /\ written w' = written w ++ e.

(** ** Characterisations used by the proofs *)

(** The bytes [write_int] puts after the tag. *)
Definition varint (v : Z) : bytes :=
  if v <=? 240 then [u8 v]
  else if v <=? 2287 then
    [u8 (241 + u8 (Z.shiftr (v - 240) 8)); u8 (Z.land (v - 240) 255)]
  else if v <=? 67823 then
    [249; u8 (Z.shiftr (v - 2288) 8); u8 (Z.land (v - 2288) 255)]
  else if v <=? 16777215 then
    [250; u8 (Z.shiftr v 16); u8 (Z.shiftr v 8); u8 v]
  else if v <=? 4294967295 then
    [251; u8 (Z.shiftr v 24); u8 (Z.shiftr v 16); u8 (Z.shiftr v 8); u8 v]
  else if v <=? 1099511627775 then
    [252; u8 (Z.shiftr v 32); u8 (Z.shiftr v 24); u8 (Z.shiftr v 16);
     u8 (Z.shiftr v 8); u8 v]
  else if v <=? 281474976710655 then
    [253; u8 (Z.shiftr v 40); u8 (Z.shiftr v 32); u8 (Z.shiftr v 24);
     u8 (Z.shiftr v 16); u8 (Z.shiftr v 8); u8 v]
  else if v <=? 72057594037927935 then
    [254; u8 (Z.shiftr v 48); u8 (Z.shiftr v 40); u8 (Z.shiftr v 32);
     u8 (Z.shiftr v 24); u8 (Z.shiftr v 16); u8 (Z.shiftr v 8); u8 v]
  else
    [255; u8 (Z.shiftr v 56); u8 (Z.shiftr v 48); u8 (Z.shiftr v 40);
     u8 (Z.shiftr v 32); u8 (Z.shiftr v 24); u8 (Z.shiftr v 16);
     u8 (Z.shiftr v 8); u8 v].

(** The tag byte written for a kind; kind 0 writes none. *)
Definition tag (kind : Z) : bytes := if kind =? 0 then [] else [u8 kind].

(** The [k] low bytes of [x], most significant first. *)
Fixpoint be (k : nat) (x : Z) : bytes :=
  match k with
  | O => []
  | S k' => u8 (Z.shiftr x (8 * Z.of_nat k')) :: be k' x
  end.

(** The lead-byte table of section 4.2 of the specification, read as an
    encoder that picks the shortest form. *)
Definition spec_varint (v : Z) : bytes :=
  if v <=? 240 then [v]
  else if v <=? 2287 then [241 + (v - 240) / 256; (v - 240) mod 256]
  else if v <=? 67823 then 249 :: be 2 (v - 2288)
  else if v <? 2 ^ 24 then 250 :: be 3 v
  else if v <? 2 ^ 32 then 251 :: be 4 v
  else if v <? 2 ^ 40 then 252 :: be 5 v
  else if v <? 2 ^ 48 then 253 :: be 6 v
  else if v <? 2 ^ 56 then 254 :: be 7 v
  else 255 :: be 8 v.

(** The big-endian integer of a payload. *)
Definition be_value (payload : bytes) : Z :=
  fold_left (fun acc b => acc * 256 + b) payload 0.

(** The lead-byte table of section 4.2 of the specification, read as a
    decoder: the forms it admits for a value, shortest or not. *)
Definition spec_decode (bs : bytes) : option Z :=
  match bs with
  | [] => None
  | L :: payload =>
      if L <=? 240 then
        match payload with [] => Some L | _ => None end
      else if L <=? 248 then
        match payload with [P] => Some (240 + 256 * (L - 241) + P) | _ => None end
      else if L =? 249 then
        match payload with [_; _] => Some (2288 + be_value payload) | _ => None end
      else if L <=? 255 then
        if len payload =? L - 247 then Some (be_value payload) else None
      else None
  end.

(** A Python integer in either of its two representations. *)
Definition py_integer (long : bool) (v : Z) : PyObject :=
  if long then PyLong v else PyInt v.

(** The bytes [c_encode_value] emits for an integer in the 64-bit signed
    range. *)
Definition int_bytes (v : Z) : bytes :=
  if v <? 0 then u8 (KIND_NEG_INTEGER K) :: varint (u64 (- v))
  else u8 (KIND_INTEGER K) :: varint (u64 v).

(** An element is anything but a tuple or a list. *)
Definition is_element (arg : PyObject) : bool :=
  match arg with
  | PyTuple _ | PyList _ => false
  | _ => true
  end.

(** The bytes the loop of [write_str] emits, with the final loop state. *)
Fixpoint str_loop (p : bytes) (shift trailer : Z) : bytes * Z * Z :=
  match p with
  | [] => ([], shift, trailer)
  | o :: p' =>
      let b := u8 (Z.lor (Z.lor 128 trailer) (Z.shiftr o shift)) in
      if shift <? 7 then
        let '(out, s, t) := str_loop p' (shift + 1) (u8 (Z.shiftl o (7 - shift))) in
        (b :: out, s, t)
      else
        let '(out, s, t) := str_loop p' 1 0 in
        (b :: u8 (Z.lor 128 o) :: out, s, t)
  end.

(** The bytes [write_str] emits after its loop. *)
Definition str_tail (shift trailer : Z) : bytes :=
  if shift >? 1 then
    if negb (trailer =? 0) then [trailer; 0] else [trailer]
  else [0].

(** The bytes [write_str] emits after the tag. *)
Definition str_stream (p : bytes) : bytes :=
  let '(out, s, t) := str_loop p 1 0 in out ++ str_tail s t.

(** Bit 7 of a byte. *)
Definition high_bit (b : Z) : bool := Z.testbit b 7.

(** [reader_at rdr pre rest]: the reader has read [pre] and has [rest]
    before it. *)
Definition reader_at (rdr : reader) (pre rest : bytes) : Prop :=
  r_p rdr = pre ++ rest /\ r_size rdr = len (pre ++ rest) /\ r_pos rdr = len pre.

(** The bytes [write_str] emits for the input [o :: p] after the first
    byte of [o], when [o] is met with the loop at [shift = s]. *)
Fixpoint str_rest (o : Z) (p : bytes) (s : Z) : bytes :=
  if s <? 7 then
    let t := u8 (Z.shiftl o (7 - s)) in
    match p with
    | [] => str_tail (s + 1) t
    | o' :: p' => u8 (Z.lor (Z.lor 128 t) (Z.shiftr o' (s + 1))) :: str_rest o' p' (s + 1)
    end
  else
    u8 (Z.lor 128 o) ::
    match p with
    | [] => str_tail 1 0
    | o' :: p' => u8 (Z.lor (Z.lor 128 0) (Z.shiftr o' 1)) :: str_rest o' p' 1
    end.

(** The bytes [read_str] gives back for them: the input, but without its
    last byte when the final trailer is zero. *)
Fixpoint str_kept (o : Z) (p : bytes) (s : Z) : bytes :=
  if s <? 7 then
    match p with
    | [] => if u8 (Z.shiftl o (7 - s)) =? 0 then [] else [o]
    | o' :: p' => o :: str_kept o' p' (s + 1)
    end
  else
    o :: match p with
         | [] => []
         | o' :: p' => str_kept o' p' 1
         end.

(** What [read_str] returns on the stream of [p]. *)
Definition str_decoded (p : bytes) : bytes :=
  match p with
  | [] => []
  | o :: p' => str_kept o p' 1
  end.

(** [write_str] leaves its loop with [shift = 1] or with a trailer that is
    not zero: the stream of [p] then does not end in a zero trailer. *)
Definition keeps_last (p : bytes) : bool :=
  let '(_, s, t) := str_loop p 1 0 in (s =? 1) || negb (t =? 0).

(** The elements other than timestamps that [c_encode_value] accepts:
    integers of the 64-bit signed range, strings of bytes. *)
Definition plain_element (arg : PyObject) : bool :=
  match arg with
  | PyNone | PyBool _ => true
  | PyInt v | PyLong v => (- 2 ^ 63 <=? v) && (v <? 2 ^ 63)
  | PyString b | PyUnicode b | PyUUID b => is_bytes b
  | PyDateTime _ | PyTuple _ | PyList _ => false
  end.

(** The bytes [c_encode_value] emits for a plain element. *)
Definition value_bytes (arg : PyObject) : bytes :=
  match arg with
  | PyNone => [u8 (KIND_NULL K)]
  | PyInt v | PyLong v => int_bytes v
  | PyString b => u8 (KIND_BLOB K) :: str_stream b
  | PyUnicode b => u8 (KIND_TEXT K) :: str_stream b
  | PyBool b => [u8 (KIND_BOOL K); u8 (if b then 1 else 0)]
  | PyUUID b => u8 (KIND_UUID K) :: str_stream b
  | PyDateTime _ | PyTuple _ | PyList _ => []
  end.

(** The bytes [c_encode_key] emits for a tuple of plain elements. *)
Fixpoint key_bytes (tup : list PyObject) : bytes :=
  match tup with
  | [] => []
  | arg :: tup' => value_bytes arg ++ key_bytes tup'
  end.

(** What [unpack] gives back for a plain element whose encoding starts at
    position [pos]: the integer after the tag is read by [read_plain_int]
    at position [pos + 1]. *)
Definition decoded_int (pos v : Z) : PyObject :=
  let m := if v <? 0 then u64 (- v) else u64 v in
  let u := if m <=? 240 then uninit (pos + 1) else m in
  PyLong (if v <? 0 then - u else u).

Definition decode_of (pos : Z) (arg : PyObject) : res PyObject :=
  match arg with
  | PyNone => Ok PyNone
  | PyInt v | PyLong v => Ok (decoded_int pos v)
  | PyBool _ => Ok (PyBool (negb (uninit (pos + 1) =? 0)))
  | PyString b => Ok (PyString (str_decoded b))
  | PyUnicode b => PyUnicode_DecodeUTF8 (str_decoded b)
  | PyUUID b => UUID_call (str_decoded b)
  | PyDateTime _ | PyTuple _ | PyList _ => Raise TypeError
  end.

Fixpoint decode_items (pos : Z) (tup : list PyObject) : res (list PyObject) :=
  match tup with
  | [] => Ok []
  | arg :: tup' =>
      x <- decode_of pos arg ;;
      xs <- decode_items (pos + len (value_bytes arg)) tup' ;;
      Ok (x :: xs)
  end.

(** [a] is a prefix of [b]. *)
Definition is_prefix (a b : bytes) : Prop := firstn (length a) b = a.

(** The elements that [unpack] gives back as they were: [None]; integers
    of the 64-bit signed range whose magnitude exceeds 240 (their varint has
    a payload); strings, texts and UUIDs whose stream does not end in a zero
    trailer. *)
Definition elem_roundtrips (arg : PyObject) : bool :=
  match arg with
  | PyNone => true
  | PyInt v | PyLong v => (- 2 ^ 63 <=? v) && (v <? 2 ^ 63) && (240 <? Z.abs v)
  | PyString b => is_bytes b && keeps_last b
  | PyUnicode b => is_bytes b && keeps_last b && utf8_valid b
  | PyUUID b => is_bytes b && keeps_last b && (len b =? 16)
  | PyBool _ | PyDateTime _ | PyTuple _ | PyList _ => false
  end.

(** A value made of such elements: one element, or a tuple of them. *)
Definition roundtrips (value : PyObject) : bool :=
  match value with
  | PyTuple items => forallb elem_roundtrips items
  | PyList _ => false
  | _ => elem_roundtrips value
  end.

(** The decoder builds every integer as a long. *)
Definition as_decoded (arg : PyObject) : PyObject :=
  match arg with
  | PyInt v => PyLong v
  | _ => arg
  end.

(** The plain elements on which the decoder does not raise: a text whose
    decoded bytes are valid UTF-8, a UUID whose decoded bytes are 16. *)
Definition decodable (arg : PyObject) : bool :=
  plain_element arg &&
  match arg with
  | PyUnicode b => utf8_valid (str_decoded b)
  | PyUUID b => len (str_decoded b) =? 16
  | _ => true
  end.

(** The bytes of a batch: the tuples, a separator before each but the
    first. *)
Definition seps (ts : list (list PyObject)) : bytes :=
  flat_map (fun t => KIND_SEP K :: key_bytes t) ts.

Definition batch_bytes (ts : list (list PyObject)) : bytes :=
  match ts with
  | [] => []
  | t :: ts' => key_bytes t ++ seps ts'
  end.

(** The number of tuples [unpacks] finds in the batch [t :: ts]: an empty
    tuple at the very end leaves no byte behind its separator. *)
Fixpoint tuples_found (t : list PyObject) (ts : list (list PyObject)) : nat :=
  match ts with
  | [] => match t with [] => 0 | _ :: _ => 1 end
  | t' :: ts' => S (tuples_found t' ts')
  end.

(** The running sums of [py_decode_offsets], kept in 64 bits. *)
Fixpoint offsets_from (pos : Z) (ds : list Z) : list Z :=
  match ds with
  | [] => []
  | d :: ds' => let p := u64 (pos + d) in p :: offsets_from p ds'
  end.

(** ** Characterisations used by the further properties *)

(** The bytes an operation of the writer appends. *)
Definition op_bytes (op : writer_op) : bytes :=
  match op with
  | OpPutc o => [o]
  | OpPuts s => s
  | OpEnsure _ => []
  end.

(** Python's [<] on tuples of integers: the first difference decides, and
    a proper prefix is smaller. *)
Fixpoint tuple_lt (s t : list Z) : bool :=
  match s, t with
  | _, [] => false
  | [], _ :: _ => true
  | a :: s', b :: t' => (a <? b) || ((a =? b) && tuple_lt s' t')
  end.

(** The integers of a C [long] that are not negative. *)
Definition nonneg_long (v : Z) : bool := (0 <=? v) && (v <? 2 ^ 63).

(** [drops_last b]: the length of [b] is not a multiple of 7, and the low
    bits of its last byte, those [write_str] keeps for the final trailer,
    are all zero. *)
Definition drops_last (b : bytes) : bool :=
  let r := len b mod 7 in
  negb (r =? 0) && (last b 0 mod 2 ^ (r + 1) =? 0).

(** The exceptions the decoder raises on an input that is not a key; the
    abort of [read_time] counts among them. *)
Definition decoder_error (e : PyExc) : bool :=
  match e with
  | ValueError | SystemError | UnicodeDecodeError | Aborted => true
  | _ => false
  end.

(** [reads c pre rest n]: a step [c] of the decoder, taken with [pre] read
    and [rest] ahead, raises a decoder error, or returns with the reader
    at least [n] bytes further on in the same input. *)
Definition reads {A : Type} (c : res (A * reader)) (pre rest : bytes) (n : Z) : Prop :=
  match c with
  | Ok (_, rdr') =>
      exists x rest', rest = x ++ rest' /\ n <= len x /\ reader_at rdr' (pre ++ x) rest'
  | Raise e => decoder_error e = true
  end.

(** The tuple [unpack] builds for a tuple of elements that come back as
    they were: the integers are longs. *)
Definition decoded_tuple (t : list PyObject) : PyObject := PyTuple (map as_decoded t).

(** The bytes [write_str] emits from the loop state [(shift, trailer)]
    on: those of its loop on [p], then those it emits after the loop. *)
Definition str_from (p : bytes) (shift trailer : Z) : bytes :=
  let '(out, s, t) := str_loop p shift trailer in out ++ str_tail s t.

(** A trailer the loop of [write_str] can hold at [shift]: a byte whose
    low [8 - shift] bits are zero. *)
Definition trailer_at (shift t : Z) : Prop :=
  0 <= t < 256 /\ t mod 2 ^ (8 - shift) = 0.

(** The exceptions the encoder raises on a value it does not take; the
    failed assertion of [write_time] counts among them. *)
Definition encoder_error (e : PyExc) : bool :=
  match e with
  | TypeError | OverflowError | Aborted => true
  | _ => false
  end.

(** ** Concrete instances

    An allocator that never refuses; an uninitialised local that happens
    to hold zero, or one; a UTF-8 decoder restricted to ASCII; a [timegm]
    for the single instant 1970-01-01 00:00:01; a writer of one byte of
    room. *)

Definition unbounded_memory : Z -> bool := fun _ => true.

(** Modelled from the spec: the values of the macros [UTCOFFSET_SHIFT] and
    [UTCOFFSET_DIV] of the missing header; section 4.5 biases the offset by
    64 quarter-hours and divides the seconds by 900. *)
Definition spec_shift : Z := 64.

Definition spec_div : Z := 900.

Definition holds_zero : Z -> Z := fun _ => 0.

Definition holds_one : Z -> Z := fun _ => 1.

Definition ascii_only : bytes -> bool := forallb (fun b => b <? 128).

Definition one_second : tm -> Z := fun _ => 1.

Definition small_writer : writer := {| w_pos := 0; w_s := Some [0] |}.

Definition nil_uuid : PyObject := PyUUID (repeat 0 16).

(** 1970-01-01 00:00:01, with an offset from UTC in seconds or naive. *)
Definition second_one (offset : option Z) : datetime :=
  {| dt_year := 1970; dt_month := 1; dt_day := 1; dt_hour := 0; dt_minute := 0;
     dt_second := 1; dt_microsecond := 0; dt_utcoffset := offset |}.

(** * Proofs *)

(** ** Lists and buffers *)

Lemma len_nonneg (l : bytes) : 0 <= len l.
Proof. unfold len. lia. Qed.

Lemma len_app (a b : bytes) : len (a ++ b) = len a + len b.
Proof. unfold len. rewrite length_app. lia. Qed.

Lemma len_cons (x : Z) (l : bytes) : len (x :: l) = 1 + len l.
Proof. unfold len. simpl length. lia. Qed.

Lemma len_nil : len [] = 0.
Proof. reflexivity. Qed.

Lemma poke_some (buf : bytes) (i v : Z) :
  0 <= i < len buf ->
  exists buf', poke buf i v = Some buf' /\ len buf' = len buf /\
    firstn (Z.to_nat (i + 1)) buf' = firstn (Z.to_nat i) buf ++ [v].
Proof.
  intros Hi. unfold poke.
  replace ((0 <=? i) && (i <? len buf)) with true
    by (symmetry; apply andb_true_iff; split; [apply Z.leb_le | apply Z.ltb_lt]; lia).
  eexists. split; [reflexivity|].
  unfold len in *.
  assert (Hn : (Z.to_nat i < length buf)%nat) by lia.
  split.
  - rewrite length_app, length_firstn. cbn [length]. rewrite length_skipn. lia.
  - replace (Z.to_nat (i + 1)) with (length (firstn (Z.to_nat i) buf) + 1)%nat
      by (rewrite length_firstn; lia).
    rewrite firstn_app_2. reflexivity.
Qed.

Lemma poke_none (buf : bytes) (i v : Z) :
  ~ (0 <= i < len buf) -> poke buf i v = None.
Proof.
  intros Hi. unfold poke.
  destruct (Z.leb_spec 0 i); destruct (Z.ltb_spec i (len buf)); simpl; try reflexivity.
  lia.
Qed.

Lemma firstn_firstn_le (A : Type) (l : list A) (a b : nat) :
  (a <= b)%nat -> firstn a (firstn b l) = firstn a l.
Proof. intros H. rewrite firstn_firstn. f_equal. lia. Qed.

Lemma firstn_snoc_prefix (buf buf' : bytes) (n : nat) (e : bytes) (k : nat) :
  firstn n buf' = firstn k buf ++ e -> (k <= n)%nat -> (k <= length buf)%nat ->
  firstn k buf' = firstn k buf.
Proof.
  intros H Hk Hl.
  rewrite <- (firstn_firstn_le _ buf' k n Hk), H.
  rewrite firstn_app, firstn_firstn_le by lia.
  rewrite length_firstn.
  replace (k - Nat.min k (length buf))%nat with 0%nat by lia.
  simpl. apply app_nil_r.
Qed.

Lemma memcpy_some (s buf : bytes) (i : Z) :
  0 <= i -> i + len s <= len buf ->
  exists buf', memcpy buf i s = Some buf' /\ len buf' = len buf /\
    firstn (Z.to_nat (i + len s)) buf' = firstn (Z.to_nat i) buf ++ s.
Proof.
  revert buf i. induction s as [|b s IH]; intros buf i Hi Hlen.
  - exists buf. rewrite len_nil, Z.add_0_r, app_nil_r. auto.
  - rewrite len_cons in Hlen. simpl. pose proof (len_nonneg s) as Hs.
    destruct (poke_some buf i b ltac:(lia)) as (buf1 & -> & Hl1 & Hf1).
    destruct (IH buf1 (i + 1) ltac:(lia) ltac:(lia)) as (buf2 & -> & Hl2 & Hf2).
    exists buf2. split; [reflexivity|]. split; [congruence|].
    rewrite len_cons. replace (i + (1 + len s)) with (i + 1 + len s) by lia.
    rewrite Hf2, Hf1, <- app_assoc. reflexivity.
Qed.

Lemma len_resize (buf : bytes) (n : Z) : 0 <= n -> len (resize buf n) = n.
Proof.
  intros Hn. unfold resize, len. rewrite length_app, length_firstn, repeat_length. lia.
Qed.

Lemma firstn_resize (buf : bytes) (n : Z) (k : nat) :
  (k <= length buf)%nat -> Z.of_nat k <= n ->
  firstn k (resize buf n) = firstn k buf.
Proof.
  intros Hk Hn. unfold resize.
  rewrite firstn_app, firstn_firstn_le by lia.
  rewrite length_firstn.
  replace (k - Nat.min (Z.to_nat n) (length buf))%nat with 0%nat by lia.
  simpl. apply app_nil_r.
Qed.

Lemma resize_cut (buf : bytes) (n : Z) :
  n <= len buf -> resize buf n = firstn (Z.to_nat n) buf.
Proof.
  intros Hn. unfold resize, len in *.
  replace (Z.to_nat n - length buf)%nat with 0%nat by lia.
  simpl. apply app_nil_r.
Qed.

(** ** The writer keeps its position inside the buffer *)

Lemma writer_ok_room (w : writer) : writer_ok w = true <-> room w 0.
Proof.
  unfold writer_ok, room. destruct (w_s w) as [buf|].
  - rewrite andb_true_iff, Z.leb_le, Z.ltb_lt. split.
    + intros [H1 H2]. exists buf. repeat split; [assumption | lia].
    + intros (b & Hb & H1 & H2). injection Hb as <-. lia.
  - split; [discriminate | intros (b & Hb & _); discriminate].
Qed.

Lemma room_weaken (w : writer) (n m : Z) : room w n -> m <= n -> room w m.
Proof. intros (buf & Hs & H0 & H1) Hm. exists buf. repeat split; [assumption | assumption | lia]. Qed.

Lemma writer_putchar_room (w : writer) (ch n : Z) :
  room w n -> 0 <= n ->
  exists w', writer_putchar w ch = Ok w' /\ written w' = written w ++ [ch] /\
    w_pos w' = w_pos w + 1 /\ w_size w' = w_size w /\
    (forall m, room w (m + 1) -> room w' m).
Proof.
  intros (buf & Hs & H0 & H1) Hn. unfold writer_putchar. rewrite Hs.
  destruct (poke_some buf (w_pos w) ch ltac:(lia)) as (buf' & -> & Hl & Hf).
  eexists. split; [reflexivity|].
  unfold written, w_size. simpl. rewrite Hs. repeat split; try assumption.
  intros m (b & Hb & Hb0 & Hb1). rewrite Hs in Hb. injection Hb as <-.
  exists buf'. simpl. repeat split; [lia | lia].
Qed.

Lemma writer_grow_inv (w w' : writer) :
  writer_grow w = Ok w' -> room w 0 ->
  w_pos w' = w_pos w /\ written w' = written w /\ w_size w < w_size w' /\ room w' 0.
Proof.
  unfold writer_grow. intros H (buf & Hs & H0 & H1). rewrite Hs in H.
  set (newsize := if len buf * 2 >? len buf + 512 then len buf + 512 else len buf * 2) in H.
  assert (Hnew : len buf < newsize)
    by (subst newsize; destruct (Z.gtb_spec (len buf * 2) (len buf + 512)); lia).
  destruct (alloc newsize); [|discriminate]. injection H as <-.
  unfold written, w_size. simpl. rewrite Hs.
  repeat split.
  - unfold len in *. apply firstn_resize; lia.
  - rewrite len_resize; lia.
  - eexists. split; [reflexivity|]. cbn [w_pos]. rewrite len_resize; lia.
Qed.

Lemma writer_putc_inv (w w' : writer) (o : Z) :
  writer_putc w o = Ok w' -> room w 0 -> extends w w' [o].
Proof.
  unfold writer_putc. intros H Hr. pose proof Hr as (buf & Hs & H0 & H1).
  rewrite Hs in H.
  destruct (Z.eqb_spec (1 + w_pos w) (len buf)) as [Heq|Hne].
  - destruct (writer_grow w) as [w1|] eqn:Hg; [|discriminate]. simpl in H.
    destruct (writer_grow_inv _ _ Hg Hr) as (Hp & Hw & Hsz & (b1 & Hs1 & H10 & H11)).
    assert (Hr1 : room w1 1).
    { exists b1. repeat split; try assumption.
      unfold w_size in Hsz. rewrite Hs, Hs1 in Hsz. lia. }
    destruct (writer_putchar_room w1 o 1 Hr1 ltac:(lia)) as (w2 & Hpc & Hw2 & _ & _ & Hroom).
    rewrite Hpc in H. injection H as <-.
    split; [apply Hroom; assumption | congruence].
  - simpl in H.
    assert (Hr1 : room w 1) by (exists buf; repeat split; [assumption | assumption | lia]).
    destruct (writer_putchar_room w o 1 Hr1 ltac:(lia)) as (w2 & Hpc & Hw2 & _ & _ & Hroom).
    rewrite Hpc in H. injection H as <-.
    split; [apply Hroom; assumption | assumption].
Qed.

Lemma writer_ensure_loop_inv (fuel : nat) (w w' : writer) (size : Z) :
  writer_ensure_loop fuel w size = Ok w' -> room w 0 ->
  w_pos w' = w_pos w /\ written w' = written w /\ room w' 0 /\
  size <= w_size w' - (w_pos w' + 1).
Proof.
  revert w. induction fuel as [|fuel IH]; intros w H Hr; simpl in H.
  - destruct (Z.ltb_spec (w_size w - (w_pos w + 1)) size); [discriminate|].
    injection H as <-. auto.
  - destruct (Z.ltb_spec (w_size w - (w_pos w + 1)) size).
    + destruct (writer_grow w) as [w1|] eqn:Hg; [|discriminate]. simpl in H.
      destruct (writer_grow_inv _ _ Hg Hr) as (Hp & Hw & _ & Hr1).
      destruct (IH _ H Hr1) as (Hp' & Hw' & Hr' & Hs').
      repeat split; [congruence | congruence | assumption | assumption].
    + injection H as <-. auto.
Qed.

Lemma room_of_size (w : writer) (n : Z) :
  room w 0 -> n <= w_size w - (w_pos w + 1) -> 0 <= n -> room w n.
Proof.
  intros (buf & Hs & H0 & H1) Hn Hn0. unfold w_size in Hn. rewrite Hs in Hn.
  exists buf. repeat split; [assumption | assumption | lia].
Qed.

Lemma writer_ensure_inv (w w' : writer) (size : Z) :
  writer_ensure w size = Ok w' -> room w 0 ->
  w_pos w' = w_pos w /\ written w' = written w /\ room w' (Z.max 0 size).
Proof.
  unfold writer_ensure. intros H Hr.
  destruct (writer_ensure_loop_inv _ _ _ _ H Hr) as (Hp & Hw & Hr' & Hs).
  repeat split; try assumption.
  destruct (Z.max_spec 0 size) as [[? ->]|[? ->]].
  - apply room_of_size; [assumption | assumption | lia].
  - assumption.
Qed.

Lemma writer_puts_inv (w w' : writer) (s : bytes) :
  writer_puts w s = Ok w' -> room w 0 -> extends w w' s.
Proof.
  unfold writer_puts. intros H Hr.
  destruct (writer_ensure w (len s)) as [w1|] eqn:He; [|discriminate]. simpl in H.
  destruct (writer_ensure_inv _ _ _ He Hr) as (Hp & Hw & (buf & Hs & H0 & H1)).
  pose proof (len_nonneg s) as Hls. rewrite Z.max_r in H1 by assumption.
  rewrite Hs in H.
  destruct (memcpy_some s buf (w_pos w1) ltac:(lia) ltac:(lia)) as (buf' & Hm & Hl & Hf).
  rewrite Hm in H. injection H as <-.
  split.
  - exists buf'. cbn [w_pos w_s]. split; [reflexivity | lia].
  - unfold written at 1. simpl. rewrite Hf, <- Hw. unfold written. rewrite Hs. reflexivity.
Qed.

Lemma writer_init_inv (initial : Z) (w : writer) :
  writer_init initial = Ok w -> 0 < initial -> room w 0 /\ written w = [].
Proof.
  unfold writer_init. intros H Hi.
  destruct (Z.ltb_spec initial 0); [discriminate|].
  destruct (alloc initial); [|discriminate]. injection H as <-.
  split.
  - eexists. simpl. split; [reflexivity|]. unfold len. rewrite repeat_length. lia.
  - reflexivity.
Qed.

Lemma run_op_inv (w w' : writer) (op : writer_op) :
  run_op w op = Ok w' -> room w 0 -> room w' 0.
Proof.
  destruct op as [o|s|size]; simpl; intros H Hr.
  - apply (writer_putc_inv _ _ _ H Hr).
  - apply (writer_puts_inv _ _ _ H Hr).
  - destruct (writer_ensure_inv _ _ _ H Hr) as (_ & _ & Hr').
    apply (room_weaken _ _ 0 Hr'). lia.
Qed.

Lemma run_ops_inv (ops : list writer_op) (w w' : writer) :
  run_ops w ops = Ok w' -> room w 0 -> room w' 0.
Proof.
  revert w. induction ops as [|op ops IH]; intros w H Hr; simpl in H.
  - injection H as <-. assumption.
  - destruct (run_op w op) as [w1|] eqn:Hop; [|discriminate]. simpl in H.
    apply (IH _ H). apply (run_op_inv _ _ _ Hop Hr).
Qed.

(** C10. Writer slack invariant: after [writer_init] with a positive
    initial size and any run of successful [writer_putc], [writer_puts] and
    [writer_ensure] operations, the position is strictly less than the
    allocated size of the buffer, and the next unchecked store
    ([writer_putchar]) succeeds, that is, lands inside the buffer. *)
Theorem writer_slack_invariant (initial : Z) (ops : list writer_op) (w : writer) :
  0 < initial ->
  (w0 <- writer_init initial ;; run_ops w0 ops) = Ok w ->
  0 <= w_pos w < w_size w /\
  forall ch, exists w', writer_putchar w ch = Ok w'.
Proof.
  intros Hi H.
  destruct (writer_init initial) as [w0|] eqn:H0; [|discriminate]. simpl in H.
  destruct (writer_init_inv _ _ H0 Hi) as (Hr0 & _).
  pose proof (run_ops_inv _ _ _ H Hr0) as Hr.
  split.
  - destruct Hr as (buf & Hs & Hp & Hl). unfold w_size. rewrite Hs. lia.
  - intros ch. destruct (writer_putchar_room w ch 0 Hr ltac:(lia)) as (w' & Hw' & _).
    exists w'. assumption.
Qed.

(** ** The writer under an allocator that never refuses *)

Hypothesis enough_memory : forall n, alloc n = true.

Lemma extends_refl (w : writer) : room w 0 -> extends w w [].
Proof. intros Hr. split; [assumption | symmetry; apply app_nil_r]. Qed.

Lemma extends_trans (w1 w2 w3 : writer) (e1 e2 : bytes) :
  extends w1 w2 e1 -> extends w2 w3 e2 -> extends w1 w3 (e1 ++ e2).
Proof.
  intros [_ H1] [Hr H2]. split; [assumption|].
  rewrite H2, H1. symmetry. apply app_assoc.
Qed.

Lemma writer_init_ok (initial : Z) :
  0 < initial -> exists w, writer_init initial = Ok w /\ room w 0 /\ written w = [].
Proof.
  intros Hi. unfold writer_init.
  destruct (Z.ltb_spec initial 0); [lia|]. rewrite enough_memory.
  eexists. split; [reflexivity|]. split; [|reflexivity].
  eexists. cbn [w_s w_pos]. split; [reflexivity|].
  unfold len. rewrite repeat_length. lia.
Qed.

Lemma writer_grow_ok (w : writer) :
  room w 0 -> exists w', writer_grow w = Ok w'.
Proof.
  intros (buf & Hs & _). unfold writer_grow. rewrite Hs, enough_memory. eauto.
Qed.

Lemma writer_putc_ok (w : writer) (o : Z) :
  room w 0 -> exists w', writer_putc w o = Ok w' /\ extends w w' [o].
Proof.
  intros Hr.
  assert (H : exists w', writer_putc w o = Ok w').
  { pose proof Hr as (buf & Hs & H0 & H1). unfold writer_putc. rewrite Hs.
    destruct (Z.eqb_spec (1 + w_pos w) (len buf)) as [Heq|Hne].
    - destruct (writer_grow_ok w Hr) as (w1 & Hg). rewrite Hg. cbn [bind].
      destruct (writer_grow_inv _ _ Hg Hr) as (_ & _ & _ & Hr1).
      destruct (writer_putchar_room w1 o 0 Hr1 ltac:(lia)) as (w2 & -> & _). eauto.
    - cbn [bind].
      destruct (writer_putchar_room w o 0 Hr ltac:(lia)) as (w2 & -> & _). eauto. }
  destruct H as (w' & H). exists w'. split; [assumption|].
  apply (writer_putc_inv _ _ _ H Hr).
Qed.

Lemma writer_ensure_loop_ok (fuel : nat) (w : writer) (size : Z) :
  room w 0 -> size - (w_size w - (w_pos w + 1)) <= Z.of_nat fuel ->
  exists w', writer_ensure_loop fuel w size = Ok w'.
Proof.
  revert w. induction fuel as [|fuel IH]; intros w Hr Hf; simpl.
  - destruct (Z.ltb_spec (w_size w - (w_pos w + 1)) size); [lia | eauto].
  - destruct (Z.ltb_spec (w_size w - (w_pos w + 1)) size); [|eauto].
    destruct (writer_grow_ok w Hr) as (w1 & Hg). rewrite Hg. cbn [bind].
    destruct (writer_grow_inv _ _ Hg Hr) as (Hp & _ & Hsz & Hr1).
    apply IH; [assumption | lia].
Qed.

Lemma writer_ensure_ok (w : writer) (size : Z) :
  room w 0 -> 0 <= size ->
  exists w', writer_ensure w size = Ok w' /\ written w' = written w /\ room w' size.
Proof.
  intros Hr Hs.
  assert (H : exists w', writer_ensure w size = Ok w').
  { unfold writer_ensure. apply writer_ensure_loop_ok; [assumption|].
    destruct Hr as (buf & Hb & H0 & H1). unfold w_size. rewrite Hb. lia. }
  destruct H as (w' & H). exists w'. split; [assumption|].
  destruct (writer_ensure_inv _ _ _ H Hr) as (_ & Hw & Hr').
  rewrite Z.max_r in Hr' by assumption. auto.
Qed.

Lemma writer_putchar_ok (w : writer) (ch n : Z) :
  room w n -> 1 <= n ->
  exists w', writer_putchar w ch = Ok w' /\ written w' = written w ++ [ch] /\
    room w' (n - 1).
Proof.
  intros Hr Hn.
  destruct (writer_putchar_room w ch n Hr ltac:(lia)) as (w' & H & Hw & _ & _ & Hroom).
  exists w'. repeat split; try assumption.
  apply Hroom. replace (n - 1 + 1) with n by lia. assumption.
Qed.

Lemma writer_puts_ok (w : writer) (s : bytes) :
  room w 0 -> exists w', writer_puts w s = Ok w' /\ extends w w' s.
Proof.
  intros Hr.
  assert (H : exists w', writer_puts w s = Ok w').
  { unfold writer_puts. pose proof (len_nonneg s) as Hl.
    destruct (writer_ensure_ok w (len s) Hr Hl) as (w1 & -> & _ & (buf & Hs & H0 & H1)).
    cbn [bind]. rewrite Hs.
    destruct (memcpy_some s buf (w_pos w1) ltac:(lia) ltac:(lia)) as (buf' & -> & _).
    eauto. }
  destruct H as (w' & H). exists w'. split; [assumption|].
  apply (writer_puts_inv _ _ _ H Hr).
Qed.

Lemma writer_fini_ok (w : writer) :
  room w 0 -> writer_fini w = Ok (written w).
Proof.
  intros (buf & Hs & H0 & H1). unfold writer_fini, written.
  rewrite Hs, enough_memory. f_equal. apply resize_cut. lia.
Qed.

(** ** The variable-length integer *)

Ltac putchar_steps :=
  repeat match goal with
  | Hr : room ?w ?n |- context [writer_putchar ?w ?c] =>
      let m := eval compute in (n - 1) in
      let w' := fresh "w" in
      let He := fresh "He" in
      let Hw := fresh "Hw" in
      let Hr' := fresh "Hr" in
      destruct (writer_putchar_ok w c n Hr ltac:(lia)) as (w' & He & Hw & Hr');
      change (n - 1) with m in Hr';
      rewrite He; cbn [bind]; clear He Hr
  end.

Lemma write_tag_ok (w : writer) (kind : Z) :
  room w 0 ->
  exists w', (if kind =? 0 then Ok w else writer_putc w (u8 kind)) = Ok w' /\
    extends w w' (tag kind).
Proof.
  intros Hr. unfold tag. destruct (kind =? 0).
  - exists w. split; [reflexivity | apply extends_refl; assumption].
  - apply writer_putc_ok. assumption.
Qed.

Lemma write_int_ok (w : writer) (v kind : Z) :
  room w 0 ->
  exists w', write_int w v kind = Ok w' /\ extends w w' (tag kind ++ varint v).
Proof.
  intros Hr. unfold write_int.
  destruct (write_tag_ok w kind Hr) as (w1 & -> & Ht). cbn [bind].
  assert (Hr1 : room w1 0) by apply Ht.
  cut (forall e w', extends w1 w' e -> e = varint v -> extends w w' (tag kind ++ varint v)).
  2:{ intros e w' He ->. apply (extends_trans _ _ _ _ _ Ht He). }
  unfold varint.
  repeat match goal with
  | |- context [if ?a <=? ?b then _ else _] => destruct (a <=? b)
  end; intros Hcut;
  [ destruct (writer_putc_ok w1 (u8 v) Hr1) as (w' & Hw' & He);
    exists w'; split; [assumption | apply (Hcut _ _ He); reflexivity]
  | match goal with
    | |- context [writer_ensure w1 ?n] =>
        let w2 := fresh "w" in
        let Hw2 := fresh "Hw" in
        let Hr2 := fresh "Hr" in
        destruct (writer_ensure_ok w1 n Hr1 ltac:(lia)) as (w2 & -> & Hw2 & Hr2);
        cbn [bind]; cbv zeta; putchar_steps;
        eexists; split; [reflexivity|];
        eapply Hcut; [split; [eassumption|] | reflexivity];
        repeat match goal with H : written _ = _ |- _ => rewrite H; clear H end;
        rewrite <- ?app_assoc; reflexivity
    end .. ].
Qed.

(** ** Arithmetic of bytes *)

Ltac norm_pow :=
  repeat match goal with
  | |- context [2 ^ Zpos ?n] =>
      let x := eval compute in (2 ^ Zpos n) in change (2 ^ Zpos n) with x
  | H : context [2 ^ Zpos ?n] |- _ =>
      let x := eval compute in (2 ^ Zpos n) in change (2 ^ Zpos n) with x in H
  end.

Ltac dlia := norm_pow; Z.div_mod_to_equations; lia.

Lemma u8_range (x : Z) : 0 <= u8 x < 256.
Proof. unfold u8. apply Z.mod_pos_bound. lia. Qed.

Lemma u8_small (x : Z) : 0 <= x < 256 -> u8 x = x.
Proof. intros H. unfold u8. apply Z.mod_small. assumption. Qed.

Lemma is_byte_range (b : Z) : is_byte b = true <-> 0 <= b < 256.
Proof. unfold is_byte. rewrite andb_true_iff, Z.leb_le, Z.ltb_lt. reflexivity. Qed.

Lemma land_255 (x : Z) : Z.land x 255 = x mod 256.
Proof. change 255 with (Z.ones 8). rewrite Z.land_ones by lia. reflexivity. Qed.

Lemma u8_land_255 (x : Z) : u8 (Z.land x 255) = u8 x.
Proof. rewrite land_255. unfold u8. apply Z.mod_mod. lia. Qed.

Lemma u8_shiftr_mod (x n s : Z) :
  0 <= s -> s + 8 <= n -> u8 (Z.shiftr (x mod 2 ^ n) s) = u8 (Z.shiftr x s).
Proof.
  intros Hs Hn. unfold u8. change 256 with (2 ^ 8).
  apply Z.bits_inj'. intros i Hi.
  rewrite !Z.testbit_mod_pow2 by lia.
  destruct (Z.ltb_spec i 8) as [Hlt|Hge]; [|reflexivity]. cbn [andb].
  rewrite !Z.shiftr_spec by lia.
  rewrite Z.mod_pow2_bits_low by lia. reflexivity.
Qed.

Lemma be_mod (k : nat) (x n : Z) :
  8 * Z.of_nat k <= n -> be k (x mod 2 ^ n) = be k x.
Proof.
  induction k as [|k IH]; intros Hn; [reflexivity|].
  cbn [be]. f_equal.
  - apply u8_shiftr_mod; lia.
  - apply IH. lia.
Qed.

Lemma length_be (k : nat) (x : Z) : length (be k x) = k.
Proof. induction k as [|k IH]; cbn [be length]; congruence. Qed.

Lemma be_bytes (k : nat) (x : Z) : is_bytes (be k x) = true.
Proof.
  induction k as [|k IH]; [reflexivity|]. cbn [be is_bytes forallb].
  apply andb_true_iff. split; [|exact IH].
  apply is_byte_range, u8_range.
Qed.

(** ** The byte-wise order *)

Lemma lex_lt_head (x y : Z) (a b : bytes) : x < y -> lex_lt (x :: a) (y :: b) = true.
Proof. intros H. cbn [lex_lt]. apply orb_true_iff. left. apply Z.ltb_lt. assumption. Qed.

Lemma lex_lt_tail (x : Z) (a b : bytes) : lex_lt (x :: a) (x :: b) = lex_lt a b.
Proof. cbn [lex_lt]. rewrite Z.ltb_irrefl, Z.eqb_refl. reflexivity. Qed.

Lemma lex_lt_app (p a b : bytes) : lex_lt (p ++ a) (p ++ b) = lex_lt a b.
Proof.
  induction p as [|x p IH]; [reflexivity|].
  rewrite <- !app_comm_cons, lex_lt_tail. exact IH.
Qed.

Lemma lex_lt_irrefl (a : bytes) : lex_lt a a = false.
Proof.
  induction a as [|x a IH]; [reflexivity|]. rewrite lex_lt_tail. exact IH.
Qed.

Lemma lex_lt_asym (a b : bytes) : lex_lt a b = true -> lex_lt b a = false.
Proof.
  revert b. induction a as [|x a IH]; intros [|y b] H; try reflexivity; try discriminate.
  cbn [lex_lt] in *.
  destruct (Z.ltb_spec x y), (Z.ltb_spec y x), (Z.eqb_spec x y), (Z.eqb_spec y x);
    cbn [orb andb] in *; try lia; try discriminate; auto.
Qed.

Lemma be_lt (k : nat) (x y : Z) :
  0 <= x < y -> y < 2 ^ (8 * Z.of_nat k) -> lex_lt (be k x) (be k y) = true.
Proof.
  revert x y. induction k as [|k IH]; intros x y Hxy Hy.
  - change (2 ^ (8 * Z.of_nat 0)) with 1 in Hy. lia.
  - cbn [be].
    set (P := 2 ^ (8 * Z.of_nat k)).
    assert (HP : 0 < P) by (apply Z.pow_pos_nonneg; lia).
    assert (HS : 2 ^ (8 * Z.of_nat (S k)) = P * 256).
    { replace (8 * Z.of_nat (S k)) with (8 * Z.of_nat k + 8) by lia.
      rewrite Z.pow_add_r by lia. reflexivity. }
    rewrite HS in Hy.
    assert (Hd : forall z, 0 <= z < P * 256 -> u8 (Z.shiftr z (8 * Z.of_nat k)) = z / P).
    { intros z Hz. rewrite Z.shiftr_div_pow2 by lia. fold P. apply u8_small.
      split; [apply Z.div_pos; lia | apply Z.div_lt_upper_bound; lia]. }
    rewrite !Hd by lia.
    pose proof (Z.div_mod x P ltac:(lia)) as Hx.
    pose proof (Z.div_mod y P ltac:(lia)) as Hy'.
    pose proof (Z.mod_pos_bound x P HP) as Hxm.
    pose proof (Z.mod_pos_bound y P HP) as Hym.
    destruct (Z.lt_trichotomy (x / P) (y / P)) as [Hlt|[Heq|Hgt]].
    + apply lex_lt_head. assumption.
    + rewrite Heq, lex_lt_tail.
      rewrite <- (be_mod k x (8 * Z.of_nat k)), <- (be_mod k y (8 * Z.of_nat k)) by lia.
      fold P. apply IH; [|apply Hym].
      rewrite Heq in Hx. lia.
    + exfalso. nia.
Qed.

(** ** The encoder follows the lead-byte table *)

Lemma varint_spec (v : Z) : 0 <= v < 2 ^ 64 -> varint v = spec_varint v.
Proof.
  clear uninit utf8_valid timegm host_utcoffset.
  intros Hv. unfold varint, spec_varint.
  change (2 ^ 24) with 16777216. change (2 ^ 32) with 4294967296.
  change (2 ^ 40) with 1099511627776. change (2 ^ 48) with 281474976710656.
  change (2 ^ 56) with 72057594037927936.
  repeat match goal with
  | |- context [?a <=? ?b] => destruct (Z.leb_spec a b)
  | |- context [?a <? ?b] => destruct (Z.ltb_spec a b)
  end; try lia; try reflexivity.
  - rewrite u8_small by lia. reflexivity.
  - rewrite land_255, Z.shiftr_div_pow2 by lia. unfold u8. f_equal; [|f_equal]; dlia.
  - rewrite u8_land_255. reflexivity.
Qed.

Lemma spec_varint_lt (u v : Z) :
  0 <= u < v -> v < 2 ^ 64 -> lex_lt (spec_varint u) (spec_varint v) = true.
Proof.
  clear uninit utf8_valid timegm host_utcoffset.
  intros Huv Hv. unfold spec_varint.
  change (2 ^ 24) with 16777216. change (2 ^ 32) with 4294967296.
  change (2 ^ 40) with 1099511627776. change (2 ^ 48) with 281474976710656.
  change (2 ^ 56) with 72057594037927936.
  repeat match goal with
  | |- context [?a <=? ?b] => destruct (Z.leb_spec a b)
  | |- context [?a <? ?b] => destruct (Z.ltb_spec a b)
  end; try lia;
  try (apply lex_lt_head; dlia);
  try (rewrite lex_lt_tail; apply be_lt; [lia | norm_pow; simpl Z.of_nat; norm_pow; lia]).
  cbn [lex_lt].
  destruct (Z.ltb_spec (241 + (u - 240) / 256) (241 + (v - 240) / 256)); [reflexivity|].
  destruct (Z.eqb_spec (241 + (u - 240) / 256) (241 + (v - 240) / 256)); [|dlia].
  cbn [orb andb lex_lt]. apply orb_true_iff. left. apply Z.ltb_lt. dlia.
Qed.

(** C7. Varint order preservation: for unsigned 64-bit integers
    [u < v], the bytes [write_int] emits for [u] (without a kind tag) are
    strictly smaller, in unsigned byte-wise lexicographic order, than the
    bytes it emits for [v]. *)
Theorem varint_order_preserving (w : writer) (u v : Z) :
  writer_ok w = true -> 0 <= u < v -> v < 2 ^ 64 ->
  exists wu wv eu ev,
    write_int w u 0 = Ok wu /\ written wu = written w ++ eu /\
    write_int w v 0 = Ok wv /\ written wv = written w ++ ev /\
    lex_lt eu ev = true.
Proof.
  intros Hw Huv Hv. apply writer_ok_room in Hw.
  destruct (write_int_ok w u 0 Hw) as (wu & Hu & _ & Heu).
  destruct (write_int_ok w v 0 Hw) as (wv & Hv' & _ & Hev).
  exists wu, wv, (varint u), (varint v).
  repeat split; try assumption.
  rewrite !varint_spec by lia. apply spec_varint_lt; assumption.
Qed.

(** ** Integer elements *)

Hypothesis kinds_wf : kinds_ok K = true.

Lemma kinds_range (k : Z) : In k (kind_list K) -> 0 < k < 256.
Proof.
  intros Hin. pose proof kinds_wf as H. unfold kinds_ok in H.
  apply andb_true_iff in H. destruct H as [H _].
  rewrite forallb_forall in H. specialize (H k Hin).
  apply andb_true_iff in H. rewrite Z.ltb_lt, Z.ltb_lt in H. exact H.
Qed.

Ltac kind_in := unfold kind_list; cbn [In]; repeat (first [left; reflexivity | right]).

Lemma tag_kind (k : Z) : In k (kind_list K) -> tag k = [u8 k] /\ u8 k = k.
Proof.
  intros Hin. pose proof (kinds_range k Hin) as Hk. unfold tag.
  destruct (Z.eqb_spec k 0); [lia|]. split; [reflexivity | apply u8_small; lia].
Qed.

Lemma c_encode_value_integer (w : writer) (long : bool) (v : Z) :
  room w 0 -> - 2 ^ 63 <= v < 2 ^ 63 ->
  exists w', c_encode_value w (py_integer long v) = Ok w' /\ extends w w' (int_bytes v).
Proof.
  intros Hr Hv.
  assert (H : c_encode_value w (py_integer long v) =
              if v <? 0 then write_int w (u64 (- v)) (KIND_NEG_INTEGER K)
              else write_int w (u64 v) (KIND_INTEGER K)).
  { destruct long; cbn [py_integer c_encode_value]; [|reflexivity].
    destruct (Z.ltb_spec v (- 2 ^ 63)); [lia|].
    destruct (Z.leb_spec (2 ^ 63) v); [lia|]. reflexivity. }
  rewrite H. unfold int_bytes. destruct (v <? 0).
  - destruct (write_int_ok w (u64 (- v)) (KIND_NEG_INTEGER K) Hr) as (w' & Hw & He).
    exists w'. split; [assumption|].
    destruct (tag_kind (KIND_NEG_INTEGER K) ltac:(kind_in)) as [Ht _].
    rewrite Ht in He. exact He.
  - destruct (write_int_ok w (u64 v) (KIND_INTEGER K) Hr) as (w' & Hw & He).
    exists w'. split; [assumption|].
    destruct (tag_kind (KIND_INTEGER K) ltac:(kind_in)) as [Ht _].
    rewrite Ht in He. exact He.
Qed.

(** ** [packs] on a single element *)

Lemma packs_element (prefix : bytes) (arg : PyObject) (e : bytes) :
  is_element arg = true ->
  (forall w, room w 0 -> exists w', c_encode_value w arg = Ok w' /\ extends w w' e) ->
  packs [PyString prefix; arg] = Ok (prefix ++ e).
Proof.
  intros Hel Henc. unfold packs.
  destruct (writer_init_ok 20 ltac:(lia)) as (w0 & -> & Hr0 & Hw0). cbn [bind].
  destruct (writer_puts_ok w0 prefix Hr0) as (w1 & -> & Hr1 & Hw1). cbn [bind].
  destruct (Henc w1 Hr1) as (w2 & Hw2 & Hr2 & He).
  assert (Hgo : match arg with
                | PyList items => packs_loop w1 items 0
                | PyTuple items => c_encode_key w1 items
                | _ => c_encode_value w1 arg
                end = Ok w2) by (destruct arg; try discriminate; exact Hw2).
  rewrite Hgo. cbn [bind]. rewrite (writer_fini_ok w2 Hr2), He, Hw1, Hw0. reflexivity.
Qed.

(** C2, as the code has it.  Among negative integers the order of the
    encodings is the reverse of the numeric order: for [a < b < 0] in the
    64-bit signed range, the element encoding of [a] (the NEG_INTEGER tag
    followed by the varint of [|a|], not inverted) compares strictly greater
    than the element encoding of [b]. *)
Theorem negative_integers_sort_in_reverse (prefix : bytes) (la lb : bool) (a b : Z) :
  - 2 ^ 63 <= a -> a < b -> b < 0 ->
  exists ea eb,
    packs [PyString prefix; py_integer la a] = Ok (prefix ++ ea) /\
    packs [PyString prefix; py_integer lb b] = Ok (prefix ++ eb) /\
    ea = u8 (KIND_NEG_INTEGER K) :: varint (- a) /\
    eb = u8 (KIND_NEG_INTEGER K) :: varint (- b) /\
    lex_lt eb ea = true.
Proof.
  intros Ha Hab Hb.
  exists (u8 (KIND_NEG_INTEGER K) :: varint (- a)), (u8 (KIND_NEG_INTEGER K) :: varint (- b)).
  assert (Hu : forall x, - 2 ^ 63 <= x < 0 -> int_bytes x = u8 (KIND_NEG_INTEGER K) :: varint (- x)).
  { intros x Hx. unfold int_bytes. destruct (Z.ltb_spec x 0); [|lia].
    unfold u64. rewrite Z.mod_small by lia. reflexivity. }
  split; [|split; [|split; [reflexivity|split; [reflexivity|]]]].
  - apply packs_element; [destruct la; reflexivity|].
    intros w Hr. rewrite <- Hu by lia. apply c_encode_value_integer; [assumption | lia].
  - apply packs_element; [destruct lb; reflexivity|].
    intros w Hr. rewrite <- Hu by lia. apply c_encode_value_integer; [assumption | lia].
  - rewrite lex_lt_tail, !varint_spec by lia. apply spec_varint_lt; lia.
Qed.

(** ** The bit-interleaved stream *)

Lemma write_str_loop_ok (p : bytes) (w : writer) (shift trailer : Z) :
  room w 0 ->
  exists w', write_str_loop w p shift trailer =
             Ok (w', snd (fst (str_loop p shift trailer)), snd (str_loop p shift trailer)) /\
    extends w w' (fst (fst (str_loop p shift trailer))).
Proof.
  revert w shift trailer. induction p as [|o p IH]; intros w shift trailer Hr.
  - exists w. split; [reflexivity | apply extends_refl; assumption].
  - cbn [write_str_loop str_loop].
    destruct (writer_putc_ok w (u8 (Z.lor (Z.lor 128 trailer) (Z.shiftr o shift))) Hr)
      as (w1 & -> & He1). cbn [bind].
    destruct (shift <? 7).
    + destruct (IH w1 (shift + 1) (u8 (Z.shiftl o (7 - shift))) ltac:(apply He1))
        as (w2 & -> & He2).
      destruct (str_loop p (shift + 1) (u8 (Z.shiftl o (7 - shift)))) as [[out s] t].
      exists w2. split; [reflexivity|]. apply (extends_trans _ _ _ _ _ He1 He2).
    + destruct (writer_putc_ok w1 (u8 (Z.lor 128 o)) ltac:(apply He1)) as (w2 & -> & He2).
      cbn [bind].
      destruct (IH w2 1 0 ltac:(apply He2)) as (w3 & -> & He3).
      destruct (str_loop p 1 0) as [[out s] t].
      exists w3. split; [reflexivity|].
      apply (extends_trans _ _ _ _ _ He1 (extends_trans _ _ _ _ _ He2 He3)).
Qed.

Lemma write_str_ok (w : writer) (p : bytes) (kind : Z) :
  room w 0 ->
  exists w', write_str w p kind = Ok w' /\ extends w w' (tag kind ++ str_stream p).
Proof.
  intros Hr. unfold write_str, str_stream.
  destruct (write_tag_ok w kind Hr) as (w1 & -> & Ht). cbn [bind].
  destruct (write_str_loop_ok p w1 1 0 ltac:(apply Ht)) as (w2 & -> & Hl). cbn [bind].
  destruct (str_loop p 1 0) as [[out s] t]. cbn [fst snd] in *.
  assert (Hr2 : room w2 0) by apply Hl.
  cut (exists w', (if s >? 1
                   then w3 <- writer_putc w2 t ;;
                        (if negb (t =? 0) then writer_putc w3 0 else Ok w3)
                   else writer_putc w2 0) = Ok w' /\ extends w2 w' (str_tail s t)).
  { intros (w' & -> & He). exists w'. split; [reflexivity|].
    apply (extends_trans _ _ _ _ _ Ht (extends_trans _ _ _ _ _ Hl He)). }
  unfold str_tail. destruct (s >? 1).
  - destruct (writer_putc_ok w2 t Hr2) as (w3 & -> & He3). cbn [bind].
    destruct (negb (t =? 0)).
    + destruct (writer_putc_ok w3 0 ltac:(apply He3)) as (w4 & -> & He4).
      exists w4. split; [reflexivity|]. apply (extends_trans _ _ _ _ _ He3 He4).
    + exists w3. split; [reflexivity | assumption].
  - apply writer_putc_ok. assumption.
Qed.

Lemma high_bit_lor (t x : Z) : high_bit (u8 (Z.lor (Z.lor 128 t) x)) = true.
Proof.
  unfold high_bit, u8. change 256 with (2 ^ 8).
  rewrite Z.testbit_mod_pow2 by lia. rewrite !Z.lor_spec. reflexivity.
Qed.

Lemma high_bit_nonzero (b : Z) : high_bit b = true -> b <> 0.
Proof. intros H ->. discriminate. Qed.

(** The shape of the loop output: every byte has bit 7 set, and the final
    trailer is a byte. *)
Lemma str_loop_shape (p : bytes) (shift trailer : Z) :
  0 <= trailer < 256 ->
  Forall (fun b => high_bit b = true /\ 0 <= b < 256) (fst (fst (str_loop p shift trailer))) /\
  0 <= snd (str_loop p shift trailer) < 256.
Proof.
  revert shift trailer. induction p as [|o p IH]; intros shift trailer Ht.
  - split; [constructor | assumption].
  - cbn [str_loop]. destruct (shift <? 7).
    + destruct (IH (shift + 1) (u8 (Z.shiftl o (7 - shift))) (u8_range _)) as [H1 H2].
      destruct (str_loop p (shift + 1) (u8 (Z.shiftl o (7 - shift)))) as [[out s] t].
      cbn [fst snd] in *. split; [|assumption].
      constructor; [|assumption]. split; [apply high_bit_lor | apply u8_range].
    + destruct (IH 1 0 ltac:(lia)) as [H1 H2].
      destruct (str_loop p 1 0) as [[out s] t].
      cbn [fst snd] in *. split; [|assumption].
      constructor; [split; [apply high_bit_lor | apply u8_range]|].
      constructor; [|assumption]. split; [|apply u8_range].
      change (Z.lor 128 o) with (Z.lor (Z.lor 128 0) o). apply high_bit_lor.
Qed.

Lemma str_stream_shape (p : bytes) :
  exists body,
    str_stream p = body ++ [0] /\
    Forall (fun b => b <> 0 /\ 0 <= b < 256) body /\
    Forall (fun b => high_bit b = true) (removelast body).
Proof.
  unfold str_stream.
  destruct (str_loop_shape p 1 0 ltac:(lia)) as [Hout Ht].
  destruct (str_loop p 1 0) as [[out s] t]. cbn [fst snd] in *.
  assert (Hnz : Forall (fun b => b <> 0 /\ 0 <= b < 256) out).
  { eapply Forall_impl; [|exact Hout]. intros b [Hb Hr]. split; [|assumption].
    apply high_bit_nonzero. assumption. }
  assert (Hhi : Forall (fun b => high_bit b = true) out).
  { eapply Forall_impl; [|exact Hout]. intros b [Hb _]. assumption. }
  unfold str_tail. destruct (s >? 1).
  - destruct (Z.eqb_spec t 0) as [->|Hne]; cbn [negb].
    + exists out. split; [reflexivity|]. split; [assumption|].
      destruct out as [|x out] using rev_ind; [constructor|].
      rewrite removelast_last. apply Forall_app in Hhi. apply Hhi.
    + exists (out ++ [t]). split; [rewrite <- app_assoc; reflexivity|]. split.
      * apply Forall_app. split; [assumption|]. constructor; [|constructor]. auto.
      * rewrite removelast_last. assumption.
  - exists out. split; [reflexivity|]. split; [assumption|].
    destruct out as [|x out] using rev_ind; [constructor|].
    rewrite removelast_last. apply Forall_app in Hhi. apply Hhi.
Qed.

(** C4, as the code has it.  Blob stream termination: the bytes
    [write_str] emits after the tag are a body followed by one 0x00 byte;
    no byte of the body is zero, so the stream holds exactly one zero byte,
    its last; and every byte of the body but its last has bit 7 set.  (The
    last byte of the body is the raw trailer, which can have bit 7 clear.) *)
Theorem blob_stream_termination (w : writer) (b : bytes) (kind : Z) :
  writer_ok w = true ->
  exists w' body,
    write_str w b kind = Ok w' /\
    written w' = written w ++ tag kind ++ body ++ [0] /\
    Forall (fun x => x <> 0 /\ 0 <= x < 256) body /\
    Forall (fun x => high_bit x = true) (removelast body).
Proof.
  intros Hw. apply writer_ok_room in Hw.
  destruct (write_str_ok w b kind Hw) as (w' & Hw' & _ & He).
  destruct (str_stream_shape b) as (body & Hs & Hnz & Hhi).
  exists w', body. rewrite Hs in He. auto.
Qed.

(** ** The reader *)

Lemma peek_at (pre rest : bytes) (b : Z) : peek (pre ++ b :: rest) (len pre) = Some b.
Proof.
  unfold peek, len. destruct (Z.ltb_spec (Z.of_nat (length pre)) 0); [lia|].
  rewrite Nat2Z.id, nth_error_app2 by lia. rewrite Nat.sub_diag. reflexivity.
Qed.

Lemma reader_at_advance (rdr : reader) (pre rest : bytes) (b : Z) :
  reader_at rdr pre (b :: rest) -> reader_at (reader_advance rdr 1) (pre ++ [b]) rest.
Proof.
  intros (Hp & Hs & Hpos). unfold reader_at, reader_advance. cbn [r_p r_size r_pos].
  rewrite <- app_assoc. cbn [app]. repeat split; try assumption.
  rewrite Hpos, len_app. reflexivity.
Qed.

Lemma reader_getc_at (rdr : reader) (pre rest : bytes) (b : Z) :
  reader_at rdr pre (b :: rest) ->
  reader_getc rdr = Some (b, reader_advance rdr 1) /\
  reader_at (reader_advance rdr 1) (pre ++ [b]) rest.
Proof.
  intros Hat. split; [|apply reader_at_advance; assumption].
  destruct Hat as (Hp & Hs & Hpos). unfold reader_getc.
  rewrite Hs, Hpos, Hp, len_app, len_cons, peek_at.
  pose proof (len_nonneg rest).
  destruct (Z.ltb_spec (len pre) (len pre + (1 + len rest))); [reflexivity | lia].
Qed.

Lemma reader_getc_end (rdr : reader) (pre : bytes) :
  reader_at rdr pre [] -> reader_getc rdr = None.
Proof.
  intros (Hp & Hs & Hpos). unfold reader_getc.
  rewrite Hs, Hpos, app_nil_r, Z.ltb_irrefl. reflexivity.
Qed.

Lemma reader_getchar_at (rdr : reader) (pre rest : bytes) (b : Z) :
  reader_at rdr pre (b :: rest) ->
  reader_getchar rdr = Ok (b, reader_advance rdr 1) /\
  reader_at (reader_advance rdr 1) (pre ++ [b]) rest.
Proof.
  intros Hat. split; [|apply reader_at_advance; assumption].
  destruct Hat as (Hp & Hs & Hpos). unfold reader_getchar.
  rewrite Hpos, Hp, peek_at. reflexivity.
Qed.

Lemma reader_ensure_at (rdr : reader) (pre rest : bytes) (n : Z) :
  reader_at rdr pre rest -> n <= len rest -> reader_ensure rdr n = Ok tt.
Proof.
  intros (Hp & Hs & Hpos) Hn. unfold reader_ensure.
  rewrite Hs, Hpos, len_app.
  destruct (Z.ltb_spec (len pre + len rest - len pre) n); [lia | reflexivity].
Qed.

Lemma reader_at_remaining (rdr : reader) (pre rest : bytes) :
  reader_at rdr pre rest -> r_size rdr - r_pos rdr = len rest.
Proof. intros (Hp & Hs & Hpos). rewrite Hs, Hpos, len_app. lia. Qed.

Lemma reader_at_init (pre rest : bytes) :
  reader_at (reader_advance (reader_init (pre ++ rest) (len (pre ++ rest))) (len pre)) pre rest.
Proof. unfold reader_at. cbn. auto. Qed.

Lemma reader_at_start (s : bytes) : reader_at (reader_init s (len s)) [] s.
Proof. unfold reader_at, reader_init. cbn. auto. Qed.

(** ** Decoding a varint *)

Lemma lor_disjoint (hi lo m : Z) :
  0 <= m -> hi mod 2 ^ m = 0 -> 0 <= lo < 2 ^ m -> Z.lor hi lo = hi + lo.
Proof.
  intros Hm Hhi Hlo.
  assert (Hland : Z.land hi lo = 0).
  { apply Z.bits_inj'. intros i Hi. rewrite Z.land_spec, Z.bits_0.
    destruct (Z.ltb_spec i m).
    - replace (Z.testbit hi i) with false; [reflexivity|].
      symmetry. rewrite <- (Z.mod_pow2_bits_low hi m i) by lia. rewrite Hhi. apply Z.bits_0.
    - replace (Z.testbit lo i) with false; [apply andb_false_r|].
      symmetry. destruct (Z.eq_dec lo 0) as [->|]; [apply Z.bits_0|].
      apply Z.bits_above_log2; [lia|].
      apply Z.lt_le_trans with m; [|assumption].
      apply Z.log2_lt_pow2; lia. }
  rewrite <- Z.lxor_lor by assumption. symmetry. apply Z.add_nocarry_lxor. assumption.
Qed.

Ltac lor_to_add :=
  repeat match goal with
  | |- context [Z.lor ?a ?b] =>
      lazymatch a with
      | context [Z.lor _ _] => fail
      | _ => first [ rewrite (lor_disjoint a b 8) by dlia
                   | rewrite (lor_disjoint a b 16) by dlia
                   | rewrite (lor_disjoint a b 24) by dlia
                   | rewrite (lor_disjoint a b 32) by dlia
                   | rewrite (lor_disjoint a b 40) by dlia
                   | rewrite (lor_disjoint a b 48) by dlia
                   | rewrite (lor_disjoint a b 56) by dlia ]
      end
  end.

(** The arithmetic of the decoder undoes the arithmetic of the encoder. *)
Ltac bytes_arith :=
  unfold u8, u64;
  rewrite ?land_255;
  rewrite ?Z.shiftr_div_pow2 by lia; rewrite ?Z.shiftl_mul_pow2 by lia;
  norm_pow;
  rewrite ?(Z.mod_small (_ * _) 18446744073709551616) by dlia;
  lor_to_add; dlia.

Ltac cmp_arith :=
  unfold u8; rewrite ?land_255; rewrite ?Z.shiftr_div_pow2 by lia; dlia.

Ltac decide_ifs :=
  repeat match goal with
  | |- context [if ?a <=? ?b then _ else _] =>
      first [ replace (a <=? b) with true by (symmetry; apply Z.leb_le; cmp_arith)
            | replace (a <=? b) with false by (symmetry; apply Z.leb_gt; cmp_arith) ]
  | |- context [if ?a =? ?b then _ else _] =>
      first [ replace (a =? b) with true by (symmetry; apply Z.eqb_eq; cmp_arith)
            | replace (a =? b) with false by (symmetry; apply Z.eqb_neq; cmp_arith) ]
  end.

Ltac getchar_steps :=
  repeat match goal with
  | Hat : reader_at ?r ?pre (?c :: ?rest) |- context [reader_getchar ?r] =>
      let He := fresh "He" in
      let Hat' := fresh "Hat" in
      destruct (reader_getchar_at r pre rest c Hat) as [He Hat'];
      rewrite He; cbn [bind]; clear He Hat
  end.

Lemma read_plain_int_varint (rdr : reader) (pre rest : bytes) (v : Z) :
  reader_at rdr pre (varint v ++ rest) -> 0 <= v < 2 ^ 64 ->
  exists rdr',
    read_plain_int rdr = Ok (if v <=? 240 then uninit (r_pos rdr) else v, rdr') /\
    reader_at rdr' (pre ++ varint v) rest.
Proof.
  clear utf8_valid timegm host_utcoffset.
  intros Hat Hv. unfold read_plain_int. revert Hat. unfold varint.
  pose proof (len_nonneg rest) as Hrest.
  repeat match goal with
  | |- context [if ?a <=? ?b then _ else _] => destruct (Z.leb_spec a b)
  end; cbn [app]; intros Hat;
  (destruct (reader_getc_at _ _ _ _ Hat) as [Hg Hat1]; rewrite Hg; clear Hg Hat);
  decide_ifs; cbv beta iota zeta;
  try match goal with
      | Hat' : reader_at ?r ?pre' ?rest' |- context [reader_ensure ?r ?n] =>
          rewrite (reader_ensure_at r pre' rest' n Hat') by (rewrite ?len_cons; lia);
          cbn [bind]
      end;
  getchar_steps;
  (eexists; split;
   [ try reflexivity; do 2 f_equal; bytes_arith
   | rewrite <- ?app_assoc in *; cbn [app] in *; eassumption ]).
Qed.

(** ** Decoding the bit-interleaved stream *)

Lemma testbit_u8 (x i : Z) : Z.testbit (u8 x) i = (i <? 8) && Z.testbit x i.
Proof.
  unfold u8. change 256 with (2 ^ 8).
  destruct (Z.ltb_spec i 8).
  - destruct (Z.ltb_spec i 0); [rewrite !Z.testbit_neg_r by lia; reflexivity|].
    rewrite Z.mod_pow2_bits_low by lia. reflexivity.
  - rewrite Z.mod_pow2_bits_high by lia. reflexivity.
Qed.

Lemma testbit_byte_high (o i : Z) : 0 <= o < 256 -> 8 <= i -> Z.testbit o i = false.
Proof.
  intros Ho Hi. destruct (Z.eq_dec o 0) as [->|]; [apply Z.bits_0|].
  apply Z.bits_above_log2; [lia|].
  apply Z.lt_le_trans with 8; [|assumption]. apply Z.log2_lt_pow2; lia.
Qed.

Lemma testbit_low_zero (t n j : Z) : t mod 2 ^ n = 0 -> 0 <= j < n -> Z.testbit t j = false.
Proof.
  intros Ht Hj. rewrite <- (Z.mod_pow2_bits_low t n j) by lia. rewrite Ht. apply Z.bits_0.
Qed.

Lemma testbit_128 (j : Z) : Z.testbit 128 j = (j =? 7).
Proof.
  change 128 with (2 ^ 7). rewrite Z.pow2_bits_eqb by lia. apply Z.eqb_sym.
Qed.

(** One round of [read_str]: the byte [o] is put together again from the
    byte that carries its high bits and the byte [cb] that carries its [s]
    low bits. *)
Lemma decode_byte (s o t cb : Z) :
  1 <= s <= 7 -> 0 <= o < 256 -> t mod 2 ^ (8 - s) = 0 ->
  (forall i, 0 <= i < s -> Z.testbit cb (i + (7 - s)) = Z.testbit o i) ->
  u8 (Z.lor (u8 (Z.shiftl (u8 (Z.lor (Z.lor 128 t) (Z.shiftr o s))) s))
            (Z.shiftr (Z.land cb 127) (7 - s))) = o.
Proof.
  intros Hs Ho Ht Hcb. apply Z.bits_inj'. intros i Hi.
  rewrite testbit_u8, Z.lor_spec, testbit_u8.
  destruct (Z.ltb_spec i 8) as [Hi8|Hi8]; cbn [andb];
    [|symmetry; apply testbit_byte_high; assumption].
  rewrite Z.shiftr_spec, Z.land_spec by lia.
  change 127 with (Z.ones 7).
  destruct (Z.ltb_spec i s) as [His|His].
  - rewrite Z.shiftl_spec_low by lia. cbn [orb].
    rewrite Z.ones_spec_low by lia. rewrite andb_true_r. apply Hcb. lia.
  - rewrite Z.ones_spec_high by lia. rewrite andb_false_r, orb_false_r.
    rewrite Z.shiftl_spec by lia. rewrite testbit_u8, !Z.lor_spec, Z.shiftr_spec by lia.
    rewrite testbit_128.
    rewrite (testbit_low_zero t (8 - s)) by (assumption || lia).
    destruct (Z.ltb_spec (i - s) 8); [|lia].
    destruct (Z.eqb_spec (i - s) 7); [lia|].
    cbn [orb andb]. f_equal. lia.
Qed.

(** The three bytes that can follow: the raw trailer, the next
    interleaved byte, and the full byte that ends a group of seven. *)
Lemma carries_trailer (s o i : Z) :
  1 <= s <= 6 -> 0 <= i < s ->
  Z.testbit (u8 (Z.shiftl o (7 - s))) (i + (7 - s)) = Z.testbit o i.
Proof.
  intros Hs Hi. rewrite testbit_u8, Z.shiftl_spec by lia.
  destruct (Z.ltb_spec (i + (7 - s)) 8); [|lia]. cbn [andb]. f_equal. lia.
Qed.

Lemma carries_next (s o o' i : Z) :
  1 <= s <= 6 -> 0 <= o' < 256 -> 0 <= i < s ->
  Z.testbit (u8 (Z.lor (Z.lor 128 (u8 (Z.shiftl o (7 - s)))) (Z.shiftr o' (s + 1))))
            (i + (7 - s)) = Z.testbit o i.
Proof.
  intros Hs Ho' Hi. rewrite testbit_u8, !Z.lor_spec, testbit_128, Z.shiftr_spec by lia.
  rewrite carries_trailer by lia.
  destruct (Z.ltb_spec (i + (7 - s)) 8); [|lia].
  destruct (Z.eqb_spec (i + (7 - s)) 7); [lia|].
  rewrite (testbit_byte_high o') by lia. cbn [orb andb]. apply orb_false_r.
Qed.

Lemma carries_full (o i : Z) :
  0 <= i < 7 -> Z.testbit (u8 (Z.lor 128 o)) (i + (7 - 7)) = Z.testbit o i.
Proof.
  intros Hi. rewrite testbit_u8, Z.lor_spec, testbit_128.
  replace (i + (7 - 7)) with i by lia.
  destruct (Z.ltb_spec i 8); [|lia].
  destruct (Z.eqb_spec i 7); [lia|]. reflexivity.
Qed.

Lemma trailer_low_zero (s o : Z) :
  1 <= s <= 6 -> u8 (Z.shiftl o (7 - s)) mod 2 ^ (8 - (s + 1)) = 0.
Proof.
  intros Hs. apply Z.bits_inj'. intros i Hi. rewrite Z.bits_0.
  destruct (Z.ltb_spec i (8 - (s + 1))).
  - rewrite Z.mod_pow2_bits_low by lia. rewrite testbit_u8.
    rewrite Z.shiftl_spec_low by lia. apply andb_false_r.
  - rewrite Z.mod_pow2_bits_high by lia. reflexivity.
Qed.

Lemma interleaved_nonzero (t x : Z) : (u8 (Z.lor (Z.lor 128 t) x) =? 0) = false.
Proof. apply Z.eqb_neq, high_bit_nonzero, high_bit_lor. Qed.

Lemma str_loop_cons (o : Z) (p : bytes) (s t : Z) :
  str_loop (o :: p) s t =
  if s <? 7 then
    let '(out, s', t') := str_loop p (s + 1) (u8 (Z.shiftl o (7 - s))) in
    (u8 (Z.lor (Z.lor 128 t) (Z.shiftr o s)) :: out, s', t')
  else
    let '(out, s', t') := str_loop p 1 0 in
    (u8 (Z.lor (Z.lor 128 t) (Z.shiftr o s)) :: u8 (Z.lor 128 o) :: out, s', t').
Proof. reflexivity. Qed.

Lemma str_rest_cons (o o' : Z) (p : bytes) (s : Z) :
  str_rest o (o' :: p) s =
  if s <? 7 then
    u8 (Z.lor (Z.lor 128 (u8 (Z.shiftl o (7 - s)))) (Z.shiftr o' (s + 1))) ::
    str_rest o' p (s + 1)
  else
    u8 (Z.lor 128 o) :: u8 (Z.lor (Z.lor 128 0) (Z.shiftr o' 1)) :: str_rest o' p 1.
Proof. reflexivity. Qed.

Lemma str_loop_rest (p : bytes) (o s t : Z) :
  fst (fst (str_loop (o :: p) s t)) ++
    str_tail (snd (fst (str_loop (o :: p) s t))) (snd (str_loop (o :: p) s t)) =
  u8 (Z.lor (Z.lor 128 t) (Z.shiftr o s)) :: str_rest o p s.
Proof.
  revert o s t. induction p as [|o' p IH]; intros o s t.
  - cbn [str_loop str_rest]. destruct (s <? 7); reflexivity.
  - rewrite str_loop_cons, str_rest_cons. destruct (s <? 7).
    + specialize (IH o' (s + 1) (u8 (Z.shiftl o (7 - s)))).
      destruct (str_loop (o' :: p) (s + 1) (u8 (Z.shiftl o (7 - s)))) as [[out sf] tf].
      cbn [fst snd app] in *. rewrite IH. reflexivity.
    + specialize (IH o' 1 0).
      destruct (str_loop (o' :: p) 1 0) as [[out sf] tf].
      cbn [fst snd app] in *. rewrite IH. reflexivity.
Qed.

Lemma str_stream_rest (o : Z) (p : bytes) :
  str_stream (o :: p) = u8 (Z.lor (Z.lor 128 0) (Z.shiftr o 1)) :: str_rest o p 1.
Proof.
  unfold str_stream. rewrite <- str_loop_rest.
  destruct (str_loop (o :: p) 1 0) as [[out s] t]. reflexivity.
Qed.

Lemma read_str_loop_unfold (fuel : nat) (rdr : reader) (wtr : writer) (lb shift : Z) :
  read_str_loop fuel rdr wtr lb shift =
  match reader_getc rdr with
  | None => Ok (wtr, rdr)
  | Some (cb, rdr) =>
      if cb =? 0 then Ok (wtr, rdr)
      else
        match fuel with
        | O => Raise Diverges
        | S fuel' =>
            wtr <- writer_putc wtr
                     (u8 (Z.lor (u8 (Z.shiftl lb shift))
                                (Z.shiftr (Z.land cb 127) (7 - shift)))) ;;
            if shift <? 7 then read_str_loop fuel' rdr wtr cb (shift + 1)
            else
              match reader_getc rdr with
              | None => Ok (wtr, rdr)
              | Some (lb', rdr) =>
                  if lb' =? 0 then Ok (wtr, rdr)
                  else read_str_loop fuel' rdr wtr lb' 1
              end
        end
  end.
Proof. destruct fuel; reflexivity. Qed.

Lemma is_bytes_cons (o : Z) (p : bytes) :
  is_bytes (o :: p) = true <-> 0 <= o < 256 /\ is_bytes p = true.
Proof.
  unfold is_bytes. cbn [forallb]. rewrite andb_true_iff, is_byte_range. reflexivity.
Qed.

Lemma read_str_loop_rest (p : bytes) :
  forall (o s t : Z) (fuel : nat) (rdr : reader) (wtr : writer) (pre post : bytes),
  1 <= s <= 7 -> 0 <= o < 256 -> is_bytes p = true -> t mod 2 ^ (8 - s) = 0 ->
  room wtr 0 ->
  reader_at rdr pre (str_rest o p s ++ post) ->
  len (str_rest o p s) <= Z.of_nat fuel ->
  exists wtr' rdr',
    read_str_loop fuel rdr wtr (u8 (Z.lor (Z.lor 128 t) (Z.shiftr o s))) s = Ok (wtr', rdr') /\
    extends wtr wtr' (str_kept o p s) /\
    reader_at rdr' (pre ++ str_rest o p s) post.
Proof.
  induction p as [|o' p IH]; intros o s t fuel rdr wtr pre post Hs Ho Hp Ht Hr Hat Hfuel.
  - (* the last byte of the input *)
    rewrite read_str_loop_unfold. cbn [str_rest str_kept] in *.
    destruct (Z.ltb_spec s 7) as [Hlt|Hge].
    + unfold str_tail in *.
      destruct (Z.gtb_spec (s + 1) 1) as [_|]; [|lia].
      destruct (Z.eqb_spec (u8 (Z.shiftl o (7 - s))) 0) as [Hz|Hnz]; cbn [negb app] in *.
      * destruct (reader_getc_at _ _ _ _ Hat) as [-> Hat1].
        destruct (Z.eqb_spec (u8 (Z.shiftl o (7 - s))) 0) as [_|]; [|contradiction].
        exists wtr, (reader_advance rdr 1). split; [reflexivity|].
        split; [apply extends_refl; assumption | assumption].
      * destruct (reader_getc_at _ _ _ _ Hat) as [-> Hat1].
        destruct (Z.eqb_spec (u8 (Z.shiftl o (7 - s))) 0) as [|_]; [contradiction|].
        destruct fuel as [|fuel]; [rewrite !len_cons in Hfuel; pose proof (len_nonneg post); cbn in Hfuel; lia|].
        rewrite decode_byte; [|lia|assumption|assumption|intros; apply carries_trailer; lia].
        destruct (writer_putc_ok wtr o Hr) as (wtr1 & -> & He1). cbn [bind].
        rewrite read_str_loop_unfold.
        destruct (reader_getc_at _ _ _ _ Hat1) as [-> Hat2]. cbn [Z.eqb].
        exists wtr1, (reader_advance (reader_advance rdr 1) 1). split; [reflexivity|].
        split; [assumption|]. rewrite <- app_assoc in Hat2. exact Hat2.
    + assert (s = 7) by lia. subst s. cbn [app] in *.
      destruct (reader_getc_at _ _ _ _ Hat) as [-> Hat1].
      change (Z.lor 128 o) with (Z.lor (Z.lor 128 0) o) at 1. rewrite interleaved_nonzero.
      destruct fuel as [|fuel]; [rewrite !len_cons in Hfuel; cbn in Hfuel; lia|].
      rewrite decode_byte; [|lia|assumption|assumption|intros; apply carries_full; lia].
      destruct (writer_putc_ok wtr o Hr) as (wtr1 & -> & He1). cbn [bind].
      cbn [Z.ltb Z.compare Pos.compare Pos.compare_cont].
      unfold str_tail in Hat1. cbn [Z.gtb Z.compare] in Hat1.
      destruct (reader_getc_at _ _ _ _ Hat1) as [-> Hat2]. cbn [Z.eqb].
      exists wtr1, (reader_advance (reader_advance rdr 1) 1). split; [reflexivity|].
      split; [assumption|]. rewrite <- app_assoc in Hat2. exact Hat2.
  - (* a byte followed by more input *)
    apply is_bytes_cons in Hp. destruct Hp as [Ho' Hp].
    rewrite read_str_loop_unfold. rewrite str_rest_cons in *.
    cbn [str_kept].
    destruct (Z.ltb_spec s 7) as [Hlt|Hge]; cbn [app] in *.
    + destruct (reader_getc_at _ _ _ _ Hat) as [-> Hat1].
      rewrite interleaved_nonzero.
      destruct fuel as [|fuel]; [rewrite !len_cons in Hfuel; pose proof (len_nonneg (str_rest o' p (s + 1))); lia|].
      rewrite decode_byte; [|lia|assumption|assumption|intros; apply carries_next; lia].
      destruct (writer_putc_ok wtr o Hr) as (wtr1 & -> & He1). cbn [bind].
      destruct (Z.ltb_spec s 7) as [_|]; [|lia].
      destruct (IH o' (s + 1) (u8 (Z.shiftl o (7 - s))) fuel (reader_advance rdr 1) wtr1
                  (pre ++ [u8 (Z.lor (Z.lor 128 (u8 (Z.shiftl o (7 - s)))) (Z.shiftr o' (s + 1)))])
                  post)
        as (wtr' & rdr' & Hrun & He & Hat');
        [lia | assumption | assumption | apply trailer_low_zero; lia | apply He1
        | assumption | rewrite len_cons in Hfuel; lia |].
      exists wtr', rdr'. split; [exact Hrun|]. split.
      * apply (extends_trans _ _ _ _ _ He1 He).
      * rewrite <- app_assoc in Hat'. exact Hat'.
    + assert (s = 7) by lia. subst s.
      destruct (reader_getc_at _ _ _ _ Hat) as [-> Hat1].
      change (Z.lor 128 o) with (Z.lor (Z.lor 128 0) o) at 1. rewrite interleaved_nonzero.
      destruct fuel as [|fuel]; [rewrite !len_cons in Hfuel; pose proof (len_nonneg (str_rest o' p 1)); lia|].
      rewrite decode_byte; [|lia|assumption|assumption|intros; apply carries_full; lia].
      destruct (writer_putc_ok wtr o Hr) as (wtr1 & -> & He1). cbn [bind].
      cbn [Z.ltb Z.compare Pos.compare Pos.compare_cont].
      destruct (reader_getc_at _ _ _ _ Hat1) as [-> Hat2].
      rewrite interleaved_nonzero.
      destruct (IH o' 1 0 fuel (reader_advance (reader_advance rdr 1) 1) wtr1
                  ((pre ++ [u8 (Z.lor 128 o)]) ++ [u8 (Z.lor (Z.lor 128 0) (Z.shiftr o' 1))])
                  post)
        as (wtr' & rdr' & Hrun & He & Hat');
        [lia | assumption | assumption | reflexivity | apply He1
        | assumption | rewrite !len_cons in Hfuel; lia |].
      exists wtr', rdr'. split; [exact Hrun|]. split.
      * apply (extends_trans _ _ _ _ _ He1 He).
      * rewrite <- !app_assoc in Hat'. exact Hat'.
Qed.

Lemma str_rest_nonempty (o : Z) (p : bytes) (s : Z) : 1 <= len (str_rest o p s).
Proof.
  destruct p as [|o' p]; cbn [str_rest]; destruct (s <? 7);
    rewrite ?len_cons; try (pose proof (len_nonneg (str_rest o' p (s + 1))); lia);
    try (pose proof (len_nonneg (str_rest o' p 1)); lia).
  - unfold str_tail. destruct (s + 1 >? 1); [destruct (negb _)|]; cbn; lia.
  - pose proof (len_nonneg (str_tail 1 0)). lia.
Qed.

Lemma read_str_stream (p : bytes) (rdr : reader) (pre post : bytes) :
  is_bytes p = true ->
  reader_at rdr pre (str_stream p ++ post) ->
  exists rdr',
    read_str rdr = Ok (str_decoded p, rdr') /\
    reader_at rdr' (pre ++ str_stream p) post.
Proof.
  intros Hp Hat. unfold read_str.
  destruct (writer_init_ok 20 ltac:(lia)) as (wtr & -> & Hr & Hw). cbn [bind].
  destruct p as [|o p].
  - change (str_stream []) with [0] in *. cbn [app] in Hat.
    destruct (reader_getc_at _ _ _ _ Hat) as [-> Hat1]. cbn [Z.eqb].
    rewrite (writer_fini_ok wtr Hr), Hw. cbn [bind].
    exists (reader_advance rdr 1). split; [reflexivity | assumption].
  - rewrite str_stream_rest in *. cbn [app] in Hat.
    apply is_bytes_cons in Hp. destruct Hp as [Ho Hp].
    destruct (reader_getc_at _ _ _ _ Hat) as [-> Hat1].
    rewrite interleaved_nonzero.
    destruct (read_str_loop_rest p o 1 0
                (Z.to_nat (r_size (reader_advance rdr 1) - r_pos (reader_advance rdr 1)))
                (reader_advance rdr 1) wtr
                (pre ++ [u8 (Z.lor (Z.lor 128 0) (Z.shiftr o 1))]) post)
      as (wtr' & rdr' & -> & (Hr' & Hw') & Hat');
      [lia | assumption | assumption | reflexivity | assumption | assumption | |].
    + rewrite (reader_at_remaining _ _ _ Hat1), len_app.
      pose proof (len_nonneg post). pose proof (len_nonneg (str_rest o p 1)). lia.
    + cbn [bind]. rewrite (writer_fini_ok wtr' Hr'), Hw', Hw. cbn [bind app str_decoded].
      exists rdr'. split; [reflexivity|]. rewrite <- app_assoc in Hat'. exact Hat'.
Qed.

Lemma str_kept_keeps (p : bytes) :
  forall o s t, 1 <= s <= 7 ->
  (snd (fst (str_loop (o :: p) s t)) =? 1) || negb (snd (str_loop (o :: p) s t) =? 0) = true ->
  str_kept o p s = o :: p.
Proof.
  induction p as [|o' p IH]; intros o s t Hs H.
  - cbn [str_loop str_kept] in *. destruct (Z.ltb_spec s 7); [|reflexivity].
    cbn [fst snd] in H. destruct (Z.eqb_spec (s + 1) 1); [lia|]. cbn [orb] in H.
    destruct (u8 (Z.shiftl o (7 - s)) =? 0); [discriminate | reflexivity].
  - rewrite str_loop_cons in H. cbn [str_kept]. destruct (Z.ltb_spec s 7).
    + f_equal. apply (IH o' (s + 1) (u8 (Z.shiftl o (7 - s)))); [lia|].
      destruct (str_loop (o' :: p) (s + 1) (u8 (Z.shiftl o (7 - s)))) as [[out sf] tf].
      exact H.
    + f_equal. apply (IH o' 1 0); [lia|].
      destruct (str_loop (o' :: p) 1 0) as [[out sf] tf]. exact H.
Qed.

Lemma str_decoded_keeps (p : bytes) : keeps_last p = true -> str_decoded p = p.
Proof.
  intros H. destruct p as [|o p]; [reflexivity|]. cbn [str_decoded].
  apply (str_kept_keeps p o 1 0); [lia|]. unfold keeps_last in H.
  destruct (str_loop (o :: p) 1 0) as [[out sf] tf]. exact H.
Qed.

(** ** Plain elements *)

Lemma plain_integer_range (v : Z) :
  (- 2 ^ 63 <=? v) && (v <? 2 ^ 63) = true -> - 2 ^ 63 <= v < 2 ^ 63.
Proof. rewrite andb_true_iff, Z.leb_le, Z.ltb_lt. intros H. exact H. Qed.

Lemma c_encode_value_plain (w : writer) (arg : PyObject) :
  plain_element arg = true -> room w 0 ->
  exists w', c_encode_value w arg = Ok w' /\ extends w w' (value_bytes arg).
Proof.
  intros Hp Hr. destruct arg as [|v|b|b|b|v|dt|b|items|items];
    cbn [plain_element value_bytes] in *; try discriminate.
  - cbn [c_encode_value]. apply writer_putc_ok. assumption.
  - apply (c_encode_value_integer w false v Hr). apply plain_integer_range. assumption.
  - cbn [c_encode_value].
    destruct (write_str_ok w b (KIND_BLOB K) Hr) as (w' & Hw & He).
    destruct (tag_kind (KIND_BLOB K) ltac:(kind_in)) as [Ht _]. rewrite Ht in He. eauto.
  - cbn [c_encode_value].
    destruct (write_str_ok w b (KIND_TEXT K) Hr) as (w' & Hw & He).
    destruct (tag_kind (KIND_TEXT K) ltac:(kind_in)) as [Ht _]. rewrite Ht in He. eauto.
  - cbn [c_encode_value].
    destruct (writer_putc_ok w (u8 (KIND_BOOL K)) Hr) as (w1 & -> & He1). cbn [bind].
    destruct (writer_putc_ok w1 (u8 (if b then 1 else 0)) ltac:(apply He1)) as (w2 & -> & He2).
    exists w2. split; [reflexivity|]. apply (extends_trans _ _ _ _ _ He1 He2).
  - apply (c_encode_value_integer w true v Hr). apply plain_integer_range. assumption.
  - cbn [c_encode_value].
    destruct (write_str_ok w b (KIND_UUID K) Hr) as (w' & Hw & He).
    destruct (tag_kind (KIND_UUID K) ltac:(kind_in)) as [Ht _]. rewrite Ht in He. eauto.
Qed.

Lemma c_encode_key_plain (tup : list PyObject) (w : writer) :
  forallb plain_element tup = true -> room w 0 ->
  exists w', c_encode_key w tup = Ok w' /\ extends w w' (key_bytes tup).
Proof.
  revert w. induction tup as [|arg tup IH]; intros w Hp Hr.
  - exists w. split; [reflexivity | apply extends_refl; assumption].
  - cbn [forallb] in Hp. apply andb_true_iff in Hp. destruct Hp as [Ha Hp].
    cbn [c_encode_key key_bytes].
    destruct (c_encode_value_plain w arg Ha Hr) as (w1 & -> & He1). cbn [bind].
    destruct (IH w1 Hp ltac:(apply He1)) as (w2 & -> & He2).
    exists w2. split; [reflexivity|]. apply (extends_trans _ _ _ _ _ He1 He2).
Qed.

(** ** The kind tags are told apart *)

Lemma distinct_nth (l : list Z) :
  distinct l = true ->
  forall i j, (i < j < length l)%nat -> nth i l 0 <> nth j l 0.
Proof.
  induction l as [|x l IH]; intros Hd i j Hij; [cbn in Hij; lia|].
  cbn [distinct] in Hd. apply andb_true_iff in Hd. destruct Hd as [Hx Hd].
  destruct j as [|j]; [lia|]. destruct i as [|i]; cbn [nth].
  - intros Heq. apply negb_true_iff in Hx.
    assert (Hin : existsb (Z.eqb x) l = true).
    { apply existsb_exists. exists (nth j l 0). split.
      - apply nth_In. cbn [length] in Hij. lia.
      - apply Z.eqb_eq. assumption. }
    congruence.
  - apply IH; [assumption|]. cbn [length] in Hij. lia.
Qed.

Lemma kinds_distinct (i j : nat) :
  (i < j < 10)%nat -> nth i (kind_list K) 0 <> nth j (kind_list K) 0.
Proof.
  intros Hij. apply distinct_nth; [|exact Hij].
  pose proof kinds_wf as H. unfold kinds_ok in H. apply andb_true_iff in H. apply H.
Qed.

Ltac kind_index k :=
  lazymatch k with
  | KIND_NULL _ => constr:(0%nat)
  | KIND_NEG_INTEGER _ => constr:(1%nat)
  | KIND_INTEGER _ => constr:(2%nat)
  | KIND_BOOL _ => constr:(3%nat)
  | KIND_BLOB _ => constr:(4%nat)
  | KIND_TEXT _ => constr:(5%nat)
  | KIND_UUID _ => constr:(6%nat)
  | KIND_NEG_TIME _ => constr:(7%nat)
  | KIND_TIME _ => constr:(8%nat)
  | KIND_SEP _ => constr:(9%nat)
  end.

Ltac kind_neq :=
  lazymatch goal with
  | |- ?a <> ?b =>
      let i := kind_index a in
      let j := kind_index b in
      first [ exact (kinds_distinct i j ltac:(lia))
            | exact (not_eq_sym (kinds_distinct j i ltac:(lia))) ]
  end.

Ltac kind_cases :=
  repeat match goal with
  | |- context [?a =? ?a] => rewrite (Z.eqb_refl a)
  | |- context [?a =? ?b] =>
      replace (a =? b) with false by (symmetry; apply Z.eqb_neq; kind_neq)
  end; cbn [orb].

Lemma u8_kind (k : Z) : In k (kind_list K) -> u8 k = k.
Proof. intros H. apply (tag_kind k H). Qed.

Lemma unpack_switch_null (rdr : reader) :
  unpack_switch (KIND_NULL K) rdr = Ok (Some PyNone, rdr).
Proof. unfold unpack_switch. kind_cases. reflexivity. Qed.

Lemma unpack_switch_integer (rdr : reader) :
  unpack_switch (KIND_INTEGER K) rdr =
  ('(arg, rdr) <- read_int rdr false ;; Ok (Some arg, rdr)).
Proof. unfold unpack_switch. kind_cases. reflexivity. Qed.

Lemma unpack_switch_neg_integer (rdr : reader) :
  unpack_switch (KIND_NEG_INTEGER K) rdr =
  ('(arg, rdr) <- read_int rdr true ;; Ok (Some arg, rdr)).
Proof. unfold unpack_switch. kind_cases. reflexivity. Qed.

Lemma unpack_switch_bool (rdr : reader) :
  unpack_switch (KIND_BOOL K) rdr =
  ('(u, rdr) <- read_plain_int rdr ;; Ok (Some (PyBool (negb (u =? 0))), rdr)).
Proof. unfold unpack_switch. kind_cases. reflexivity. Qed.

Lemma unpack_switch_blob (rdr : reader) :
  unpack_switch (KIND_BLOB K) rdr =
  ('(s, rdr) <- read_str rdr ;; Ok (Some (PyString s), rdr)).
Proof. unfold unpack_switch. kind_cases. reflexivity. Qed.

Lemma unpack_switch_text (rdr : reader) :
  unpack_switch (KIND_TEXT K) rdr =
  ('(tmp, rdr) <- read_str rdr ;; arg <- PyUnicode_DecodeUTF8 tmp ;; Ok (Some arg, rdr)).
Proof. unfold unpack_switch. kind_cases. reflexivity. Qed.

Lemma unpack_switch_uuid (rdr : reader) :
  unpack_switch (KIND_UUID K) rdr =
  ('(tmp, rdr) <- read_str rdr ;; arg <- UUID_call tmp ;; Ok (Some arg, rdr)).
Proof. unfold unpack_switch. kind_cases. reflexivity. Qed.

Lemma unpack_switch_sep (rdr : reader) :
  unpack_switch (KIND_SEP K) rdr = Ok (None, rdr).
Proof. unfold unpack_switch. kind_cases. reflexivity. Qed.

Lemma unpack_switch_time (rdr : reader) (ch : Z) :
  ch = KIND_NEG_TIME K \/ ch = KIND_TIME K -> unpack_switch ch rdr = Raise Aborted.
Proof. intros [-> | ->]; unfold unpack_switch; kind_cases; reflexivity. Qed.

(** ** Decoding a plain element and a tuple of plain elements *)

Lemma reader_at_pos (rdr : reader) (pre rest : bytes) :
  reader_at rdr pre rest -> r_pos rdr = len pre.
Proof. intros (_ & _ & H). exact H. Qed.

Lemma reader_at_more (rdr : reader) (pre rest : bytes) (b : Z) :
  reader_at rdr pre (b :: rest) -> (r_pos rdr <? r_size rdr) = true.
Proof.
  intros (_ & Hs & Hp). rewrite Hs, Hp, len_app, len_cons.
  pose proof (len_nonneg rest). apply Z.ltb_lt. lia.
Qed.

Lemma u64_range (x : Z) : 0 <= u64 x < 2 ^ 64.
Proof. unfold u64. apply Z.mod_pos_bound. lia. Qed.

Lemma unpack_element_plain (arg : PyObject) (rdr : reader) (pre post : bytes) :
  plain_element arg = true ->
  reader_at rdr pre (value_bytes arg ++ post) ->
  exists ch rdr1 rdr',
    reader_getc rdr = Some (ch, rdr1) /\
    unpack_switch ch rdr1 = (x <- decode_of (len pre) arg ;; Ok (Some x, rdr')) /\
    reader_at rdr' (pre ++ value_bytes arg) post.
Proof.
  intros Hp Hat.
  assert (Hint : forall v, - 2 ^ 63 <= v < 2 ^ 63 ->
            reader_at rdr pre (int_bytes v ++ post) ->
            exists ch rdr1 rdr',
              reader_getc rdr = Some (ch, rdr1) /\
              unpack_switch ch rdr1 = Ok (Some (decoded_int (len pre) v), rdr') /\
              reader_at rdr' (pre ++ int_bytes v) post).
  { intros v Hv. unfold int_bytes, decoded_int. destruct (v <? 0).
    - rewrite u8_kind by kind_in. cbn [app]. intros Hat'.
      destruct (reader_getc_at _ _ _ _ Hat') as [Hg Hat1].
      destruct (read_plain_int_varint _ _ _ _ Hat1 (u64_range _)) as (rdr' & Hrd & Hat2).
      exists (KIND_NEG_INTEGER K), (reader_advance rdr 1), rdr'.
      split; [exact Hg|]. split.
      + rewrite unpack_switch_neg_integer. unfold read_int. rewrite Hrd. cbn [bind].
        rewrite (reader_at_pos _ _ _ Hat1), len_app. reflexivity.
      + rewrite <- app_assoc in Hat2. exact Hat2.
    - rewrite u8_kind by kind_in. cbn [app]. intros Hat'.
      destruct (reader_getc_at _ _ _ _ Hat') as [Hg Hat1].
      destruct (read_plain_int_varint _ _ _ _ Hat1 (u64_range _)) as (rdr' & Hrd & Hat2).
      exists (KIND_INTEGER K), (reader_advance rdr 1), rdr'.
      split; [exact Hg|]. split.
      + rewrite unpack_switch_integer. unfold read_int. rewrite Hrd. cbn [bind].
        rewrite (reader_at_pos _ _ _ Hat1), len_app. reflexivity.
      + rewrite <- app_assoc in Hat2. exact Hat2. }
  assert (Hstr : forall k b, In k (kind_list K) -> is_bytes b = true ->
            reader_at rdr pre ((u8 k :: str_stream b) ++ post) ->
            exists rdr1 rdr',
              reader_getc rdr = Some (k, rdr1) /\
              read_str rdr1 = Ok (str_decoded b, rdr') /\
              reader_at rdr' (pre ++ u8 k :: str_stream b) post).
  { intros k b Hk Hb. rewrite u8_kind by assumption. cbn [app]. intros Hat'.
    destruct (reader_getc_at _ _ _ _ Hat') as [Hg Hat1].
    destruct (read_str_stream b _ _ _ Hb Hat1) as (rdr' & Hrd & Hat2).
    exists (reader_advance rdr 1), rdr'. split; [exact Hg|]. split; [exact Hrd|].
    rewrite <- app_assoc in Hat2. exact Hat2. }
  destruct arg as [|v|b|b|b|v|dt|b|items|items];
    cbn [plain_element value_bytes decode_of] in *; try discriminate.
  - rewrite u8_kind in * by kind_in. cbn [app] in Hat.
    destruct (reader_getc_at _ _ _ _ Hat) as [Hg Hat1].
    exists (KIND_NULL K), (reader_advance rdr 1), (reader_advance rdr 1).
    split; [exact Hg|]. split; [apply unpack_switch_null | exact Hat1].
  - apply Hint; [apply plain_integer_range|]; assumption.
  - destruct (Hstr (KIND_BLOB K) b ltac:(kind_in) Hp Hat) as (rdr1 & rdr' & Hg & Hrd & Hat').
    exists (KIND_BLOB K), rdr1, rdr'. split; [exact Hg|]. split; [|exact Hat'].
    rewrite unpack_switch_blob, Hrd. reflexivity.
  - destruct (Hstr (KIND_TEXT K) b ltac:(kind_in) Hp Hat) as (rdr1 & rdr' & Hg & Hrd & Hat').
    exists (KIND_TEXT K), rdr1, rdr'. split; [exact Hg|]. split; [|exact Hat'].
    rewrite unpack_switch_text, Hrd. reflexivity.
  - rewrite (u8_kind (KIND_BOOL K)) in * by kind_in. cbn [app] in Hat.
    destruct (reader_getc_at _ _ _ _ Hat) as [Hg Hat1].
    assert (Hv : varint (if b then 1 else 0) = [u8 (if b then 1 else 0)])
      by (destruct b; reflexivity).
    assert (Hat1' : reader_at (reader_advance rdr 1) (pre ++ [KIND_BOOL K])
                      (varint (if b then 1 else 0) ++ post)) by (rewrite Hv; exact Hat1).
    destruct (read_plain_int_varint _ _ _ _ Hat1' ltac:(destruct b; lia)) as (rdr' & Hrd & Hat2).
    rewrite Hv in Hat2.
    exists (KIND_BOOL K), (reader_advance rdr 1), rdr'.
    split; [exact Hg|]. split.
    + rewrite unpack_switch_bool, Hrd. cbn [bind].
      rewrite (reader_at_pos _ _ _ Hat1), len_app.
      replace ((if b then 1 else 0) <=? 240) with true by (destruct b; reflexivity).
      reflexivity.
    + rewrite <- app_assoc in Hat2. exact Hat2.
  - apply Hint; [apply plain_integer_range|]; assumption.
  - destruct (Hstr (KIND_UUID K) b ltac:(kind_in) Hp Hat) as (rdr1 & rdr' & Hg & Hrd & Hat').
    exists (KIND_UUID K), rdr1, rdr'. split; [exact Hg|]. split; [|exact Hat'].
    rewrite unpack_switch_uuid, Hrd. reflexivity.
Qed.

Lemma unpack_loop_unfold (fuel : nat) (rdr : reader) (tup : list PyObject) :
  unpack_loop fuel rdr tup =
  if r_pos rdr <? r_size rdr then
    match fuel with
    | O => Raise Diverges
    | S fuel' =>
        match reader_getc rdr with
        | None => Ok (tup, rdr)
        | Some (ch, rdr) =>
            '(arg, rdr) <- unpack_switch ch rdr ;;
            match arg with
            | None => Ok (tup, rdr)
            | Some arg => unpack_loop fuel' rdr (tup ++ [arg])
            end
        end
    end
  else Ok (tup, rdr).
Proof. destruct fuel; reflexivity. Qed.

Lemma value_bytes_nonempty (arg : PyObject) :
  plain_element arg = true -> 1 <= len (value_bytes arg).
Proof.
  assert (Hc : forall x l, 1 <= len (x :: l))
    by (intros x l; rewrite len_cons; pose proof (len_nonneg l); lia).
  destruct arg; cbn [plain_element value_bytes]; try discriminate; intros _;
    unfold int_bytes; try (destruct (_ <? 0)); apply Hc.
Qed.

(** The tuple decoder on the encoding of a tuple of plain elements,
    followed by the end of the input or by a separator. *)
Lemma unpack_loop_key (tup : list PyObject) :
  forall (fuel : nat) (rdr : reader) (acc : list PyObject) (pre post : bytes),
  forallb plain_element tup = true ->
  reader_at rdr pre (key_bytes tup ++ post) ->
  post = [] \/ (exists post', post = KIND_SEP K :: post') ->
  len (key_bytes tup ++ post) <= Z.of_nat fuel ->
  exists rdr',
    unpack_loop fuel rdr acc =
      (xs <- decode_items (len pre) tup ;; Ok (acc ++ xs, rdr')) /\
    reader_at rdr' (pre ++ key_bytes tup ++ firstn 1 post) (skipn 1 post).
Proof.
  induction tup as [|arg tup IH]; intros fuel rdr acc pre post Hp Hat Hpost Hfuel.
  - cbn [key_bytes app decode_items bind] in *. rewrite app_nil_r.
    rewrite unpack_loop_unfold.
    destruct Hpost as [-> | (post' & ->)].
    + destruct Hat as (Hpp & Hs & Hpos).
      rewrite Hs, Hpos, app_nil_r, Z.ltb_irrefl.
      exists rdr. cbn [firstn skipn]. rewrite app_nil_r.
      split; [reflexivity|]. unfold reader_at. rewrite !app_nil_r in *. auto.
    + rewrite (reader_at_more _ _ _ _ Hat).
      destruct fuel as [|fuel]; [rewrite len_cons in Hfuel; pose proof (len_nonneg post'); lia|].
      destruct (reader_getc_at _ _ _ _ Hat) as [-> Hat1].
      rewrite unpack_switch_sep. cbn [bind].
      exists (reader_advance rdr 1). split; [reflexivity|]. exact Hat1.
  - cbn [forallb] in Hp. apply andb_true_iff in Hp. destruct Hp as [Ha Hp].
    cbn [key_bytes decode_items] in *. rewrite <- app_assoc in Hat.
    destruct (unpack_element_plain arg rdr pre _ Ha Hat) as (ch & rdr1 & rdr2 & Hg & Hsw & Hat2).
    pose proof (value_bytes_nonempty arg Ha) as Hne.
    rewrite <- app_assoc, len_app in Hfuel.
    pose proof (len_nonneg (key_bytes tup ++ post)) as Hrest.
    assert (Hmore : (r_pos rdr <? r_size rdr) = true).
    { destruct (value_bytes arg) as [|b0 l0]; [cbn in Hne; lia|].
      apply (reader_at_more _ _ _ _ Hat). }
    rewrite unpack_loop_unfold, Hmore.
    destruct fuel as [|fuel]; [lia|].
    rewrite Hg, Hsw.
    destruct (decode_of (len pre) arg) as [x|e]; cbn [bind].
    + destruct (IH fuel rdr2 (acc ++ [x]) (pre ++ value_bytes arg) post Hp Hat2 Hpost)
        as (rdr' & Hrun & Hat'); [lia|].
      exists rdr'. split; [|rewrite <- !app_assoc in *; exact Hat'].
      rewrite Hrun, len_app.
      destruct (decode_items (len pre + len (value_bytes arg)) tup) as [xs|e];
        [|reflexivity].
      cbn [bind]. rewrite <- app_assoc. reflexivity.
    + destruct (IH fuel rdr2 acc (pre ++ value_bytes arg) post Hp Hat2 Hpost)
        as (rdr' & _ & Hat'); [lia|].
      exists rdr'. split; [reflexivity|]. rewrite <- !app_assoc in *. exact Hat'.
Qed.

(** ** The prefix test *)

Lemma memcmp_zero (n : nat) :
  forall a b, (n <= length a)%nat -> (n <= length b)%nat ->
  (memcmp a b n = 0 <-> firstn n a = firstn n b).
Proof.
  induction n as [|n IH]; intros a b Ha Hb; [cbn; split; reflexivity|].
  destruct a as [|x a]; [cbn in Ha; lia|]. destruct b as [|y b]; [cbn in Hb; lia|].
  cbn [memcmp hd tl firstn length] in *.
  destruct (Z.ltb_spec x y); [split; [lia | intros H'; injection H'; lia]|].
  destruct (Z.ltb_spec y x); [split; [lia | intros H'; injection H'; lia]|].
  assert (x = y) by lia. subst y.
  rewrite (IH a b) by lia. split; [intros ->; reflexivity | intros H'; injection H'; auto].
Qed.

Lemma memcmp_prefix (prefix s : bytes) :
  len prefix <= len s ->
  (memcmp prefix s (Z.to_nat (len prefix)) = 0 <-> is_prefix prefix s).
Proof.
  unfold len, is_prefix. intros H. rewrite Nat2Z.id.
  rewrite memcmp_zero by lia. rewrite firstn_all. split; intros H'; congruence.
Qed.

Lemma unpack_no_match (p1 s : bytes) :
  ~ is_prefix p1 s ->
  (len p1 <= len s -> py_unpack p1 s = Ok PyNone /\ unpacks p1 s = Ok PyNone) /\
  (len s < len p1 -> py_unpack p1 s = Raise ValueError /\ unpacks p1 s = Raise ValueError).
Proof.
  intros Hnp. unfold py_unpack, unpacks. split; intros Hl.
  - destruct (Z.ltb_spec (len s) (len p1)); [lia|].
    destruct (Z.eqb_spec (memcmp p1 s (Z.to_nat (len p1))) 0) as [Hz|Hnz].
    + apply memcmp_prefix in Hz; [contradiction | assumption].
    + split; reflexivity.
  - destruct (Z.ltb_spec (len s) (len p1)); [|lia]. split; reflexivity.
Qed.

(** C5, as the code has it.  NoMatch: when [p1] is not a prefix of
    [pack(p2, v)], [unpack(p1, pack(p2, v))] and [unpacks] return the
    NoMatch value ([None]) provided the packed string is at least as long as
    [p1]; when it is shorter than [p1] both raise [ValueError]. *)
Theorem no_match_or_value_error (p1 p2 : bytes) (v : PyObject) (s : bytes) :
  packs [PyString p2; v] = Ok s ->
  ~ is_prefix p1 s ->
  (len p1 <= len s -> py_unpack p1 s = Ok PyNone /\ unpacks p1 s = Ok PyNone) /\
  (len s < len p1 -> py_unpack p1 s = Raise ValueError /\ unpacks p1 s = Raise ValueError).
Proof. intros _ Hnp. apply unpack_no_match. assumption. Qed.

(** ** Whatever [packs] returns starts with the prefix *)

Lemma ok_unique (A : Type) (c : res A) (x y : A) : c = Ok x -> c = Ok y -> x = y.
Proof. intros -> H. injection H. auto. Qed.

Lemma write_int_extends (w w' : writer) (v kind : Z) :
  room w 0 -> write_int w v kind = Ok w' -> exists e, extends w w' e.
Proof.
  intros Hr H. destruct (write_int_ok w v kind Hr) as (w'' & H' & He).
  rewrite (ok_unique _ _ _ _ H H'). eauto.
Qed.

Lemma write_str_extends (w w' : writer) (p : bytes) (kind : Z) :
  room w 0 -> write_str w p kind = Ok w' -> exists e, extends w w' e.
Proof.
  intros Hr H. destruct (write_str_ok w p kind Hr) as (w'' & H' & He).
  rewrite (ok_unique _ _ _ _ H H'). eauto.
Qed.

Lemma c_encode_value_extends (w w' : writer) (arg : PyObject) :
  room w 0 -> c_encode_value w arg = Ok w' -> exists e, extends w w' e.
Proof.
  intros Hr H. destruct arg as [|v|b|b|b|v|dt|b|items|items]; cbn [c_encode_value] in H.
  - exists [u8 (KIND_NULL K)]. apply (writer_putc_inv _ _ _ H Hr).
  - destruct (v <? 0); apply (write_int_extends _ _ _ _ Hr H).
  - apply (write_str_extends _ _ _ _ Hr H).
  - apply (write_str_extends _ _ _ _ Hr H).
  - destruct (writer_putc_ok w (u8 (KIND_BOOL K)) Hr) as (w1 & H1 & He1).
    rewrite H1 in H. cbn [bind] in H.
    eexists. eapply extends_trans; [exact He1|].
    apply (writer_putc_inv _ _ _ H). apply He1.
  - destruct ((v <? - 2 ^ 63) || (2 ^ 63 <=? v)); [discriminate|].
    destruct (v <? 0); apply (write_int_extends _ _ _ _ Hr H).
  - unfold write_time in H.
    destruct (get_utcoffset_secs dt =? -1).
    + injection H as <-. exists []. apply extends_refl. assumption.
    + destruct (negb _); [discriminate|].
      destruct (_ <? 0); apply (write_int_extends _ _ _ _ Hr H).
  - apply (write_str_extends _ _ _ _ Hr H).
  - discriminate.
  - discriminate.
Qed.

Lemma c_encode_key_extends (tup : list PyObject) (w w' : writer) :
  room w 0 -> c_encode_key w tup = Ok w' -> exists e, extends w w' e.
Proof.
  revert w. induction tup as [|arg tup IH]; intros w Hr H; cbn [c_encode_key] in H.
  - injection H as <-. exists []. apply extends_refl. assumption.
  - destruct (c_encode_value w arg) as [w1|] eqn:H1; [|discriminate]. cbn [bind] in H.
    destruct (c_encode_value_extends _ _ _ Hr H1) as (e1 & He1).
    destruct (IH w1 ltac:(apply He1) H) as (e2 & He2).
    eexists. eapply extends_trans; [exact He1 | exact He2].
Qed.

Lemma packs_loop_extends (tups : list PyObject) (w w' : writer) (i : Z) :
  room w 0 -> packs_loop w tups i = Ok w' -> exists e, extends w w' e.
Proof.
  revert w i. induction tups as [|elem tups IH]; intros w i Hr H; cbn [packs_loop] in H.
  - injection H as <-. exists []. apply extends_refl. assumption.
  - assert (Hsep : exists w1 e1,
              (if negb (i =? 0) then writer_putc w (u8 (KIND_SEP K)) else Ok w) = Ok w1 /\
              extends w w1 e1).
    { destruct (negb (i =? 0)).
      - destruct (writer_putc_ok w (u8 (KIND_SEP K)) Hr) as (w1 & H1 & He1). eauto.
      - exists w, []. split; [reflexivity | apply extends_refl; assumption]. }
    destruct Hsep as (w1 & e1 & H1 & He1). rewrite H1 in H. cbn [bind] in H.
    destruct (match elem with
              | PyTuple items => c_encode_key w1 items
              | _ => c_encode_value w1 elem
              end) as [w2|] eqn:H2; [|discriminate]. cbn [bind] in H.
    assert (He2 : exists e2, extends w1 w2 e2).
    { destruct elem; try apply (c_encode_value_extends _ _ _ ltac:(apply He1) H2).
      apply (c_encode_key_extends _ _ _ ltac:(apply He1) H2). }
    destruct He2 as (e2 & He2).
    destruct (IH w2 (i + 1) ltac:(apply He2) H) as (e3 & He3).
    eexists. eapply extends_trans; [exact He1|]. eapply extends_trans; [exact He2 | exact He3].
Qed.

Lemma packs_starts_with_prefix (prefix : bytes) (value : PyObject) (s : bytes) :
  packs [PyString prefix; value] = Ok s -> exists e, s = prefix ++ e.
Proof.
  unfold packs. intros H.
  destruct (writer_init_ok 20 ltac:(lia)) as (w0 & H0 & Hr0 & Hw0).
  rewrite H0 in H. cbn [bind] in H.
  destruct (writer_puts_ok w0 prefix Hr0) as (w1 & H1 & Hr1 & Hw1).
  rewrite H1 in H. cbn [bind] in H.
  destruct (match value with
            | PyList items => packs_loop w1 items 0
            | PyTuple items => c_encode_key w1 items
            | _ => c_encode_value w1 value
            end) as [w2|] eqn:H2; [|discriminate]. cbn [bind] in H.
  assert (He : exists e, extends w1 w2 e).
  { destruct value; try apply (c_encode_value_extends _ _ _ Hr1 H2).
    - apply (c_encode_key_extends _ _ _ Hr1 H2).
    - apply (packs_loop_extends _ _ _ _ Hr1 H2). }
  destruct He as (e & Hr2 & Hw2).
  rewrite (writer_fini_ok w2 Hr2) in H. injection H as <-.
  exists e. rewrite Hw2, Hw1, Hw0. reflexivity.
Qed.

(** ** Packing and unpacking one tuple *)

Lemma packs_tuple (prefix : bytes) (items : list PyObject) :
  forallb plain_element items = true ->
  packs [PyString prefix; PyTuple items] = Ok (prefix ++ key_bytes items).
Proof.
  intros Hp. unfold packs.
  destruct (writer_init_ok 20 ltac:(lia)) as (w0 & -> & Hr0 & Hw0). cbn [bind].
  destruct (writer_puts_ok w0 prefix Hr0) as (w1 & -> & Hr1 & Hw1). cbn [bind].
  destruct (c_encode_key_plain items w1 Hp Hr1) as (w2 & -> & Hr2 & Hw2). cbn [bind].
  rewrite (writer_fini_ok w2 Hr2), Hw2, Hw1, Hw0. reflexivity.
Qed.

Lemma is_prefix_app (p e : bytes) : is_prefix p (p ++ e).
Proof.
  unfold is_prefix. rewrite firstn_app, firstn_all, Nat.sub_diag. cbn. apply app_nil_r.
Qed.

Lemma py_unpack_key (prefix : bytes) (items : list PyObject) :
  forallb plain_element items = true ->
  py_unpack prefix (prefix ++ key_bytes items) =
  (xs <- decode_items (len prefix) items ;; Ok (PyTuple xs)).
Proof.
  intros Hp. unfold py_unpack.
  pose proof (len_nonneg (key_bytes items)) as Hk.
  destruct (Z.ltb_spec (len (prefix ++ key_bytes items)) (len prefix));
    [rewrite len_app in *; lia|].
  replace (memcmp prefix (prefix ++ key_bytes items) (Z.to_nat (len prefix))) with 0
    by (symmetry; apply memcmp_prefix; [rewrite len_app; lia | apply is_prefix_app]).
  cbn [Z.eqb negb].
  pose proof (reader_at_init prefix (key_bytes items)) as Hat.
  set (rdr := reader_advance _ _) in *.
  unfold unpack.
  rewrite <- (app_nil_r (key_bytes items)) in Hat.
  destruct (unpack_loop_key items (Z.to_nat (r_size rdr - r_pos rdr)) rdr [] prefix []
              Hp Hat (or_introl eq_refl)) as (rdr' & -> & _).
  { rewrite (reader_at_remaining _ _ _ Hat). lia. }
  destruct (decode_items (len prefix) items); reflexivity.
Qed.

Lemma elem_roundtrips_plain (arg : PyObject) :
  elem_roundtrips arg = true -> plain_element arg = true.
Proof.
  destruct arg; cbn [elem_roundtrips plain_element]; try discriminate; try reflexivity;
    intros H; apply andb_true_iff in H; destruct H as [H _];
    first [exact H | apply andb_true_iff in H; destruct H as [H _]; exact H].
Qed.

Lemma decode_of_roundtrips (pos : Z) (arg : PyObject) :
  elem_roundtrips arg = true -> decode_of pos arg = Ok (as_decoded arg).
Proof.
  assert (Hint : forall v, (- 2 ^ 63 <=? v) && (v <? 2 ^ 63) && (240 <? Z.abs v) = true ->
                 decoded_int pos v = PyLong v).
  { intros v H. rewrite !andb_true_iff, Z.leb_le, !Z.ltb_lt in H.
    unfold decoded_int, u64. destruct (Z.ltb_spec v 0).
    - rewrite Z.mod_small by lia. destruct (Z.leb_spec (- v) 240); [lia|]. f_equal. lia.
    - rewrite Z.mod_small by lia. destruct (Z.leb_spec v 240); [lia|]. reflexivity. }
  destruct arg as [|v|b|b|b|v|dt|b|items|items];
    cbn [elem_roundtrips decode_of as_decoded]; try discriminate; intros H.
  - reflexivity.
  - rewrite Hint by assumption. reflexivity.
  - apply andb_true_iff in H. destruct H as [_ H].
    rewrite str_decoded_keeps by assumption. reflexivity.
  - rewrite !andb_true_iff in H. destruct H as [[_ H] Hv].
    rewrite str_decoded_keeps by assumption. unfold PyUnicode_DecodeUTF8. rewrite Hv.
    reflexivity.
  - rewrite Hint by assumption. reflexivity.
  - rewrite !andb_true_iff in H. destruct H as [[_ H] Hl].
    rewrite str_decoded_keeps by assumption. unfold UUID_call. rewrite Hl. reflexivity.
Qed.

Lemma decode_items_roundtrips (items : list PyObject) (pos : Z) :
  forallb elem_roundtrips items = true ->
  decode_items pos items = Ok (map as_decoded items).
Proof.
  revert pos. induction items as [|arg items IH]; intros pos H; [reflexivity|].
  cbn [forallb] in H. apply andb_true_iff in H. destruct H as [Ha H].
  cbn [decode_items map]. rewrite (decode_of_roundtrips pos arg Ha). cbn [bind].
  rewrite IH by assumption. reflexivity.
Qed.

Lemma forallb_roundtrips_plain (items : list PyObject) :
  forallb elem_roundtrips items = true -> forallb plain_element items = true.
Proof.
  rewrite !forallb_forall. intros H x Hx. apply elem_roundtrips_plain, H, Hx.
Qed.

Lemma list_eq_dec_refl (x : bytes) :
  (if list_eq_dec Z.eq_dec x x then true else false) = true.
Proof. destruct (list_eq_dec Z.eq_dec x x); [reflexivity | contradiction]. Qed.

Lemma py_eq_as_decoded (arg : PyObject) :
  elem_roundtrips arg = true -> py_eq (as_decoded arg) arg = true.
Proof.
  destruct arg; cbn [elem_roundtrips as_decoded py_eq]; try discriminate; intros _;
    try reflexivity; try apply Z.eqb_refl; apply list_eq_dec_refl.
Qed.

Lemma py_eq_tuple_as_decoded (items : list PyObject) :
  forallb elem_roundtrips items = true ->
  py_eq (PyTuple (map as_decoded items)) (PyTuple items) = true.
Proof.
  intros H. cbn [py_eq]. induction items as [|arg items IH]; [reflexivity|].
  cbn [forallb] in H. apply andb_true_iff in H. destruct H as [Ha H].
  cbn [map]. rewrite (py_eq_as_decoded arg Ha). cbn [andb]. apply IH. assumption.
Qed.

(** C3, as the code has it.  Prefix respect: whatever [pack(prefix,
    value)] returns begins with [prefix].  Round trip: for a value that is
    [None], an integer of the 64-bit signed range whose magnitude exceeds
    240, a string, text or UUID whose stream does not end in a zero trailer,
    or a tuple of such elements, [pack] returns a string and
    [unpack(prefix, pack(prefix, value))] equals [tuplize(value)] under
    Python's [==]. *)
Theorem pack_prefix_and_round_trip (prefix : bytes) (value : PyObject) :
  (forall s, packs [PyString prefix; value] = Ok s -> is_prefix prefix s) /\
  (roundtrips value = true ->
   exists s t,
     packs [PyString prefix; value] = Ok s /\
     py_unpack prefix s = Ok t /\
     py_eq t (tuplize value) = true).
Proof.
  split.
  - intros s H. destruct (packs_starts_with_prefix _ _ _ H) as (e & ->).
    apply is_prefix_app.
  - intros Hrt.
    assert (Htuple : forall items, forallb elem_roundtrips items = true ->
              py_unpack prefix (prefix ++ key_bytes items) = Ok (PyTuple (map as_decoded items))).
    { intros items H. rewrite py_unpack_key by (apply forallb_roundtrips_plain; assumption).
      rewrite decode_items_roundtrips by assumption. reflexivity. }
    assert (Helem : is_element value = true -> elem_roundtrips value = true ->
              exists s t, packs [PyString prefix; value] = Ok s /\
                py_unpack prefix s = Ok t /\ py_eq t (PyTuple [value]) = true).
    { intros Hel He. exists (prefix ++ key_bytes [value]), (PyTuple (map as_decoded [value])).
      assert (Hall : forallb elem_roundtrips [value] = true)
        by (cbn [forallb]; rewrite He; reflexivity).
      split; [|split].
      - cbn [key_bytes]. rewrite app_nil_r. apply packs_element; [assumption|].
        intros w Hr. apply c_encode_value_plain; [|assumption].
        apply elem_roundtrips_plain. assumption.
      - apply Htuple. assumption.
      - apply py_eq_tuple_as_decoded. assumption. }
    destruct value as [|v|b|b|b|v|dt|b|items|items]; cbn [roundtrips tuplize] in *;
      try discriminate; try (apply Helem; [reflexivity | assumption]).
    exists (prefix ++ key_bytes items), (PyTuple (map as_decoded items)).
    split; [|split].
    + apply packs_tuple, forallb_roundtrips_plain. assumption.
    + apply Htuple. assumption.
    + apply py_eq_tuple_as_decoded. assumption.
Qed.

(** ** Batches *)

Lemma packs_loop_batch (ts : list (list PyObject)) :
  forall (w : writer) (i : Z),
  forallb (forallb plain_element) ts = true -> room w 0 -> 0 <= i ->
  exists w', packs_loop w (map PyTuple ts) i = Ok w' /\
    extends w w' (if i =? 0 then batch_bytes ts else seps ts).
Proof.
  induction ts as [|t ts IH]; intros w i Hp Hr Hi.
  - exists w. split; [reflexivity|].
    destruct (i =? 0); apply extends_refl; assumption.
  - cbn [forallb] in Hp. apply andb_true_iff in Hp. destruct Hp as [Ht Hp].
    cbn [map packs_loop].
    assert (Hsep : exists w1,
              (if negb (i =? 0) then writer_putc w (u8 (KIND_SEP K)) else Ok w) = Ok w1 /\
              extends w w1 (if i =? 0 then [] else [KIND_SEP K])).
    { destruct (i =? 0); cbn [negb].
      - exists w. split; [reflexivity | apply extends_refl; assumption].
      - rewrite u8_kind by kind_in. apply writer_putc_ok. assumption. }
    destruct Hsep as (w1 & -> & He1). cbn [bind].
    destruct (c_encode_key_plain t w1 Ht ltac:(apply He1)) as (w2 & -> & He2). cbn [bind].
    destruct (IH w2 (i + 1) Hp ltac:(apply He2) ltac:(lia)) as (w3 & -> & He3).
    exists w3. split; [reflexivity|].
    destruct (Z.eqb_spec (i + 1) 0); [lia|].
    pose proof (extends_trans _ _ _ _ _ He1 (extends_trans _ _ _ _ _ He2 He3)) as He.
    destruct (i =? 0); cbn [batch_bytes seps flat_map app] in *; exact He.
Qed.

Lemma packs_batch (prefix : bytes) (ts : list (list PyObject)) :
  forallb (forallb plain_element) ts = true ->
  packs [PyString prefix; PyList (map PyTuple ts)] = Ok (prefix ++ batch_bytes ts).
Proof.
  intros Hp. unfold packs.
  destruct (writer_init_ok 20 ltac:(lia)) as (w0 & -> & Hr0 & Hw0). cbn [bind].
  destruct (writer_puts_ok w0 prefix Hr0) as (w1 & -> & Hr1 & Hw1). cbn [bind].
  destruct (packs_loop_batch ts w1 0 Hp Hr1 ltac:(lia)) as (w2 & -> & Hr2 & Hw2).
  cbn [bind Z.eqb] in *.
  rewrite (writer_fini_ok w2 Hr2), Hw2, Hw1, Hw0. reflexivity.
Qed.

Lemma decodable_plain (arg : PyObject) : decodable arg = true -> plain_element arg = true.
Proof. unfold decodable. intros H. apply andb_true_iff in H. apply H. Qed.

Lemma forallb_decodable_plain (items : list PyObject) :
  forallb decodable items = true -> forallb plain_element items = true.
Proof.
  rewrite !forallb_forall. intros H x Hx. apply decodable_plain, H, Hx.
Qed.

Lemma decode_of_decodable (pos : Z) (arg : PyObject) :
  decodable arg = true -> exists x, decode_of pos arg = Ok x.
Proof.
  unfold decodable. intros H. apply andb_true_iff in H. destruct H as [Hp H].
  destruct arg; cbn [plain_element decode_of] in *; try discriminate; eauto.
  - unfold PyUnicode_DecodeUTF8. rewrite H. eauto.
  - unfold UUID_call. rewrite H. eauto.
Qed.

Lemma decode_items_decodable (items : list PyObject) (pos : Z) :
  forallb decodable items = true -> exists xs, decode_items pos items = Ok xs.
Proof.
  revert pos. induction items as [|arg items IH]; intros pos H; [cbn; eauto|].
  cbn [forallb] in H. apply andb_true_iff in H. destruct H as [Ha H].
  cbn [decode_items].
  destruct (decode_of_decodable pos arg Ha) as (x & ->). cbn [bind].
  destruct (IH (pos + len (value_bytes arg)) H) as (xs & ->). cbn [bind]. eauto.
Qed.

Lemma unpacks_loop_unfold (fuel : nat) (rdr : reader) (tups : list PyObject) :
  unpacks_loop fuel rdr tups =
  if r_pos rdr <? r_size rdr then
    match fuel with
    | O => Raise Diverges
    | S fuel' => '(tup, rdr) <- unpack rdr ;; unpacks_loop fuel' rdr (tups ++ [tup])
    end
  else Ok tups.
Proof. destruct fuel; reflexivity. Qed.

Lemma reader_at_end (rdr : reader) (pre : bytes) :
  reader_at rdr pre [] -> (r_pos rdr <? r_size rdr) = false.
Proof. intros (_ & Hs & Hp). rewrite Hs, Hp, app_nil_r. apply Z.ltb_irrefl. Qed.

Lemma key_bytes_nonempty (arg : PyObject) (items : list PyObject) :
  plain_element arg = true -> 1 <= len (key_bytes (arg :: items)).
Proof.
  intros H. cbn [key_bytes]. rewrite len_app.
  pose proof (value_bytes_nonempty arg H). pose proof (len_nonneg (key_bytes items)). lia.
Qed.

Lemma unpack_key (t : list PyObject) (rdr : reader) (pre post : bytes) :
  forallb decodable t = true ->
  reader_at rdr pre (key_bytes t ++ post) ->
  post = [] \/ (exists post', post = KIND_SEP K :: post') ->
  exists xs rdr',
    unpack rdr = Ok (PyTuple xs, rdr') /\
    reader_at rdr' (pre ++ key_bytes t ++ firstn 1 post) (skipn 1 post).
Proof.
  intros Hd Hat Hpost. unfold unpack.
  destruct (unpack_loop_key t (Z.to_nat (r_size rdr - r_pos rdr)) rdr [] pre post
              (forallb_decodable_plain t Hd) Hat Hpost) as (rdr' & -> & Hat').
  { rewrite (reader_at_remaining _ _ _ Hat). lia. }
  destruct (decode_items_decodable t (len pre) Hd) as (xs & ->). cbn [bind app].
  exists xs, rdr'. split; [reflexivity | exact Hat'].
Qed.

Lemma unpacks_loop_batch (ts : list (list PyObject)) :
  forall (t : list PyObject) (fuel : nat) (rdr : reader) (acc : list PyObject) (pre : bytes),
  forallb (forallb decodable) (t :: ts) = true ->
  reader_at rdr pre (key_bytes t ++ seps ts) ->
  len (key_bytes t ++ seps ts) <= Z.of_nat fuel ->
  exists l, unpacks_loop fuel rdr acc = Ok (acc ++ l) /\ length l = tuples_found t ts.
Proof.
  induction ts as [|t' ts IH]; intros t fuel rdr acc pre Hd Hat Hfuel;
    cbn [forallb] in Hd; apply andb_true_iff in Hd; destruct Hd as [Ht Hd].
  - cbn [seps flat_map tuples_found] in *. rewrite unpacks_loop_unfold.
    destruct t as [|arg t].
    + cbn [key_bytes app] in Hat. rewrite (reader_at_end _ _ Hat).
      exists []. rewrite app_nil_r. auto.
    + assert (Hplain : plain_element arg = true).
      { cbn [forallb] in Ht. apply andb_true_iff in Ht. apply decodable_plain, Ht. }
      pose proof (key_bytes_nonempty arg t Hplain) as Hne.
      rewrite app_nil_r in Hfuel.
      assert (Hmore : (r_pos rdr <? r_size rdr) = true).
      { destruct (key_bytes (arg :: t)) as [|b0 l0]; [cbn in Hne; lia|].
        apply (reader_at_more _ _ _ _ Hat). }
      rewrite Hmore. destruct fuel as [|fuel]; [lia|].
      destruct (unpack_key _ _ _ _ Ht Hat (or_introl eq_refl)) as (xs & rdr' & -> & Hat').
      cbn [bind firstn skipn] in *. rewrite unpacks_loop_unfold, (reader_at_end _ _ Hat').
      exists [PyTuple xs]. auto.
  - cbn [seps flat_map tuples_found app] in *. fold (seps ts) in *.
    rewrite unpacks_loop_unfold.
    assert (Hmore : (r_pos rdr <? r_size rdr) = true).
    { destruct (key_bytes t) as [|b0 l0]; cbn [app] in Hat;
        apply (reader_at_more _ _ _ _ Hat). }
    rewrite Hmore.
    rewrite len_app, len_cons in Hfuel.
    pose proof (len_nonneg (key_bytes t)) as Hk.
    pose proof (len_nonneg (key_bytes t' ++ seps ts)) as Hrest.
    destruct fuel as [|fuel]; [lia|].
    destruct (unpack_key t rdr pre (KIND_SEP K :: key_bytes t' ++ seps ts) Ht Hat
                (or_intror (ex_intro _ _ eq_refl))) as (xs & rdr' & -> & Hat').
    cbn [bind firstn skipn] in *.
    destruct (IH t' fuel rdr' (acc ++ [PyTuple xs]) _ Hd Hat' ltac:(lia)) as (l & -> & Hl).
    exists (PyTuple xs :: l). rewrite <- app_assoc. cbn [app length]. auto.
Qed.

Lemma tuples_found_trailing_empty (ts : list (list PyObject)) (t : list PyObject) :
  ts <> [] -> last (t :: ts) [] = [] -> tuples_found t ts = length ts.
Proof.
  revert t. induction ts as [|t' ts IH]; intros t Hne Hlast; [contradiction|].
  cbn [tuples_found length]. f_equal.
  destruct ts as [|t'' ts].
  - cbn in Hlast. subst t'. reflexivity.
  - apply IH; [discriminate|]. exact Hlast.
Qed.

(** X21. Where every element can be decoded, the observation of C9
    holds: a batch of at least two tuples whose last tuple is empty comes
    back from [unpacks] one tuple short. *)
Lemma trailing_empty_tuple_is_lost (prefix : bytes) (ts : list (list PyObject)) :
  (2 <= length ts)%nat -> last ts [] = [] ->
  forallb (forallb decodable) ts = true ->
  exists s l,
    packs [PyString prefix; PyList (map PyTuple ts)] = Ok s /\
    unpacks prefix s = Ok (PyList l) /\
    length l = (length ts - 1)%nat.
Proof.
  intros Hlen Hlast Hd.
  destruct ts as [|t ts]; [cbn in Hlen; lia|].
  assert (Hne : ts <> []) by (destruct ts; [cbn in Hlen; lia | discriminate]).
  assert (Hplain : forallb (forallb plain_element) (t :: ts) = true).
  { rewrite forallb_forall in *. intros x Hx. apply forallb_decodable_plain, Hd, Hx. }
  exists (prefix ++ batch_bytes (t :: ts)).
  pose proof (reader_at_init prefix (batch_bytes (t :: ts))) as Hat.
  set (rdr := reader_advance _ _) in *.
  destruct (unpacks_loop_batch ts t (Z.to_nat (r_size rdr - r_pos rdr)) rdr [] prefix Hd Hat)
    as (l & Hrun & Hl).
  { rewrite (reader_at_remaining _ _ _ Hat). cbn [batch_bytes]. lia. }
  exists l. split; [apply packs_batch; assumption|]. split.
  - unfold unpacks.
    pose proof (len_nonneg (batch_bytes (t :: ts))) as Hk.
    destruct (Z.ltb_spec (len (prefix ++ batch_bytes (t :: ts))) (len prefix));
      [rewrite len_app in *; lia|].
    replace (memcmp prefix (prefix ++ batch_bytes (t :: ts)) (Z.to_nat (len prefix))) with 0
      by (symmetry; apply memcmp_prefix; [rewrite len_app; lia | apply is_prefix_app]).
    cbn [Z.eqb negb]. fold rdr. rewrite Hrun. reflexivity.
  - rewrite Hl, (tuples_found_trailing_empty ts t Hne Hlast). cbn [length]. lia.
Qed.

(** ** The defects behind C1, C6 and C8, in general form *)

(** A one-byte varint decodes to the content of the uninitialised local,
    whatever the byte. *)
Lemma read_plain_int_one_byte (rdr : reader) (pre rest : bytes) (ch : Z) :
  0 <= ch <= 240 -> reader_at rdr pre (ch :: rest) ->
  read_plain_int rdr = Ok (uninit (len pre), reader_advance rdr 1).
Proof.
  intros Hch Hat. unfold read_plain_int.
  destruct (reader_getc_at _ _ _ _ Hat) as [-> _].
  destruct (Z.leb_spec ch 240); [|lia].
  rewrite (reader_at_pos _ _ _ Hat). reflexivity.
Qed.

(** X19. The round trip of a varint with a payload: for every value
    above 240 and below 2^64, [write_int] emits the form of the lead-byte
    table, and [read_plain_int] on these bytes, whatever follows them,
    returns the value and has read exactly these bytes. *)
Lemma varint_round_trip_with_payload (w : writer) (v : Z) (rest : bytes) :
  writer_ok w = true -> 240 < v < 2 ^ 64 ->
  exists w' rdr',
    write_int w v 0 = Ok w' /\
    written w' = written w ++ spec_varint v /\
    read_plain_int (reader_init (spec_varint v ++ rest) (len (spec_varint v ++ rest)))
      = Ok (v, rdr') /\
    r_pos rdr' = len (spec_varint v).
Proof.
  intros Hw Hv. apply writer_ok_room in Hw.
  destruct (write_int_ok w v 0 Hw) as (w' & Hwi & _ & He).
  rewrite varint_spec in He by lia. cbn [tag Z.eqb app] in He.
  pose proof (reader_at_start (spec_varint v ++ rest)) as Hat.
  rewrite <- (varint_spec v) in Hat at 3 by lia.
  destruct (read_plain_int_varint _ _ _ _ Hat ltac:(lia)) as (rdr' & Hrd & Hat').
  destruct (Z.leb_spec v 240); [lia|].
  exists w', rdr'. split; [exact Hwi|]. split; [exact He|]. split.
  - rewrite <- Hrd. reflexivity.
  - rewrite (reader_at_pos _ _ _ Hat'), varint_spec by lia. reflexivity.
Qed.

Lemma some_inj (A : Type) (x y : A) : Some x = Some y -> x = y.
Proof. intros H. injection H. auto. Qed.

(** The encoder's form is the shortest of the forms the table admits
    for a value, and the only one of its length. *)
Lemma varint_shortest_unique (bs : bytes) (v : Z) :
  is_bytes bs = true -> spec_decode bs = Some v ->
  (length (varint v) <= length bs)%nat /\
  (length bs = length (varint v) -> bs = varint v).
Proof.
  clear uninit utf8_valid timegm host_utcoffset.
  intros Hb Hd. destruct bs as [|L payload]; [discriminate|].
  apply is_bytes_cons in Hb. destruct Hb as [HL Hp]. cbn [spec_decode] in Hd.
  assert (Hlead : L <= 240 \/ 241 <= L <= 248 \/ L = 249 \/
                  L = 250 \/ L = 251 \/ L = 252 \/ L = 253 \/ L = 254 \/ L = 255) by lia.
  repeat match type of Hlead with _ \/ _ => destruct Hlead as [Hlead|Hlead] end;
    try subst L;
    repeat match type of Hd with
    | context [if ?a <=? ?b then _ else _] => destruct (Z.leb_spec a b); try lia
    | context [if ?a =? ?b then _ else _] => destruct (Z.eqb_spec a b); try lia
    end;
    try discriminate Hd;
    try match goal with
        | Hlen : len payload = _ |- _ =>
            repeat (destruct payload as [|? payload];
                    [ try (exfalso; change (len []) with 0 in Hlen; lia)
                    | rewrite (len_cons _ payload) in Hlen;
                      pose proof (len_nonneg payload); try (exfalso; lia) ])
        end;
    repeat match type of Hd with
    | context [match ?l with [] => _ | _ :: _ => _ end] => destruct l; try discriminate Hd
    end;
    repeat (apply is_bytes_cons in Hp; destruct Hp as [? Hp]);
    apply some_inj in Hd; unfold be_value in Hd; cbn [fold_left] in Hd;
    unfold varint;
    repeat match goal with
    | |- context [if ?a <=? ?b then _ else _] => destruct (Z.leb_spec a b)
    end;
    try lia;
    (split; [cbn [length]; lia|]); intros Hlen';
    try (cbn [length] in Hlen'; lia);
    repeat f_equal; unfold u8; rewrite ?land_255;
    rewrite ?Z.shiftr_div_pow2 by lia; dlia.
Qed.

(** The table reads the encoder's form back as the value. *)
Lemma spec_decode_varint (v : Z) : 0 <= v < 2 ^ 64 -> spec_decode (varint v) = Some v.
Proof.
  clear uninit utf8_valid timegm host_utcoffset.
  intros Hv. unfold varint.
  repeat match goal with
  | |- context [if ?a <=? ?b then _ else _] => destruct (Z.leb_spec a b)
  end;
  unfold spec_decode; rewrite ?len_cons; change (len []) with 0;
  repeat match goal with
  | |- context [if ?a <=? ?b then _ else _] =>
      first [ replace (a <=? b) with true by (symmetry; apply Z.leb_le; cmp_arith)
            | replace (a <=? b) with false by (symmetry; apply Z.leb_gt; cmp_arith) ]
  | |- context [if ?a =? ?b then _ else _] =>
      first [ replace (a =? b) with true by (symmetry; apply Z.eqb_eq; cmp_arith)
            | replace (a =? b) with false by (symmetry; apply Z.eqb_neq; cmp_arith) ]
  end;
  cbv beta iota; unfold be_value; cbn [fold_left];
  f_equal; unfold u8; rewrite ?land_255; rewrite ?Z.shiftr_div_pow2 by lia; dlia.
Qed.

(** X18. The encoder half of C1: for every unsigned 64-bit value
    [write_int] emits the form of the lead-byte table, which the table reads
    back as the value, and which is the shortest form of the value and the
    only one of its length. *)
Lemma varint_encoder_shortest_form (w : writer) (v : Z) :
  writer_ok w = true -> 0 <= v < 2 ^ 64 ->
  exists w',
    write_int w v 0 = Ok w' /\
    written w' = written w ++ spec_varint v /\
    spec_decode (spec_varint v) = Some v /\
    forall bs, is_bytes bs = true -> spec_decode bs = Some v ->
      (length (spec_varint v) <= length bs)%nat /\
      (length bs = length (spec_varint v) -> bs = spec_varint v).
Proof.
  intros Hw Hv. apply writer_ok_room in Hw.
  destruct (write_int_ok w v 0 Hw) as (w' & Hwi & _ & He).
  rewrite <- (varint_spec v Hv).
  exists w'. split; [exact Hwi|]. split; [exact He|].
  split; [apply spec_decode_varint; assumption|].
  intros bs Hb Hd. apply varint_shortest_unique; assumption.
Qed.

(** For a datetime with an explicit offset, [get_utcoffset_secs] has
    already divided the seconds by 900, and [write_time] divides by
    [UTCOFFSET_DIV] again.  Where [UTCOFFSET_DIV] is 900, the offset field
    is the bare bias for every offset of less than 225 hours. *)
Lemma write_time_aware_offset (w : writer) (dt : datetime) (offset : Z) :
  UTCOFFSET_DIV = 900 -> 0 <= UTCOFFSET_SHIFT <= 127 ->
  dt_utcoffset dt = Some offset ->
  - 810000 < offset < 810000 -> Z.quot offset 900 <> -1 ->
  write_time w dt =
  let t := {| tm_sec := dt_second dt; tm_min := dt_minute dt; tm_hour := dt_hour dt;
              tm_mday := dt_day dt; tm_mon := dt_month dt - 1;
              tm_year := dt_year dt - 1900 |} in
  let ms := s64 (s64 (s64 (timegm t) * 1000) + Z.quot (dt_microsecond dt) 1000) in
  let ts := Z.lor (s64 (Z.shiftl ms 7)) UTCOFFSET_SHIFT in
  if ts <? 0 then write_int w (u64 (- ts)) (KIND_NEG_TIME K)
  else write_int w (u64 ts) (KIND_TIME K).
Proof.
  intros Hdiv Hshift Hoff Hrange Hq. unfold write_time, get_utcoffset_secs. rewrite Hoff.
  change (15 * 60) with 900.
  assert (Hb : Z.abs (Z.quot offset 900) < 900).
  { rewrite <- (Z.quot_abs offset 900) by lia. change (Z.abs 900) with 900.
    rewrite Z.quot_div_nonneg by lia. apply Z.div_lt_upper_bound; lia. }
  assert (Hs : s32 (Z.quot offset 900) = Z.quot offset 900).
  { unfold s32. rewrite Z.mod_small; lia. }
  rewrite Hs. destruct (Z.eqb_spec (Z.quot offset 900) (-1)); [contradiction|].
  rewrite Hdiv.
  assert (Hz : Z.quot (Z.quot offset 900) 900 = 0) by (apply Z.quot_small_iff; lia).
  rewrite Hz, Z.add_0_r.
  assert (Hs' : s32 UTCOFFSET_SHIFT = UTCOFFSET_SHIFT).
  { unfold s32. rewrite Z.mod_small; lia. }
  rewrite Hs'.
  destruct (Z.leb_spec UTCOFFSET_SHIFT 127); [|lia].
  destruct (Z.leb_spec 0 UTCOFFSET_SHIFT); [|lia].
  reflexivity.
Qed.

(** A datetime at UTC-00:15: [get_utcoffset_secs] returns -1, which
    [write_time] takes for the failure of the call, and nothing is written,
    whatever the macros are. *)
Lemma write_time_minus_quarter (w : writer) (dt : datetime) :
  dt_utcoffset dt = Some (-900) -> write_time w dt = Ok w.
Proof.
  intros Hoff. unfold write_time, get_utcoffset_secs. rewrite Hoff. reflexivity.
Qed.

(** Off the defect, [py_decode_offsets] does what C8 describes: when the
    count and every delta have a payload (they exceed 240), the result is
    the list of the running sums after a leading 0, and the number of bytes
    read. *)
Lemma decode_offsets_loop_payloads (ds : list Z) :
  forall (fuel : nat) (rdr : reader) (pre post : bytes) (count i pos n : Z)
         (out : list PyObject),
  Forall (fun d => 240 < d < 2 ^ 64) ds ->
  reader_at rdr pre (flat_map varint ds ++ post) ->
  count = i + Z.of_nat (length ds) -> count < n ->
  len (flat_map varint ds) < Z.of_nat fuel ->
  exists rdr',
    decode_offsets_loop fuel rdr count i pos n out =
      Ok (out ++ map (fun p => PyInt (s64 p)) (offsets_from pos ds), rdr') /\
    reader_at rdr' (pre ++ flat_map varint ds) post.
Proof.
  induction ds as [|d ds IH]; intros fuel rdr pre post count i pos n out Hds Hat Hc Hn Hfuel.
  - cbn [length Z.of_nat flat_map app offsets_from map] in *.
    exists rdr. rewrite !app_nil_r. split; [|exact Hat].
    destruct fuel; cbn [decode_offsets_loop];
      (destruct (Z.ltb_spec i count); [lia | reflexivity]).
  - inversion Hds as [|d' ds' Hd Hds']; subst d' ds'.
    cbn [flat_map offsets_from map] in *. rewrite <- app_assoc in Hat.
    rewrite len_app in Hfuel.
    pose proof (len_nonneg (flat_map varint ds)) as Hrest.
    assert (Hv : 1 <= len (varint d)).
    { unfold varint. repeat match goal with
      | |- context [if ?a <=? ?b then _ else _] => destruct (a <=? b)
      end; cbn; lia. }
    destruct fuel as [|fuel]; [lia|]. cbn [decode_offsets_loop].
    destruct (Z.ltb_spec i count); [|cbn [length] in Hc; lia].
    destruct (read_plain_int_varint _ _ _ _ Hat ltac:(lia)) as (rdr1 & -> & Hat1). cbn [bind].
    destruct (Z.leb_spec d 240); [lia|].
    destruct (Z.ltb_spec (1 + i) n); [|cbn [length] in Hc; lia].
    destruct (IH fuel rdr1 (pre ++ varint d) post count (i + 1) (u64 (pos + d)) n
                (out ++ [PyInt (s64 (u64 (pos + d)))]) Hds' Hat1)
      as (rdr' & -> & Hat'); [cbn [length] in Hc; lia | lia | lia |].
    exists rdr'. rewrite <- !app_assoc in *. cbn [app]. split; [reflexivity | exact Hat'].
Qed.

(** X20. [decode_offsets] on a table whose varints all have a payload:
    for more than 240 deltas that each exceed 240, the result is the list of
    the running sums of the deltas behind a leading 0, kept in 64 bits, and
    the number of bytes of the table; bytes behind the table are left
    alone. *)
Lemma decode_offsets_payloads (ds : list Z) (post : bytes) :
  Forall (fun d => 240 < d < 2 ^ 64) ds ->
  240 < Z.of_nat (length ds) < 2 ^ 31 - 1 ->
  let table := varint (Z.of_nat (length ds)) ++ flat_map varint ds in
  py_decode_offsets (table ++ post) =
  Ok (PyTuple [PyList (PyInt 0 :: map (fun p => PyInt (s64 p)) (offsets_from 0 ds));
               PyInt (len table)]).
Proof.
  intros Hds Hn table. unfold py_decode_offsets.
  pose proof (reader_at_start (table ++ post)) as Hat.
  unfold table in Hat at 3. rewrite <- app_assoc in Hat.
  destruct (read_plain_int_varint _ _ _ _ Hat ltac:(lia)) as (rdr1 & -> & Hat1).
  cbn [bind]. destruct (Z.leb_spec (Z.of_nat (length ds)) 240); [lia|].
  assert (Hs : s32 (Z.of_nat (length ds)) = Z.of_nat (length ds)).
  { unfold s32. rewrite Z.mod_small; lia. }
  rewrite Hs.
  assert (Hs1 : s32 (1 + Z.of_nat (length ds)) = 1 + Z.of_nat (length ds)).
  { unfold s32. rewrite Z.mod_small; lia. }
  rewrite Hs1.
  destruct (Z.ltb_spec (1 + Z.of_nat (length ds)) 0); [lia|].
  destruct (Z.eqb_spec (1 + Z.of_nat (length ds)) 0); [lia|].
  destruct (decode_offsets_loop_payloads ds (Z.to_nat (r_size rdr1 - r_pos rdr1) + 1) rdr1
              ([] ++ varint (Z.of_nat (length ds))) post (Z.of_nat (length ds)) 0 0
              (1 + Z.of_nat (length ds)) [PyInt 0] Hds Hat1)
    as (rdr' & -> & Hat'); [lia | lia | |].
  { rewrite (reader_at_remaining _ _ _ Hat1), len_app.
    pose proof (len_nonneg post). pose proof (len_nonneg (flat_map varint ds)). lia. }
  cbn [bind app]. rewrite (reader_at_pos _ _ _ Hat'). reflexivity.
Qed.

(** * Further properties of the code *)

(** ** The writer as a builder of byte strings *)

Lemma run_op_ok (w : writer) (op : writer_op) :
  room w 0 -> exists w', run_op w op = Ok w' /\ extends w w' (op_bytes op).
Proof.
  intros Hr. destruct op as [o|s|size]; cbn [run_op op_bytes].
  - apply writer_putc_ok. assumption.
  - apply writer_puts_ok. assumption.
  - destruct (Z.le_gt_cases 0 size) as [Hs|Hs].
    + destruct (writer_ensure_ok w size Hr Hs) as (w' & -> & Hw & Hr').
      exists w'. split; [reflexivity|]. split.
      * apply (room_weaken _ _ _ Hr'). assumption.
      * rewrite app_nil_r. exact Hw.
    + exists w. split; [|apply extends_refl; assumption].
      destruct Hr as (buf & Hb & H0 & H1). unfold writer_ensure.
      assert (Hc : (w_size w - (w_pos w + 1) <? size) = false).
      { unfold w_size. rewrite Hb. apply Z.ltb_ge. lia. }
      destruct (Z.to_nat (size + w_pos w + 1)); cbn [writer_ensure_loop];
        rewrite Hc; reflexivity.
Qed.

Lemma run_ops_ok (ops : list writer_op) (w : writer) :
  room w 0 -> exists w', run_ops w ops = Ok w' /\ extends w w' (flat_map op_bytes ops).
Proof.
  revert w. induction ops as [|op ops IH]; intros w Hr; cbn [run_ops flat_map].
  - exists w. split; [reflexivity | apply extends_refl; assumption].
  - destruct (run_op_ok w op Hr) as (w1 & -> & He1). cbn [bind].
    destruct (IH w1 (proj1 He1)) as (w2 & Hw2 & He2).
    exists w2. split; [assumption|]. apply (extends_trans _ _ _ _ _ He1 He2).
Qed.

(** X1. The writer builds the byte string it was given: after
    [writer_init] with a positive size, any run of [writer_putc],
    [writer_puts] and [writer_ensure] succeeds, and [writer_fini] returns the
    bytes of the [putc] and [puts] calls, in their order and with nothing
    else; the growth of the buffer never shows in the result. *)
Theorem writer_builds_the_bytes (initial : Z) (ops : list writer_op) :
  0 < initial ->
  (w0 <- writer_init initial ;; w <- run_ops w0 ops ;; writer_fini w)
    = Ok (flat_map op_bytes ops).
Proof.
  intros Hi.
  destruct (writer_init_ok initial Hi) as (w0 & -> & Hr0 & Hw0). cbn [bind].
  destruct (run_ops_ok ops w0 Hr0) as (w & -> & Hr & Hw). cbn [bind].
  rewrite (writer_fini_ok w Hr), Hw, Hw0. reflexivity.
Qed.

(** ** [pack_int] *)

Lemma py_pack_int_bytes (prefix : bytes) (v : Z) :
  - 2 ^ 63 <= v < 2 ^ 63 -> py_pack_int prefix v = Ok (prefix ++ varint (u64 v)).
Proof.
  intros Hv. unfold py_pack_int.
  destruct (Z.ltb_spec v (- 2 ^ 63)); [lia|].
  destruct (Z.leb_spec (2 ^ 63) v); [lia|]. cbn [orb].
  destruct (writer_init_ok 9 ltac:(lia)) as (w0 & -> & Hr0 & Hw0). cbn [bind].
  destruct (writer_puts_ok w0 prefix Hr0) as (w1 & -> & Hr1 & Hw1). cbn [bind].
  destruct (write_int_ok w1 (u64 v) 0 Hr1) as (w2 & -> & Hr2 & Hw2). cbn [bind].
  rewrite (writer_fini_ok w2 Hr2), Hw2, Hw1, Hw0. reflexivity.
Qed.

(** X2. [pack_int] reads its argument, a C [long], as an unsigned
    64-bit integer: the result is the prefix followed by the shortest form
    of [v mod 2^64].  A negative argument is therefore packed in the
    nine-byte form, lead byte 255, of [2^64 + v]. *)
Theorem pack_int_packs_the_unsigned_reading (prefix : bytes) (v : Z) :
  - 2 ^ 63 <= v < 2 ^ 63 ->
  py_pack_int prefix v = Ok (prefix ++ spec_varint (v mod 2 ^ 64)) /\
  (v < 0 -> spec_varint (v mod 2 ^ 64) = 255 :: be 8 (2 ^ 64 + v)).
Proof.
  intros Hv. pose proof (u64_range v) as Hu. split.
  - rewrite (py_pack_int_bytes prefix v Hv), varint_spec by exact Hu. reflexivity.
  - intros Hneg.
    assert (He : v mod 2 ^ 64 = 2 ^ 64 + v).
    { symmetry. apply Z.mod_unique with (q := -1); lia. }
    rewrite He. unfold spec_varint.
    repeat match goal with
    | |- context [?a <=? ?b] => destruct (Z.leb_spec a b)
    | |- context [?a <? ?b] => destruct (Z.ltb_spec a b)
    end; try lia. reflexivity.
Qed.

(** The lead byte of a varint fixes its length. *)
Lemma varint_length_by_lead (v : Z) :
  0 <= v < 2 ^ 64 ->
  exists L payload,
    varint v = L :: payload /\
    length payload =
      if L <=? 240 then 0%nat else if L <=? 248 then 1%nat else Z.to_nat (L - 247).
Proof.
  clear uninit utf8_valid timegm host_utcoffset.
  intros Hv. unfold varint.
  repeat match goal with
  | |- context [if ?a <=? ?b then _ else _] => destruct (Z.leb_spec a b)
  end; eexists; eexists; (split; [reflexivity|]); try reflexivity.
  - rewrite u8_small by lia. destruct (Z.leb_spec v 240); [reflexivity | lia].
  - assert (Hq : 0 <= Z.shiftr (v - 240) 8 <= 7).
    { rewrite Z.shiftr_div_pow2 by lia. dlia. }
    rewrite (u8_small (Z.shiftr (v - 240) 8)) by lia.
    rewrite (u8_small (241 + Z.shiftr (v - 240) 8)) by lia.
    destruct (Z.leb_spec (241 + Z.shiftr (v - 240) 8) 240); [lia|].
    destruct (Z.leb_spec (241 + Z.shiftr (v - 240) 8) 248); [reflexivity | lia].
Qed.

Lemma app_same_length (A : Type) (a b x y : list A) :
  length a = length b -> a ++ x = b ++ y -> a = b /\ x = y.
Proof.
  revert b. induction a as [|h a IH]; intros [|k b] Hl He; try discriminate.
  - split; [reflexivity | exact He].
  - cbn [app] in He. injection He as -> He. injection Hl as Hl.
    destruct (IH b Hl He) as [-> ->]. split; reflexivity.
Qed.

Lemma varint_prefix_free (u v : Z) (x y : bytes) :
  0 <= u < 2 ^ 64 -> 0 <= v < 2 ^ 64 ->
  varint u ++ x = varint v ++ y -> u = v /\ x = y.
Proof.
  intros Hu Hv He.
  destruct (varint_length_by_lead u Hu) as (Lu & pu & Eu & Hlu).
  destruct (varint_length_by_lead v Hv) as (Lv & pv & Ev & Hlv).
  rewrite Eu, Ev in He. cbn [app] in He. injection He as HL He. subst Lv.
  destruct (app_same_length _ pu pv x y ltac:(congruence) He) as [Hp Hxy].
  split; [|exact Hxy].
  apply some_inj. rewrite <- (spec_decode_varint u Hu), <- (spec_decode_varint v Hv).
  rewrite Eu, Ev, Hp. reflexivity.
Qed.

Lemma u64_of_long_inj (u v : Z) :
  - 2 ^ 63 <= u < 2 ^ 63 -> - 2 ^ 63 <= v < 2 ^ 63 -> u64 u = u64 v -> u = v.
Proof.
  clear uninit utf8_valid timegm host_utcoffset.
  unfold u64. intros Hu Hv He. dlia.
Qed.

(** X3. [pack_int] is self-delimiting: two packed integers under one
    prefix, each followed by arbitrary bytes, agree only when the integers
    agree and the bytes after them agree.  No packed integer is a proper
    prefix of another, and different integers have different encodings. *)
Theorem pack_int_self_delimiting (prefix : bytes) (u v : Z) :
  - 2 ^ 63 <= u < 2 ^ 63 -> - 2 ^ 63 <= v < 2 ^ 63 ->
  exists eu ev,
    py_pack_int prefix u = Ok (prefix ++ eu) /\
    py_pack_int prefix v = Ok (prefix ++ ev) /\
    forall x y, eu ++ x = ev ++ y -> u = v /\ x = y.
Proof.
  intros Hu Hv. exists (varint (u64 u)), (varint (u64 v)).
  split; [apply py_pack_int_bytes; assumption|].
  split; [apply py_pack_int_bytes; assumption|].
  intros x y He.
  destruct (varint_prefix_free _ _ _ _ (u64_range u) (u64_range v) He) as [Huv Hxy].
  split; [|exact Hxy]. apply u64_of_long_inj; assumption.
Qed.

(** ** The order of integer tuples *)

Lemma lex_lt_app_strict (a b x y : bytes) :
  lex_lt a b = true -> (forall z, a ++ z <> b) -> lex_lt (a ++ x) (b ++ y) = true.
Proof.
  revert b. induction a as [|h a IH]; intros b Hlt Hnp.
  - exfalso. apply (Hnp b). reflexivity.
  - destruct b as [|k b]; [discriminate|].
    cbn [lex_lt app] in *. apply orb_true_iff in Hlt.
    destruct Hlt as [Hlt|Hlt]; [rewrite Hlt; reflexivity|].
    apply andb_true_iff in Hlt. destruct Hlt as [Hhk Hlt].
    rewrite Hhk. cbn [andb]. apply orb_true_iff. right.
    apply IH; [exact Hlt|].
    intros z Hz. apply (Hnp z). apply Z.eqb_eq in Hhk. subst k. f_equal. exact Hz.
Qed.

Lemma varint_lt_app (u v : Z) (x y : bytes) :
  0 <= u < v -> v < 2 ^ 64 -> lex_lt (varint u ++ x) (varint v ++ y) = true.
Proof.
  intros Huv Hv. apply lex_lt_app_strict.
  - rewrite !varint_spec by lia. apply spec_varint_lt; assumption.
  - intros z Hz.
    destruct (varint_prefix_free u v z [] ltac:(lia) ltac:(lia)) as [He _]; [|lia].
    rewrite app_nil_r. exact Hz.
Qed.

Lemma nonneg_long_range (v : Z) : nonneg_long v = true <-> 0 <= v < 2 ^ 63.
Proof. unfold nonneg_long. rewrite andb_true_iff, Z.leb_le, Z.ltb_lt. reflexivity. Qed.

Lemma value_bytes_nonneg (v : Z) :
  0 <= v < 2 ^ 63 -> value_bytes (PyInt v) = u8 (KIND_INTEGER K) :: varint v.
Proof.
  intros Hv. cbn [value_bytes]. unfold int_bytes.
  destruct (Z.ltb_spec v 0); [lia|].
  unfold u64. rewrite Z.mod_small by lia. reflexivity.
Qed.

Lemma nonneg_longs_plain (s : list Z) :
  forallb nonneg_long s = true -> forallb plain_element (map PyInt s) = true.
Proof.
  induction s as [|a s IH]; [reflexivity|].
  cbn [forallb map plain_element]. intros H. apply andb_true_iff in H.
  destruct H as [Ha Hs]. apply nonneg_long_range in Ha.
  apply andb_true_iff. split; [|apply IH; exact Hs].
  apply andb_true_iff. rewrite Z.leb_le, Z.ltb_lt. lia.
Qed.

Lemma key_bytes_ints_order (s : list Z) :
  forall t, forallb nonneg_long s = true -> forallb nonneg_long t = true ->
  lex_lt (key_bytes (map PyInt s)) (key_bytes (map PyInt t)) = tuple_lt s t.
Proof.
  induction s as [|a s IH]; intros [|b t] Hs Ht.
  - reflexivity.
  - cbn [forallb] in Ht. apply andb_true_iff in Ht. destruct Ht as [Hb _].
    apply nonneg_long_range in Hb.
    cbn [map key_bytes]. rewrite (value_bytes_nonneg b Hb). reflexivity.
  - cbn [map tuple_lt]. destruct (key_bytes (PyInt a :: map PyInt s)); reflexivity.
  - cbn [forallb] in Hs, Ht.
    apply andb_true_iff in Hs. destruct Hs as [Ha Hs].
    apply andb_true_iff in Ht. destruct Ht as [Hb Ht].
    apply nonneg_long_range in Ha. apply nonneg_long_range in Hb.
    cbn [map key_bytes tuple_lt].
    rewrite (value_bytes_nonneg a Ha), (value_bytes_nonneg b Hb).
    rewrite <- !app_comm_cons, lex_lt_tail.
    destruct (Z.lt_trichotomy a b) as [Hlt|[Heq|Hgt]].
    + rewrite (proj2 (Z.ltb_lt a b) Hlt). cbn [orb].
      apply varint_lt_app; lia.
    + subst b. rewrite Z.ltb_irrefl, Z.eqb_refl, lex_lt_app. cbn [orb andb].
      apply IH; assumption.
    + rewrite (proj2 (Z.ltb_ge a b) ltac:(lia)).
      rewrite (proj2 (Z.eqb_neq a b) ltac:(lia)). cbn [orb andb].
      apply lex_lt_asym. apply varint_lt_app; lia.
Qed.

(** X4. Tuples of non-negative integers sort as Python sorts them: for
    two tuples of integers in [0, 2^63), of any lengths, [pack] under one
    prefix gives two keys whose unsigned byte-wise order is the order of the
    tuples: the first differing item decides, and a tuple that is a proper
    prefix of the other comes first. *)
Theorem integer_tuples_sort_as_python (prefix : bytes) (s t : list Z) :
  forallb nonneg_long s = true -> forallb nonneg_long t = true ->
  exists es et,
    packs [PyString prefix; PyTuple (map PyInt s)] = Ok es /\
    packs [PyString prefix; PyTuple (map PyInt t)] = Ok et /\
    lex_lt es et = tuple_lt s t.
Proof.
  intros Hs Ht.
  exists (prefix ++ key_bytes (map PyInt s)), (prefix ++ key_bytes (map PyInt t)).
  split; [apply packs_tuple, nonneg_longs_plain; exact Hs|].
  split; [apply packs_tuple, nonneg_longs_plain; exact Ht|].
  rewrite lex_lt_app. apply key_bytes_ints_order; assumption.
Qed.

(** ** The string codec: what comes back, and which strings collide *)

Lemma str_kept_cons (o o' : Z) (p : bytes) (s : Z) :
  str_kept o (o' :: p) s = o :: str_kept o' p (if s <? 7 then s + 1 else 1).
Proof. cbn [str_kept]. destruct (s <? 7); reflexivity. Qed.

Lemma trailer_zero_iff (o s : Z) :
  1 <= s <= 6 -> (u8 (Z.shiftl o (7 - s)) =? 0) = (o mod 2 ^ (s + 1) =? 0).
Proof.
  clear uninit utf8_valid timegm host_utcoffset.
  intros Hs. rewrite Z.shiftl_mul_pow2 by lia. unfold u8.
  assert (H : s = 1 \/ s = 2 \/ s = 3 \/ s = 4 \/ s = 5 \/ s = 6) by lia.
  destruct H as [->|[->|[->|[->|[->| ->]]]]]; cbn [Z.sub Z.add Z.opp Z.pos_sub Pos.add
    Pos.succ Pos.pred_double Z.double Z.succ_double Z.pred_double];
    norm_pow;
    match goal with
    | |- (?a =? 0) = (?b =? 0) => destruct (Z.eqb_spec a 0), (Z.eqb_spec b 0)
    end; try reflexivity; exfalso; dlia.
Qed.

Lemma str_kept_last (p : bytes) :
  forall o s, 1 <= s <= 7 ->
  str_kept o p s =
  let fs := (s - 1 + len p) mod 7 + 1 in
  if (fs <? 7) && (last (o :: p) 0 mod 2 ^ (fs + 1) =? 0)
  then removelast (o :: p) else o :: p.
Proof.
  clear uninit utf8_valid timegm host_utcoffset.
  induction p as [|o' p IH]; intros o s Hs; cbv zeta.
  - change (len []) with 0.
    assert (Hfs : (s - 1 + 0) mod 7 + 1 = s) by dlia. rewrite Hfs.
    cbn [str_kept last removelast].
    destruct (Z.ltb_spec s 7); [|reflexivity]. cbn [andb].
    rewrite trailer_zero_iff by lia. reflexivity.
  - rewrite str_kept_cons, IH by (destruct (Z.ltb_spec s 7); lia). cbv zeta.
    rewrite len_cons.
    assert (Hfs : ((if s <? 7 then s + 1 else 1) - 1 + len p) mod 7
                  = (s - 1 + (1 + len p)) mod 7).
    { pose proof (len_nonneg p). destruct (Z.ltb_spec s 7); dlia. }
    rewrite Hfs.
    change (last (o :: o' :: p) 0) with (last (o' :: p) 0).
    change (removelast (o :: o' :: p)) with (o :: removelast (o' :: p)).
    destruct ((_ <? 7) && _); reflexivity.
Qed.

Lemma str_decoded_drops (b : bytes) :
  str_decoded b = if drops_last b then removelast b else b.
Proof.
  clear uninit utf8_valid timegm host_utcoffset.
  destruct b as [|o p]; [reflexivity|].
  cbn [str_decoded]. rewrite str_kept_last by lia. cbv zeta.
  unfold drops_last. rewrite len_cons. pose proof (len_nonneg p) as Hl.
  change (1 - 1 + len p) with (0 + len p). rewrite Z.add_0_l.
  destruct (Z.ltb_spec (len p mod 7 + 1) 7) as [Hlt|Hge].
  - assert (Hr : (1 + len p) mod 7 = len p mod 7 + 1) by dlia.
    rewrite Hr. destruct (Z.eqb_spec (len p mod 7 + 1) 0); [dlia|]. reflexivity.
  - assert (Hr : (1 + len p) mod 7 = 0) by dlia.
    rewrite Hr. reflexivity.
Qed.

(** X5. What [read_str] gives back for the stream [write_str] wrote for
    a byte string [b]: the string itself, except when the length of [b] is
    not a multiple of 7 and the low [len b mod 7 + 1] bits of its last byte
    are all zero; then the last byte is lost and the others come back.  In
    both cases the reader ends just behind the stream. *)
Theorem read_str_after_write_str (w : writer) (b post : bytes) (kind : Z) :
  writer_ok w = true -> is_bytes b = true ->
  exists w' e rdr',
    write_str w b kind = Ok w' /\
    written w' = written w ++ tag kind ++ e /\
    read_str (reader_init (e ++ post) (len (e ++ post)))
      = Ok (if drops_last b then removelast b else b, rdr') /\
    r_pos rdr' = len e.
Proof.
  intros Hw Hb. apply writer_ok_room in Hw.
  destruct (write_str_ok w b kind Hw) as (w' & Hw' & _ & He).
  destruct (read_str_stream b _ [] post Hb (reader_at_start (str_stream b ++ post)))
    as (rdr' & Hr & Hat).
  exists w', (str_stream b), rdr'.
  split; [exact Hw'|]. split; [exact He|]. split.
  - rewrite Hr, str_decoded_drops. reflexivity.
  - apply (reader_at_pos _ _ _ Hat).
Qed.

Lemma str_loop_app (p q : bytes) :
  forall s t,
  str_loop (p ++ q) s t =
  let '(o1, s1, t1) := str_loop p s t in
  let '(o2, s2, t2) := str_loop q s1 t1 in
  (o1 ++ o2, s2, t2).
Proof.
  clear uninit utf8_valid timegm host_utcoffset.
  induction p as [|o p IH]; intros s t.
  - cbn [app str_loop]. destruct (str_loop q s t) as [[o2 s2] t2]. reflexivity.
  - rewrite <- app_comm_cons, !str_loop_cons.
    destruct (s <? 7).
    + rewrite IH.
      destruct (str_loop p (s + 1) (u8 (Z.shiftl o (7 - s)))) as [[o1 s1] t1].
      destruct (str_loop q s1 t1) as [[o2 s2] t2]. reflexivity.
    + rewrite IH.
      destruct (str_loop p 1 0) as [[o1 s1] t1].
      destruct (str_loop q s1 t1) as [[o2 s2] t2]. reflexivity.
Qed.

(** The state in which the loop of [write_str] ends. *)
Lemma str_loop_state (p : bytes) :
  forall o s t, 1 <= s <= 7 ->
  let fs := (s - 1 + len p) mod 7 + 1 in
  snd (fst (str_loop (o :: p) s t)) = (if fs <? 7 then fs + 1 else 1) /\
  snd (str_loop (o :: p) s t) =
    (if fs <? 7 then u8 (Z.shiftl (last (o :: p) 0) (7 - fs)) else 0).
Proof.
  clear uninit utf8_valid timegm host_utcoffset.
  induction p as [|o' p IH]; intros o s t Hs; cbv zeta.
  - change (len []) with 0.
    assert (Hfs : (s - 1 + 0) mod 7 + 1 = s) by dlia. rewrite Hfs.
    rewrite str_loop_cons. cbn [str_loop last].
    destruct (s <? 7); split; reflexivity.
  - rewrite str_loop_cons, len_cons.
    change (last (o :: o' :: p) 0) with (last (o' :: p) 0).
    pose proof (len_nonneg p) as Hl.
    destruct (Z.ltb_spec s 7) as [Hlt|Hge].
    + specialize (IH o' (s + 1) (u8 (Z.shiftl o (7 - s))) ltac:(lia)). cbv zeta in IH.
      replace (s + 1 - 1 + len p) with (s - 1 + (1 + len p)) in IH by lia.
      destruct (str_loop (o' :: p) (s + 1) (u8 (Z.shiftl o (7 - s)))) as [[o1 s1] t1].
      exact IH.
    + specialize (IH o' 1 0 ltac:(lia)). cbv zeta in IH.
      assert (Hfs : (1 - 1 + len p) mod 7 = (s - 1 + (1 + len p)) mod 7) by dlia.
      rewrite Hfs in IH.
      destruct (str_loop (o' :: p) 1 0) as [[o1 s1] t1].
      exact IH.
Qed.

Lemma lor_128_high (t : Z) : Z.testbit t 7 = true -> Z.lor 128 t = t.
Proof.
  intros Ht. apply Z.bits_inj'. intros i Hi.
  rewrite Z.lor_spec, testbit_128.
  destruct (Z.eqb_spec i 7) as [->|_]; [rewrite Ht|]; reflexivity.
Qed.

Lemma str_stream_appended_zero (b : bytes) :
  1 <= len b mod 7 <= 5 -> Z.testbit (last b 0) (len b mod 7) = true ->
  str_stream (b ++ [0]) = str_stream b.
Proof.
  clear uninit utf8_valid timegm host_utcoffset.
  intros Hr Hbit. destruct b as [|o p]; [discriminate Hbit|].
  unfold str_stream. rewrite str_loop_app.
  destruct (str_loop_state p o 1 0 ltac:(lia)) as [Hs Ht]. cbv zeta in Hs, Ht.
  rewrite len_cons in Hr, Hbit. pose proof (len_nonneg p) as Hl.
  replace (1 - 1 + len p) with (len p) in Hs, Ht by lia.
  assert (Hfs : len p mod 7 + 1 = (1 + len p) mod 7) by dlia.
  rewrite Hfs in Hs, Ht.
  destruct (Z.ltb_spec ((1 + len p) mod 7) 7) as [_|Hge]; [|lia].
  destruct (str_loop (o :: p) 1 0) as [[o1 s1] t1]. cbn [fst snd] in Hs, Ht.
  set (r := (1 + len p) mod 7) in *.
  assert (Hhigh : Z.testbit t1 7 = true).
  { rewrite Ht, testbit_u8, Z.shiftl_spec by lia. cbn [andb Z.ltb Z.compare].
    replace (7 - (7 - r)) with r by lia. exact Hbit. }
  assert (Ht1 : 0 <= t1 < 256) by (rewrite Ht; apply u8_range).
  assert (Hnz : t1 <> 0) by (intros ->; discriminate Hhigh).
  cbn [str_loop]. subst s1.
  destruct (Z.ltb_spec (r + 1) 7) as [_|Hge]; [|lia].
  rewrite Z.shiftr_0_l, Z.lor_0_r, Z.shiftl_0_l.
  change (u8 0) with 0.
  rewrite (lor_128_high t1 Hhigh), (u8_small t1 Ht1).
  unfold str_tail.
  destruct (Z.gtb_spec (r + 1 + 1) 1) as [_|Hle]; [|lia].
  destruct (Z.gtb_spec (r + 1) 1) as [_|Hle]; [|lia].
  rewrite Z.eqb_refl. cbn [negb].
  destruct (Z.eqb_spec t1 0) as [He|_]; [contradiction|].
  cbn [negb]. rewrite <- app_assoc. reflexivity.
Qed.

(** X6. The string encoding is not injective.  When the length of a
    byte string [b] leaves a remainder [r] between 1 and 5 on division by 7
    and bit [r] of its last byte is set, [pack] gives [b] and [b] followed by
    a zero byte the same key: the raw trailer that ends the stream of [b] is
    the byte that carries the appended zero. *)
Theorem blob_and_blob_with_zero_collide (prefix b : bytes) :
  1 <= len b mod 7 <= 5 -> Z.testbit (last b 0) (len b mod 7) = true ->
  exists s,
    packs [PyString prefix; PyString b] = Ok s /\
    packs [PyString prefix; PyString (b ++ [0])] = Ok s.
Proof.
  intros Hr Hbit. exists (prefix ++ u8 (KIND_BLOB K) :: str_stream b).
  assert (Hp : forall p, packs [PyString prefix; PyString p]
                         = Ok (prefix ++ u8 (KIND_BLOB K) :: str_stream p)).
  { intros p. apply packs_element; [reflexivity|].
    intros w Hw. cbn [c_encode_value].
    destruct (write_str_ok w p (KIND_BLOB K) Hw) as (w' & Hw' & He).
    exists w'. split; [exact Hw'|].
    rewrite (proj1 (tag_kind (KIND_BLOB K) ltac:(kind_in))) in He. exact He. }
  split; [apply Hp|].
  rewrite Hp, (str_stream_appended_zero b Hr Hbit). reflexivity.
Qed.

(** ** The decoder on arbitrary input *)

Lemma reader_ensure_short (rdr : reader) (pre rest : bytes) (n : Z) :
  reader_at rdr pre rest -> len rest < n -> reader_ensure rdr n = Raise ValueError.
Proof.
  intros (Hp & Hs & Hpos) Hn. unfold reader_ensure.
  rewrite Hs, Hpos, len_app.
  destruct (Z.ltb_spec (len pre + len rest - len pre) n); [reflexivity | lia].
Qed.

Lemma take_or_short (n : nat) (l : bytes) :
  (exists x y, l = x ++ y /\ length x = n) \/ len l < Z.of_nat n.
Proof.
  destruct (Nat.le_gt_cases n (length l)) as [Hle|Hgt].
  - left. exists (firstn n l), (skipn n l).
    split; [symmetry; apply firstn_skipn | apply firstn_length_le; exact Hle].
  - right. unfold len. lia.
Qed.

Lemma reads_ok (A : Type) (a : A) (rdr' : reader) (pre rest x rest' : bytes) (n : Z) :
  reader_at rdr' (pre ++ x) rest' -> rest = x ++ rest' -> n <= len x ->
  reads (Ok (a, rdr')) pre rest n.
Proof. intros Hat He Hn. exists x, rest'. auto. Qed.

Lemma reads_after (A : Type) (c : res (A * reader)) (pre x rest' : bytes) (n m : Z) :
  reads c (pre ++ x) rest' n -> m <= len x + n -> reads c pre (x ++ rest') m.
Proof.
  destruct c as [[a r]|e]; [|intros H _; exact H].
  intros (x2 & rest2 & -> & Hn & Hat) Hm. exists (x ++ x2), rest2.
  split; [apply app_assoc|]. split; [rewrite len_app; lia|].
  rewrite app_assoc. exact Hat.
Qed.

Lemma reads_result (A B : Type) (a : A) (b : B) (r : reader) (pre rest : bytes) (n m : Z) :
  reads (Ok (a, r)) pre rest n -> m <= n -> reads (Ok (b, r)) pre rest m.
Proof.
  intros (x & rest' & He & Hn & Hat) Hm. exists x, rest'.
  split; [exact He|]. split; [lia | exact Hat].
Qed.

Tactic Notation "payload_branch" integer(n) constr(k) :=
  match goal with
  | Hat1 : reader_at _ _ ?rest |- _ =>
      let x := fresh "x" in
      let y := fresh "y" in
      let Hx := fresh "Hx" in
      let Hshort := fresh "Hshort" in
      destruct (take_or_short k rest) as [(x & y & -> & Hx)|Hshort];
      [ do n (destruct x as [|? x]; [discriminate Hx|]);
        (destruct x; [|discriminate Hx]);
        cbn [app] in Hat1;
        rewrite (reader_ensure_at _ _ _ _ Hat1)
          by (rewrite ?len_cons; pose proof (len_nonneg y); lia);
        cbn [bind]; getchar_steps;
        eapply reads_ok;
        [ rewrite <- ?app_assoc in *; cbn [app] in *; eassumption
        | reflexivity
        | rewrite ?len_cons; pose proof (len_nonneg (@nil Z)); lia ]
      | rewrite (reader_ensure_short _ _ _ _ Hat1) by (cbn [Z.of_nat Pos.of_succ_nat Pos.succ] in Hshort; lia);
        reflexivity ]
  end.

Lemma read_plain_int_reads (rdr : reader) (pre rest : bytes) :
  reader_at rdr pre rest -> reads (read_plain_int rdr) pre rest 1.
Proof.
  clear utf8_valid timegm host_utcoffset.
  intros Hat. unfold read_plain_int. destruct rest as [|ch rest].
  - rewrite (reader_getc_end _ _ Hat). reflexivity.
  - destruct (reader_getc_at _ _ _ _ Hat) as [Hg Hat1]. rewrite Hg. clear Hg Hat.
    cbv zeta.
    assert (Hone : forall v : Z, reads (Ok (v, reader_advance rdr 1)) pre (ch :: rest) 1).
    { intros v. apply (reads_ok _ _ _ pre (ch :: rest) [ch] rest 1 Hat1); reflexivity. }
    destruct (ch <=? 240); [apply Hone|].
    destruct (ch <=? 248); [payload_branch 1 1%nat|].
    destruct (ch =? 249); [payload_branch 2 2%nat|].
    destruct (ch =? 250); [payload_branch 3 3%nat|].
    destruct (ch =? 251); [payload_branch 4 4%nat|].
    destruct (ch =? 252); [payload_branch 5 5%nat|].
    destruct (ch =? 253); [payload_branch 6 6%nat|].
    destruct (ch =? 254); [payload_branch 7 7%nat|].
    destruct (ch =? 255); [payload_branch 8 8%nat|].
    apply Hone.
Qed.

Lemma read_str_loop_total (fuel : nat) :
  forall (rdr : reader) (wtr : writer) (lb shift : Z) (pre rest : bytes),
  reader_at rdr pre rest -> room wtr 0 -> len rest <= Z.of_nat fuel ->
  exists wtr' rdr' x rest',
    read_str_loop fuel rdr wtr lb shift = Ok (wtr', rdr') /\
    rest = x ++ rest' /\ reader_at rdr' (pre ++ x) rest' /\ room wtr' 0.
Proof.
  induction fuel as [|fuel IH]; intros rdr wtr lb shift pre rest Hat Hr Hf;
    rewrite read_str_loop_unfold.
  - destruct rest as [|cb rest]; [|rewrite len_cons in Hf; pose proof (len_nonneg rest); lia].
    rewrite (reader_getc_end _ _ Hat). exists wtr, rdr, [], [].
    rewrite !app_nil_r. auto.
  - destruct rest as [|cb rest].
    { rewrite (reader_getc_end _ _ Hat). exists wtr, rdr, [], [].
      rewrite !app_nil_r. auto. }
    destruct (reader_getc_at _ _ _ _ Hat) as [Hg Hat1]. rewrite Hg. clear Hg.
    rewrite len_cons in Hf.
    destruct (cb =? 0).
    { exists wtr, (reader_advance rdr 1), [cb], rest. auto. }
    match goal with
    | |- context [writer_putc wtr ?c] =>
        destruct (writer_putc_ok wtr c Hr) as (w1 & -> & Hr1 & _)
    end.
    cbn [bind]. destruct (shift <? 7).
    + destruct (IH (reader_advance rdr 1) w1 cb (shift + 1) (pre ++ [cb]) rest Hat1 Hr1
                  ltac:(lia)) as (w2 & r2 & x & rest' & -> & -> & Hat2 & Hr2).
      exists w2, r2, (cb :: x), rest'. rewrite <- app_assoc in Hat2. auto.
    + destruct rest as [|lb' rest].
      { rewrite (reader_getc_end _ _ Hat1). exists w1, (reader_advance rdr 1), [cb], [].
        auto. }
      destruct (reader_getc_at _ _ _ _ Hat1) as [Hg Hat2]. rewrite Hg. clear Hg.
      rewrite <- app_assoc in Hat2. cbn [app] in Hat2.
      destruct (lb' =? 0).
      { exists w1, (reader_advance (reader_advance rdr 1) 1), [cb; lb'], rest. auto. }
      rewrite len_cons in Hf. pose proof (len_nonneg rest).
      destruct (IH _ w1 lb' 1 _ rest Hat2 Hr1 ltac:(lia))
        as (w2 & r2 & x & rest' & -> & -> & Hat3 & Hr2).
      exists w2, r2, (cb :: lb' :: x), rest'. rewrite <- app_assoc in Hat3. auto.
Qed.

Lemma read_str_reads (rdr : reader) (pre rest : bytes) :
  reader_at rdr pre rest -> reads (read_str rdr) pre rest 1.
Proof.
  intros Hat. unfold read_str.
  destruct (writer_init_ok 20 ltac:(lia)) as (w0 & -> & Hr0 & _). cbn [bind].
  destruct rest as [|lb rest].
  { rewrite (reader_getc_end _ _ Hat). reflexivity. }
  destruct (reader_getc_at _ _ _ _ Hat) as [Hg Hat1]. rewrite Hg. clear Hg.
  destruct (lb =? 0).
  - rewrite (writer_fini_ok w0 Hr0). cbn [bind].
    apply (reads_ok _ _ _ pre (lb :: rest) [lb] rest 1 Hat1); reflexivity.
  - destruct (read_str_loop_total
                (Z.to_nat (r_size (reader_advance rdr 1) - r_pos (reader_advance rdr 1)))
                (reader_advance rdr 1) w0 lb 1 (pre ++ [lb]) rest Hat1 Hr0)
      as (w1 & r1 & x & rest' & -> & -> & Hat2 & Hr1).
    { rewrite (reader_at_remaining _ _ _ Hat1). pose proof (len_nonneg rest). lia. }
    cbn [bind]. rewrite (writer_fini_ok w1 Hr1). cbn [bind].
    rewrite <- app_assoc in Hat2.
    apply (reads_ok _ _ _ pre (lb :: x ++ rest') ([lb] ++ x) rest' 1 Hat2); [reflexivity|].
    rewrite len_app. change (len [lb]) with 1. pose proof (len_nonneg x). lia.
Qed.

Ltac through_read L Hat :=
  let H := fresh "H" in
  pose proof (L _ _ _ Hat) as H;
  match type of H with
  | reads ?c _ _ _ => destruct c as [[? ?]|?]; cbn [bind]; cbv beta iota; [|exact H]
  end.

Lemma unpack_switch_reads (ch : Z) (rdr : reader) (pre rest : bytes) :
  reader_at rdr pre rest -> reads (unpack_switch ch rdr) pre rest 0.
Proof.
  intros Hat. unfold unpack_switch.
  assert (Hhere : forall arg : option PyObject, reads (Ok (arg, rdr)) pre rest 0).
  { intros arg. apply (reads_ok _ _ _ pre rest [] rest 0); [|reflexivity|reflexivity].
    rewrite app_nil_r. exact Hat. }
  destruct (ch =? KIND_NULL K); [apply Hhere|].
  destruct (ch =? KIND_INTEGER K).
  { unfold read_int. through_read read_plain_int_reads Hat.
    apply (reads_result _ _ _ _ _ _ _ _ 0 H). lia. }
  destruct (ch =? KIND_NEG_INTEGER K).
  { unfold read_int. through_read read_plain_int_reads Hat.
    apply (reads_result _ _ _ _ _ _ _ _ 0 H). lia. }
  destruct (ch =? KIND_BOOL K).
  { through_read read_plain_int_reads Hat.
    apply (reads_result _ _ _ _ _ _ _ _ 0 H). lia. }
  destruct (ch =? KIND_BLOB K).
  { through_read read_str_reads Hat.
    apply (reads_result _ _ _ _ _ _ _ _ 0 H). lia. }
  destruct (ch =? KIND_TEXT K).
  { through_read read_str_reads Hat. unfold PyUnicode_DecodeUTF8.
    destruct (utf8_valid _); cbn [bind]; [|reflexivity].
    apply (reads_result _ _ _ _ _ _ _ _ 0 H). lia. }
  destruct ((ch =? KIND_NEG_TIME K) || (ch =? KIND_TIME K)); [reflexivity|].
  destruct (ch =? KIND_UUID K).
  { through_read read_str_reads Hat. unfold UUID_call.
    destruct (len _ =? 16); cbn [bind]; [|reflexivity].
    apply (reads_result _ _ _ _ _ _ _ _ 0 H). lia. }
  destruct (ch =? KIND_SEP K); [apply Hhere | reflexivity].
Qed.

Lemma unpack_loop_reads (fuel : nat) :
  forall (rdr : reader) (tup : list PyObject) (pre rest : bytes),
  reader_at rdr pre rest -> len rest <= Z.of_nat fuel ->
  reads (unpack_loop fuel rdr tup) pre rest (Z.min 1 (len rest)).
Proof.
  assert (Hend : forall fuel rdr tup pre,
            reader_at rdr pre [] -> reads (unpack_loop fuel rdr tup) pre [] 0).
  { intros f rdr tup pre Hat. rewrite unpack_loop_unfold, (reader_at_end _ _ Hat).
    apply (reads_ok _ _ _ pre [] [] [] 0); [|reflexivity|reflexivity].
    rewrite app_nil_r. exact Hat. }
  induction fuel as [|fuel IH]; intros rdr tup pre rest Hat Hf.
  - destruct rest as [|ch rest]; [|rewrite len_cons in Hf; pose proof (len_nonneg rest); lia].
    apply Hend. exact Hat.
  - destruct rest as [|ch rest]; [apply Hend; exact Hat|].
    rewrite unpack_loop_unfold, (reader_at_more _ _ _ _ Hat).
    destruct (reader_getc_at _ _ _ _ Hat) as [Hg Hat1]. rewrite Hg. clear Hg.
    rewrite len_cons in *. pose proof (len_nonneg rest) as Hl.
    rewrite Z.min_l by lia.
    pose proof (unpack_switch_reads ch _ _ _ Hat1) as H.
    destruct (unpack_switch ch (reader_advance rdr 1)) as [[arg r1]|e];
      cbn [bind]; cbv beta iota; [|exact H].
    destruct H as (x & rest' & -> & _ & Hat2).
    rewrite len_app in Hf. pose proof (len_nonneg x) as Hx.
    change (ch :: x ++ rest') with (([ch] ++ x) ++ rest').
    rewrite <- app_assoc in Hat2.
    destruct arg as [arg|].
    + apply (reads_after _ _ pre ([ch] ++ x) rest' (Z.min 1 (len rest'))).
      * apply IH; [exact Hat2 | lia].
      * rewrite len_app. change (len [ch]) with 1. pose proof (len_nonneg rest'). lia.
    + apply (reads_ok _ _ _ pre _ ([ch] ++ x) rest' 1 Hat2); [reflexivity|].
      rewrite len_app. change (len [ch]) with 1. lia.
Qed.

Lemma unpack_reads (rdr : reader) (pre rest : bytes) :
  reader_at rdr pre rest -> reads (unpack rdr) pre rest (Z.min 1 (len rest)).
Proof.
  intros Hat. unfold unpack.
  pose proof (unpack_loop_reads (Z.to_nat (r_size rdr - r_pos rdr)) rdr [] pre rest Hat) as H.
  rewrite (reader_at_remaining _ _ _ Hat) in *. pose proof (len_nonneg rest).
  specialize (H ltac:(lia)).
  destruct (unpack_loop _ rdr []) as [[tup r]|e]; cbn [bind]; cbv beta iota; [|exact H].
  apply (reads_result _ _ _ _ _ _ _ _ _ H). lia.
Qed.

Lemma unpacks_loop_errors (fuel : nat) :
  forall (rdr : reader) (tups : list PyObject) (pre rest : bytes) (e : PyExc),
  reader_at rdr pre rest -> len rest <= Z.of_nat fuel ->
  unpacks_loop fuel rdr tups = Raise e -> decoder_error e = true.
Proof.
  induction fuel as [|fuel IH]; intros rdr tups pre rest e Hat Hf;
    rewrite unpacks_loop_unfold.
  - destruct rest as [|ch rest]; [|rewrite len_cons in Hf; pose proof (len_nonneg rest); lia].
    rewrite (reader_at_end _ _ Hat). discriminate.
  - destruct rest as [|ch rest]; [rewrite (reader_at_end _ _ Hat); discriminate|].
    rewrite (reader_at_more _ _ _ _ Hat).
    pose proof (unpack_reads _ _ _ Hat) as H.
    rewrite len_cons in *. pose proof (len_nonneg rest) as Hl.
    rewrite Z.min_l in H by lia.
    destruct (unpack rdr) as [[tup r1]|e1]; cbn [bind]; cbv beta iota.
    + destruct H as (x & rest' & He & Hx & Hat1).
      apply (IH r1 (tups ++ [tup]) (pre ++ x) rest' e Hat1).
      assert (Hlen : 1 + len rest = len x + len rest').
      { rewrite <- len_app, <- He. symmetry. apply len_cons. }
      lia.
    + intros He. injection He as <-. exact H.
Qed.

Lemma reader_behind_prefix (prefix s : bytes) :
  len prefix <= len s ->
  reader_at (reader_advance (reader_init s (len s)) (len prefix))
    (firstn (length prefix) s) (skipn (length prefix) s).
Proof.
  intros Hl. unfold reader_at, reader_advance, reader_init. cbn [r_p r_size r_pos].
  rewrite firstn_skipn. split; [reflexivity|]. split; [reflexivity|].
  unfold len in *. rewrite firstn_length_le by lia. lia.
Qed.

(** X7. The decoder stays inside its input.  On every prefix and every
    byte string, key or not, [unpack] and [unpacks] come to an end, and they
    return a value or raise one of [ValueError], [SystemError],
    [UnicodeDecodeError], or abort at a timestamp tag: no unchecked read of
    the reader and no unchecked store of the writer falls outside its
    buffer, and no loop runs for ever. *)
Theorem decoder_stays_inside_the_input (prefix s : bytes) (e : PyExc) :
  (py_unpack prefix s = Raise e -> decoder_error e = true) /\
  (unpacks prefix s = Raise e -> decoder_error e = true).
Proof.
  unfold py_unpack, unpacks. cbv zeta.
  destruct (Z.ltb_spec (len s) (len prefix)) as [Hlt|Hge].
  { split; intros He; injection He as <-; reflexivity. }
  destruct (negb (memcmp prefix s (Z.to_nat (len prefix)) =? 0)).
  { split; discriminate. }
  pose proof (reader_behind_prefix prefix s Hge) as Hat.
  set (rdr := reader_advance (reader_init s (len s)) (len prefix)) in *.
  split.
  - pose proof (unpack_reads _ _ _ Hat) as H.
    destruct (unpack rdr) as [[tup r]|e1]; cbn [bind]; cbv beta iota; [discriminate|].
    intros He. injection He as <-. exact H.
  - destruct (unpacks_loop (Z.to_nat (r_size rdr - r_pos rdr)) rdr []) as [l|e1] eqn:Hl;
      cbn [bind]; [discriminate|].
    intros He. injection He as <-.
    apply (unpacks_loop_errors (Z.to_nat (r_size rdr - r_pos rdr)) rdr [] _ _ e1 Hat);
      [|exact Hl].
    rewrite (reader_at_remaining _ _ _ Hat).
    pose proof (len_nonneg (skipn (length prefix) s)). lia.
Qed.

(** ** Tags the decoder does not take *)

(** The tuple decoder on the encoding of plain elements, whatever
    follows them: it stores their decodings and goes on behind them. *)
Lemma unpack_loop_items (tup : list PyObject) :
  forall (fuel : nat) (rdr : reader) (acc : list PyObject) (pre post : bytes),
  forallb plain_element tup = true ->
  reader_at rdr pre (key_bytes tup ++ post) ->
  len (key_bytes tup ++ post) <= Z.of_nat fuel ->
  exists rdr' fuel',
    unpack_loop fuel rdr acc =
      (xs <- decode_items (len pre) tup ;; unpack_loop fuel' rdr' (acc ++ xs)) /\
    reader_at rdr' (pre ++ key_bytes tup) post /\
    len post <= Z.of_nat fuel'.
Proof.
  induction tup as [|arg tup IH]; intros fuel rdr acc pre post Hp Hat Hfuel.
  - cbn [key_bytes app decode_items bind] in *. exists rdr, fuel.
    rewrite !app_nil_r. auto.
  - cbn [forallb] in Hp. apply andb_true_iff in Hp. destruct Hp as [Ha Hp].
    cbn [key_bytes decode_items] in *. rewrite <- app_assoc in Hat.
    destruct (unpack_element_plain arg rdr pre _ Ha Hat) as (ch & rdr1 & rdr2 & Hg & Hsw & Hat2).
    pose proof (value_bytes_nonempty arg Ha) as Hne.
    rewrite <- app_assoc, len_app in Hfuel.
    pose proof (len_nonneg (key_bytes tup ++ post)) as Hrest.
    assert (Hmore : (r_pos rdr <? r_size rdr) = true).
    { destruct (value_bytes arg) as [|b0 l0]; [cbn in Hne; lia|].
      apply (reader_at_more _ _ _ _ Hat). }
    rewrite unpack_loop_unfold, Hmore.
    destruct fuel as [|fuel]; [lia|].
    rewrite Hg, Hsw.
    destruct (decode_of (len pre) arg) as [x|e]; cbn [bind].
    + destruct (IH fuel rdr2 (acc ++ [x]) (pre ++ value_bytes arg) post Hp Hat2)
        as (rdr' & fuel' & Hrun & Hat' & Hf'); [lia|].
      exists rdr', fuel'. split; [|split; [rewrite <- !app_assoc in *; exact Hat' | exact Hf']].
      rewrite Hrun, len_app.
      destruct (decode_items (len pre + len (value_bytes arg)) tup) as [xs|e];
        [|reflexivity].
      cbn [bind]. rewrite <- app_assoc. reflexivity.
    + destruct (IH fuel rdr2 acc (pre ++ value_bytes arg) post Hp Hat2)
        as (rdr' & fuel' & _ & Hat' & Hf'); [lia|].
      exists rdr', fuel'. split; [reflexivity|].
      split; [rewrite <- !app_assoc in *; exact Hat' | exact Hf'].
Qed.

Lemma behind_prefix (prefix e : bytes) :
  (len (prefix ++ e) <? len prefix) = false /\
  negb (memcmp prefix (prefix ++ e) (Z.to_nat (len prefix)) =? 0) = false.
Proof.
  pose proof (len_nonneg e) as He. split.
  - apply Z.ltb_ge. rewrite len_app. lia.
  - replace (memcmp prefix (prefix ++ e) (Z.to_nat (len prefix))) with 0; [reflexivity|].
    symmetry. apply memcmp_prefix; [rewrite len_app; lia | apply is_prefix_app].
Qed.

Lemma unpack_switch_unknown (ch : Z) (rdr : reader) :
  ~ In ch (kind_list K) -> unpack_switch ch rdr = Raise ValueError.
Proof.
  intros Hnot. unfold unpack_switch.
  repeat match goal with
  | |- context [ch =? ?k] =>
      destruct (Z.eqb_spec ch k) as [He|_];
      [exfalso; apply Hnot; rewrite He; kind_in|]
  end.
  reflexivity.
Qed.

(** The decoders behind plain elements that decode, at a byte that the
    switch of [unpack] answers with an exception. *)
Lemma unpack_loop_raises (items : list PyObject) (fuel : nat) (rdr : reader)
  (acc : list PyObject) (pre : bytes) (ch : Z) (rest : bytes) (e : PyExc) :
  forallb decodable items = true ->
  reader_at rdr pre (key_bytes items ++ ch :: rest) ->
  len (key_bytes items ++ ch :: rest) <= Z.of_nat fuel ->
  (forall r, unpack_switch ch r = Raise e) ->
  unpack_loop fuel rdr acc = Raise e.
Proof.
  intros Hd Hat Hf Hsw.
  destruct (unpack_loop_items items fuel rdr acc pre (ch :: rest)
              (forallb_decodable_plain items Hd) Hat Hf)
    as (rdr' & fuel' & -> & Hat' & Hf').
  destruct (decode_items_decodable items (len pre) Hd) as (xs & ->). cbn [bind].
  rewrite unpack_loop_unfold, (reader_at_more _ _ _ _ Hat').
  destruct fuel' as [|fuel'];
    [rewrite len_cons in Hf'; pose proof (len_nonneg rest); lia|].
  destruct (reader_getc_at _ _ _ _ Hat') as [-> _].
  rewrite Hsw. reflexivity.
Qed.

Lemma decoders_raise (prefix : bytes) (items : list PyObject) (ch : Z) (rest : bytes)
  (e : PyExc) :
  forallb decodable items = true ->
  (forall r, unpack_switch ch r = Raise e) ->
  py_unpack prefix (prefix ++ key_bytes items ++ ch :: rest) = Raise e /\
  unpacks prefix (prefix ++ key_bytes items ++ ch :: rest) = Raise e.
Proof.
  intros Hd Hsw. unfold py_unpack, unpacks. cbv zeta.
  destruct (behind_prefix prefix (key_bytes items ++ ch :: rest)) as [-> ->].
  pose proof (reader_at_init prefix (key_bytes items ++ ch :: rest)) as Hat.
  set (rdr := reader_advance _ _) in *.
  pose proof (reader_at_remaining _ _ _ Hat) as Hrem.
  assert (Hlen : 1 <= len (key_bytes items ++ ch :: rest)).
  { rewrite len_app, len_cons.
    pose proof (len_nonneg (key_bytes items)). pose proof (len_nonneg rest). lia. }
  assert (Hun : unpack rdr = Raise e).
  { unfold unpack.
    rewrite (unpack_loop_raises items _ rdr [] prefix ch rest e Hd Hat); [reflexivity | | exact Hsw].
    rewrite Hrem. lia. }
  split.
  - rewrite Hun. reflexivity.
  - rewrite unpacks_loop_unfold.
    assert (Hmore : (r_pos rdr <? r_size rdr) = true) by (apply Z.ltb_lt; lia).
    rewrite Hmore, Hrem.
    destruct (Z.to_nat (len (key_bytes items ++ ch :: rest))) as [|n] eqn:Hn; [lia|].
    rewrite Hun. reflexivity.
Qed.

(** X8. A byte that is no tag is a [ValueError].  Behind the key of a
    tuple of elements that decode, a byte that is none of the ten tags makes
    [unpack] and [unpacks] raise [ValueError], whatever follows that
    byte. *)
Theorem unknown_tag_is_a_value_error (prefix : bytes) (items : list PyObject)
  (ch : Z) (rest : bytes) :
  forallb decodable items = true -> ~ In ch (kind_list K) ->
  exists key,
    packs [PyString prefix; PyTuple items] = Ok key /\
    py_unpack prefix (key ++ ch :: rest) = Raise ValueError /\
    unpacks prefix (key ++ ch :: rest) = Raise ValueError.
Proof.
  intros Hd Hnot. exists (prefix ++ key_bytes items).
  split; [apply packs_tuple, forallb_decodable_plain; exact Hd|].
  rewrite <- app_assoc. apply decoders_raise; [exact Hd|].
  intros r. apply unpack_switch_unknown. exact Hnot.
Qed.

Lemma write_int_tagged (w : writer) (v kind : Z) :
  room w 0 -> In kind (kind_list K) ->
  exists w', write_int w v kind = Ok w' /\ extends w w' (kind :: varint v).
Proof.
  intros Hr Hk. destruct (write_int_ok w v kind Hr) as (w' & Hw & He).
  exists w'. split; [exact Hw|].
  destruct (tag_kind kind Hk) as [Ht Hu]. rewrite Ht, Hu in He. exact He.
Qed.

(** X9. A timestamp that [pack] has written cannot be read back.  For
    every datetime, when [pack] returns a key, either the offset was taken
    for a failure and the key is the bare prefix, or the key carries a
    timestamp tag, and then [unpack] and [unpacks] end in the [assert(0)] of
    [read_time]. *)
Theorem packed_timestamp_is_not_decoded (prefix : bytes) (dt : datetime) (s : bytes) :
  packs [PyString prefix; PyDateTime dt] = Ok s ->
  (get_utcoffset_secs dt = -1 /\ s = prefix) \/
  (py_unpack prefix s = Raise Aborted /\ unpacks prefix s = Raise Aborted).
Proof.
  unfold packs.
  destruct (writer_init_ok 20 ltac:(lia)) as (w0 & -> & Hr0 & Hw0). cbn [bind].
  destruct (writer_puts_ok w0 prefix Hr0) as (w1 & -> & Hr1 & Hw1). cbn [bind].
  rewrite Hw0 in Hw1. cbn [app] in Hw1.
  cbn [c_encode_value]. unfold write_time. cbv zeta.
  destruct (Z.eqb_spec (get_utcoffset_secs dt) (-1)) as [Hoff|_].
  { cbn [bind]. rewrite (writer_fini_ok w1 Hr1), Hw1.
    intros Hs. injection Hs as <-. left. split; [exact Hoff | reflexivity]. }
  destruct (negb _); [discriminate|].
  assert (Htag : forall v kind, kind = KIND_NEG_TIME K \/ kind = KIND_TIME K ->
            (w <- write_int w1 v kind ;; writer_fini w) = Ok s ->
            py_unpack prefix s = Raise Aborted /\ unpacks prefix s = Raise Aborted).
  { intros v kind Hk.
    destruct (write_int_tagged w1 v kind Hr1) as (w2 & -> & Hr2 & Hw2).
    { destruct Hk as [-> | ->]; kind_in. }
    cbn [bind]. rewrite (writer_fini_ok w2 Hr2), Hw2, Hw1.
    intros Hs. injection Hs as <-.
    apply (decoders_raise prefix [] kind (varint v) Aborted); [reflexivity|].
    intros r. apply unpack_switch_time. exact Hk. }
  destruct (_ <? 0); intros Hs; right; eapply Htag; try exact Hs; auto.
Qed.

(** ** How [pack] composes *)

(** X10. [pack] takes a single element for the tuple of that element:
    for every value that is not a list, [pack(prefix, x)] and
    [pack(prefix, tuplize(x))] are the same, result or exception. *)
Theorem pack_wraps_a_single_element (prefix : bytes) (arg : PyObject) :
  (forall items, arg <> PyList items) ->
  packs [PyString prefix; arg] = packs [PyString prefix; tuplize arg].
Proof.
  intros Hnl.
  assert (Hone : forall w, c_encode_key w [arg] = c_encode_value w arg).
  { intros w. cbn [c_encode_key]. destruct (c_encode_value w arg); reflexivity. }
  destruct arg; try reflexivity;
    try (unfold packs, tuplize; destruct (writer_init 20) as [w0|]; [|reflexivity];
         cbn [bind]; destruct (writer_puts w0 prefix) as [w1|]; [|reflexivity];
         cbn [bind]; rewrite Hone; reflexivity).
  exfalso. apply (Hnl items). reflexivity.
Qed.

Lemma key_bytes_app (a b : list PyObject) :
  key_bytes (a ++ b) = key_bytes a ++ key_bytes b.
Proof.
  induction a as [|x a IH]; [reflexivity|].
  cbn [app key_bytes]. rewrite IH. apply app_assoc.
Qed.

Lemma forallb_plain_app (a b : list PyObject) :
  forallb plain_element a = true -> forallb plain_element b = true ->
  forallb plain_element (a ++ b) = true.
Proof. intros Ha Hb. rewrite forallb_app, Ha, Hb. reflexivity. Qed.

(** X11. The key of a tuple extends the key of its front.  For tuples
    [a] and [b] of integers, strings, texts, UUIDs, booleans and [None],
    [pack(prefix, a + b)] is [pack(pack(prefix, a), b)]: the key of [a] is a
    prefix of the key of every tuple that starts with [a]. *)
Theorem key_of_a_tuple_extends_the_key_of_its_front (prefix : bytes)
  (a b : list PyObject) :
  forallb plain_element a = true -> forallb plain_element b = true ->
  exists front whole,
    packs [PyString prefix; PyTuple a] = Ok front /\
    packs [PyString front; PyTuple b] = Ok whole /\
    packs [PyString prefix; PyTuple (a ++ b)] = Ok whole /\
    is_prefix front whole.
Proof.
  intros Ha Hb.
  exists (prefix ++ key_bytes a), ((prefix ++ key_bytes a) ++ key_bytes b).
  split; [apply packs_tuple; exact Ha|].
  split; [apply packs_tuple; exact Hb|].
  split; [|apply is_prefix_app].
  rewrite (packs_tuple prefix (a ++ b) (forallb_plain_app a b Ha Hb)), key_bytes_app.
  rewrite app_assoc. reflexivity.
Qed.

Lemma c_encode_key_app (a b : list PyObject) :
  forall w, c_encode_key w (a ++ b) = (w' <- c_encode_key w a ;; c_encode_key w' b).
Proof.
  induction a as [|x a IH]; intros w; [reflexivity|].
  cbn [app c_encode_key]. destruct (c_encode_value w x) as [w1|e]; [|reflexivity].
  cbn [bind]. apply IH.
Qed.

Lemma packs_raises_at (prefix : bytes) (pre : list PyObject) (x : PyObject)
  (post : list PyObject) (e : PyExc) :
  forallb plain_element pre = true ->
  (forall w, c_encode_value w x = Raise e) ->
  packs [PyString prefix; PyTuple (pre ++ x :: post)] = Raise e.
Proof.
  intros Hp Hx. unfold packs.
  destruct (writer_init_ok 20 ltac:(lia)) as (w0 & -> & Hr0 & _). cbn [bind].
  destruct (writer_puts_ok w0 prefix Hr0) as (w1 & -> & Hr1 & _). cbn [bind].
  rewrite c_encode_key_app.
  destruct (c_encode_key_plain pre w1 Hp Hr1) as (w2 & -> & _). cbn [bind].
  cbn [c_encode_key]. rewrite Hx. reflexivity.
Qed.

(** X12. What [pack] refuses inside a tuple.  Behind any number of
    elements that it takes, a tuple or a list as an item is a [TypeError]
    (keys do not nest), and a Python long outside the range of a 64-bit
    signed integer is an [OverflowError]; nothing is returned. *)
Theorem pack_refuses_nested_and_oversized_items (prefix : bytes)
  (pre post : list PyObject) :
  forallb plain_element pre = true ->
  (forall x, is_element x = false ->
     packs [PyString prefix; PyTuple (pre ++ x :: post)] = Raise TypeError) /\
  (forall v, v < - 2 ^ 63 \/ 2 ^ 63 <= v ->
     packs [PyString prefix; PyTuple (pre ++ PyLong v :: post)] = Raise OverflowError).
Proof.
  intros Hp. split.
  - intros x Hx. apply packs_raises_at; [exact Hp|].
    intros w. destruct x; try discriminate Hx; reflexivity.
  - intros v Hv. apply packs_raises_at; [exact Hp|].
    intros w. cbn [c_encode_value].
    destruct (Z.ltb_spec v (- 2 ^ 63)); [reflexivity|].
    destruct (Z.leb_spec (2 ^ 63) v); [reflexivity | lia].
Qed.

(** ** Batches, tuple by tuple *)

Lemma unpack_key_exact (t : list PyObject) (rdr : reader) (pre post : bytes) :
  forallb elem_roundtrips t = true ->
  reader_at rdr pre (key_bytes t ++ post) ->
  post = [] \/ (exists post', post = KIND_SEP K :: post') ->
  exists rdr',
    unpack rdr = Ok (decoded_tuple t, rdr') /\
    reader_at rdr' (pre ++ key_bytes t ++ firstn 1 post) (skipn 1 post).
Proof.
  intros Hrt Hat Hpost. unfold unpack.
  destruct (unpack_loop_key t (Z.to_nat (r_size rdr - r_pos rdr)) rdr [] pre post
              (forallb_roundtrips_plain t Hrt) Hat Hpost) as (rdr' & -> & Hat').
  { rewrite (reader_at_remaining _ _ _ Hat). lia. }
  rewrite (decode_items_roundtrips t (len pre) Hrt). cbn [bind app].
  exists rdr'. split; [reflexivity | exact Hat'].
Qed.

Lemma seps_shape (ts : list (list PyObject)) :
  seps ts = [] \/ exists post', seps ts = KIND_SEP K :: post'.
Proof.
  destruct ts as [|t ts]; [left; reflexivity|].
  right. cbn [seps flat_map app]. eexists. reflexivity.
Qed.

Lemma unpacks_loop_batch_exact (ts : list (list PyObject)) :
  forall (t : list PyObject) (fuel : nat) (rdr : reader) (acc : list PyObject) (pre : bytes),
  forallb (forallb elem_roundtrips) (t :: ts) = true ->
  last (t :: ts) [] <> [] ->
  reader_at rdr pre (key_bytes t ++ seps ts) ->
  len (key_bytes t ++ seps ts) <= Z.of_nat fuel ->
  unpacks_loop fuel rdr acc = Ok (acc ++ map decoded_tuple (t :: ts)).
Proof.
  induction ts as [|t' ts IH]; intros t fuel rdr acc pre Hd Hlast Hat Hfuel;
    cbn [forallb] in Hd; apply andb_true_iff in Hd; destruct Hd as [Ht Hd].
  - cbn [seps flat_map last] in *. rewrite unpacks_loop_unfold.
    destruct t as [|arg t]; [contradiction|].
    assert (Hplain : plain_element arg = true).
    { cbn [forallb] in Ht. apply andb_true_iff in Ht. apply elem_roundtrips_plain, Ht. }
    pose proof (key_bytes_nonempty arg t Hplain) as Hne.
    rewrite app_nil_r in Hfuel.
    assert (Hmore : (r_pos rdr <? r_size rdr) = true).
    { destruct (key_bytes (arg :: t)) as [|b0 l0]; [cbn in Hne; lia|].
      apply (reader_at_more _ _ _ _ Hat). }
    rewrite Hmore. destruct fuel as [|fuel]; [lia|].
    destruct (unpack_key_exact _ _ _ _ Ht Hat (or_introl eq_refl)) as (rdr' & -> & Hat').
    cbn [bind firstn skipn] in *. rewrite unpacks_loop_unfold, (reader_at_end _ _ Hat').
    reflexivity.
  - cbn [seps flat_map app] in *. fold (seps ts) in *.
    rewrite unpacks_loop_unfold.
    assert (Hmore : (r_pos rdr <? r_size rdr) = true).
    { destruct (key_bytes t) as [|b0 l0]; cbn [app] in Hat;
        apply (reader_at_more _ _ _ _ Hat). }
    rewrite Hmore.
    rewrite len_app, len_cons in Hfuel.
    pose proof (len_nonneg (key_bytes t)) as Hk.
    pose proof (len_nonneg (key_bytes t' ++ seps ts)) as Hrest.
    destruct fuel as [|fuel]; [lia|].
    destruct (unpack_key_exact t rdr pre (KIND_SEP K :: key_bytes t' ++ seps ts) Ht Hat
                (or_intror (ex_intro _ _ eq_refl))) as (rdr' & -> & Hat').
    cbn [bind firstn skipn] in *.
    rewrite (IH t' fuel rdr' (acc ++ [decoded_tuple t]) _ Hd Hlast Hat' ltac:(lia)).
    rewrite <- app_assoc. reflexivity.
Qed.

Lemma roundtrips_batch_plain (ts : list (list PyObject)) :
  forallb (forallb elem_roundtrips) ts = true ->
  forallb (forallb plain_element) ts = true.
Proof.
  rewrite !forallb_forall. intros H t Ht. apply forallb_roundtrips_plain, H, Ht.
Qed.

(** X13. [unpack] on a batch gives its first tuple.  For a list of
    tuples whose first tuple is made of elements that come back as they
    were, [unpack(prefix, packs(prefix, [t, ...]))] is [t]: the decoder stops
    at the first separator, and the tuples behind it are not looked at. *)
Theorem unpack_gives_the_first_tuple_of_a_batch (prefix : bytes)
  (t : list PyObject) (ts : list (list PyObject)) :
  forallb elem_roundtrips t = true ->
  forallb (forallb plain_element) ts = true ->
  exists s,
    packs [PyString prefix; PyList (map PyTuple (t :: ts))] = Ok s /\
    py_unpack prefix s = Ok (decoded_tuple t).
Proof.
  intros Ht Hts. exists (prefix ++ batch_bytes (t :: ts)). split.
  - apply packs_batch. cbn [forallb].
    rewrite (forallb_roundtrips_plain t Ht), Hts. reflexivity.
  - unfold py_unpack. cbv zeta. cbn [batch_bytes].
    destruct (behind_prefix prefix (key_bytes t ++ seps ts)) as [-> ->].
    pose proof (reader_at_init prefix (key_bytes t ++ seps ts)) as Hat.
    set (rdr := reader_advance _ _) in *.
    destruct (unpack_key_exact t rdr prefix (seps ts) Ht Hat (seps_shape ts))
      as (rdr' & -> & _).
    reflexivity.
Qed.

Lemma last_default (A : Type) (l : list A) (d d' : A) :
  l <> [] -> last l d = last l d'.
Proof.
  induction l as [|x l IH]; [contradiction|]. intros _.
  destruct l as [|y l]; [reflexivity|].
  change (last (x :: y :: l) d) with (last (y :: l) d).
  change (last (x :: y :: l) d') with (last (y :: l) d').
  apply IH. discriminate.
Qed.

(** X14. The round trip of a batch.  For a list of tuples of elements
    that come back as they were, empty tuples included but not in the last
    place, [unpacks(prefix, packs(prefix, ts))] is the list of the same
    tuples in the same order, the integers read back as longs. *)
Theorem batch_round_trip (prefix : bytes) (ts : list (list PyObject)) :
  forallb (forallb elem_roundtrips) ts = true ->
  last ts [PyNone] <> [] ->
  exists s,
    packs [PyString prefix; PyList (map PyTuple ts)] = Ok s /\
    unpacks prefix s = Ok (PyList (map decoded_tuple ts)).
Proof.
  intros Hrt Hlast. exists (prefix ++ batch_bytes ts).
  split; [apply packs_batch, roundtrips_batch_plain; exact Hrt|].
  unfold unpacks. cbv zeta.
  destruct (behind_prefix prefix (batch_bytes ts)) as [-> ->].
  pose proof (reader_at_init prefix (batch_bytes ts)) as Hat.
  set (rdr := reader_advance _ _) in *.
  destruct ts as [|t ts].
  - cbn [batch_bytes] in Hat. rewrite unpacks_loop_unfold, (reader_at_end _ _ Hat).
    reflexivity.
  - rewrite (last_default _ (t :: ts) [PyNone] []) in Hlast by discriminate.
    cbn [batch_bytes] in Hat.
    rewrite (unpacks_loop_batch_exact ts t _ rdr [] prefix Hrt Hlast Hat); [reflexivity|].
    rewrite (reader_at_remaining _ _ _ Hat). lia.
Qed.

(** ** The order of strings of one length *)

Ltac closed_pow :=
  repeat match goal with
  | |- context [2 ^ ?e] =>
      lazymatch e with
      | Zpos _ => fail
      | _ => let v := eval vm_compute in e in
             lazymatch v with Zpos _ => change e with v end
      end
  | H : context [2 ^ ?e] |- _ =>
      lazymatch e with
      | Zpos _ => fail
      | _ => let v := eval vm_compute in e in
             lazymatch v with Zpos _ => change e with v in H end
      end
  end; norm_pow.

Ltac each_shift s :=
  let H := fresh "H" in
  assert (H : s = 1 \/ s = 2 \/ s = 3 \/ s = 4 \/ s = 5 \/ s = 6 \/ s = 7) by lia;
  destruct H as [->|[->|[->|[->|[->|[->| ->]]]]]].

Lemma str_from_nil (s t : Z) : str_from [] s t = str_tail s t.
Proof. reflexivity. Qed.

Lemma str_from_cons (o : Z) (p : bytes) (s t : Z) :
  str_from (o :: p) s t =
  u8 (Z.lor (Z.lor 128 t) (Z.shiftr o s)) ::
  (if s <? 7 then str_from p (s + 1) (u8 (Z.shiftl o (7 - s)))
   else u8 (Z.lor 128 o) :: str_from p 1 0).
Proof.
  unfold str_from. rewrite str_loop_cons. destruct (s <? 7).
  - destruct (str_loop p (s + 1) (u8 (Z.shiftl o (7 - s)))) as [[out s'] t']. reflexivity.
  - destruct (str_loop p 1 0) as [[out s'] t']. reflexivity.
Qed.

Lemma lor_128 (t : Z) : 0 <= t < 256 -> Z.lor 128 t = 128 + t mod 128.
Proof.
  clear uninit utf8_valid timegm host_utcoffset.
  intros Ht. destruct (Z.lt_ge_cases t 128) as [Hlt|Hge].
  - rewrite (lor_disjoint 128 t 7) by (try reflexivity; norm_pow; lia).
    rewrite Z.mod_small by lia. reflexivity.
  - rewrite lor_128_high; [dlia|].
    apply Z.testbit_true; [lia|]. dlia.
Qed.

Lemma emitted_value (s t o : Z) :
  1 <= s <= 7 -> trailer_at s t -> 0 <= o < 256 ->
  u8 (Z.lor (Z.lor 128 t) (Z.shiftr o s)) = 128 + t mod 128 + o / 2 ^ s.
Proof.
  clear uninit utf8_valid timegm host_utcoffset.
  intros Hs [Ht Hm] Ho. rewrite lor_128 by lia. rewrite Z.shiftr_div_pow2 by lia.
  rewrite (lor_disjoint _ _ (8 - s));
    [apply u8_small | lia | |]; each_shift s; closed_pow; dlia.
Qed.

Lemma full_byte_value (o : Z) : 0 <= o < 256 -> u8 (Z.lor 128 o) = 128 + o mod 128.
Proof.
  clear uninit utf8_valid timegm host_utcoffset.
  intros Ho. rewrite lor_128 by lia. apply u8_small. dlia.
Qed.

Lemma next_trailer (s o : Z) :
  1 <= s <= 6 -> 0 <= o < 256 ->
  u8 (Z.shiftl o (7 - s)) = (o mod 2 ^ (s + 1)) * 2 ^ (7 - s) /\
  trailer_at (s + 1) (u8 (Z.shiftl o (7 - s))).
Proof.
  clear uninit utf8_valid timegm host_utcoffset.
  intros Hs Ho. rewrite Z.shiftl_mul_pow2 by lia. unfold trailer_at, u8.
  replace (8 - (s + 1)) with (7 - s) by lia.
  each_shift s; try lia; closed_pow; repeat split; dlia.
Qed.

Lemma emitted_compare (s ta tb x y : Z) :
  1 <= s <= 7 -> trailer_at s ta -> trailer_at s tb -> ta / 128 = tb / 128 ->
  0 <= x < 256 -> 0 <= y < 256 ->
  (128 + ta mod 128 + x / 2 ^ s <? 128 + tb mod 128 + y / 2 ^ s)
    = (ta <? tb) || ((ta =? tb) && (x / 2 ^ s <? y / 2 ^ s)) /\
  (128 + ta mod 128 + x / 2 ^ s =? 128 + tb mod 128 + y / 2 ^ s)
    = (ta =? tb) && (x / 2 ^ s =? y / 2 ^ s).
Proof.
  clear uninit utf8_valid timegm host_utcoffset.
  intros Hs [Hta Hma] [Htb Hmb] Hbit Hx Hy.
  each_shift s; closed_pow; Z.div_mod_to_equations;
    split;
    repeat match goal with
    | |- context [?a <? ?b] => destruct (Z.ltb_spec a b)
    | |- context [?a =? ?b] => destruct (Z.eqb_spec a b)
    end; cbn [andb orb]; try reflexivity; exfalso; lia.
Qed.

Lemma trailer_compare (s x y : Z) :
  1 <= s <= 6 -> 0 <= x < 256 -> 0 <= y < 256 -> x / 2 ^ s = y / 2 ^ s ->
  ((x mod 2 ^ (s + 1)) * 2 ^ (7 - s) <? (y mod 2 ^ (s + 1)) * 2 ^ (7 - s)) = (x <? y) /\
  ((x mod 2 ^ (s + 1)) * 2 ^ (7 - s) =? (y mod 2 ^ (s + 1)) * 2 ^ (7 - s)) = (x =? y) /\
  (x mod 2 ^ (s + 1)) * 2 ^ (7 - s) / 128 = (y mod 2 ^ (s + 1)) * 2 ^ (7 - s) / 128.
Proof.
  clear uninit utf8_valid timegm host_utcoffset.
  intros Hs Hx Hy Hq.
  each_shift s; try lia; closed_pow; Z.div_mod_to_equations;
    repeat split;
    repeat match goal with
    | |- context [?a <? ?b] => destruct (Z.ltb_spec a b)
    | |- context [?a =? ?b] => destruct (Z.eqb_spec a b)
    end; try reflexivity; try (exfalso; lia); lia.
Qed.

Lemma quotient_order (s x y : Z) :
  1 <= s <= 7 -> 0 <= x < 256 -> 0 <= y < 256 -> x / 2 ^ s <> y / 2 ^ s ->
  (x / 2 ^ s <? y / 2 ^ s) = (x <? y) /\ (x =? y) = false.
Proof.
  clear uninit utf8_valid timegm host_utcoffset.
  intros Hs Hx Hy Hq.
  each_shift s; closed_pow; Z.div_mod_to_equations; split;
    repeat match goal with
    | |- context [?a <? ?b] => destruct (Z.ltb_spec a b)
    | |- context [?a =? ?b] => destruct (Z.eqb_spec a b)
    end; try reflexivity; exfalso; lia.
Qed.

Lemma last_byte_compare (x y : Z) :
  0 <= x < 256 -> 0 <= y < 256 -> x / 2 ^ 7 = y / 2 ^ 7 ->
  (128 + x mod 128 <? 128 + y mod 128) = (x <? y) /\
  (128 + x mod 128 =? 128 + y mod 128) = (x =? y).
Proof.
  clear uninit utf8_valid timegm host_utcoffset.
  intros Hx Hy Hq. closed_pow. Z.div_mod_to_equations. split;
    repeat match goal with
    | |- context [?a <? ?b] => destruct (Z.ltb_spec a b)
    | |- context [?a =? ?b] => destruct (Z.eqb_spec a b)
    end; try reflexivity; exfalso; lia.
Qed.

Lemma trailer_at_start : trailer_at 1 0.
Proof. split; [lia | reflexivity]. Qed.

Lemma str_from_order (a : bytes) :
  forall b s ta tb,
  length a = length b -> is_bytes a = true -> is_bytes b = true ->
  1 <= s <= 7 -> trailer_at s ta -> trailer_at s tb -> ta / 128 = tb / 128 ->
  lex_lt (str_from a s ta) (str_from b s tb) = (ta <? tb) || ((ta =? tb) && lex_lt a b).
Proof.
  clear uninit utf8_valid timegm host_utcoffset.
  induction a as [|x a IH]; intros [|y b] s ta tb Hl Ha Hb Hs Hta Htb Hbit;
    try discriminate Hl.
  - rewrite (str_from_nil s ta), (str_from_nil s tb). unfold str_tail.
    change (lex_lt [] []) with false. rewrite andb_false_r, orb_false_r.
    destruct (Z.gtb_spec s 1) as [Hgt|Hle].
    + destruct (Z.eqb_spec ta 0), (Z.eqb_spec tb 0); cbv [negb lex_lt];
        destruct (Z.ltb_spec ta tb), (Z.eqb_spec ta tb); cbv [andb orb];
        try reflexivity; exfalso; lia.
    + rewrite lex_lt_irrefl. symmetry. apply Z.ltb_ge.
      assert (s = 1) by lia. subst s.
      destruct Hta as [Hta Hma], Htb as [Htb Hmb]. revert Hma Hmb.
      closed_pow. intros Hma Hmb. dlia.
  - apply is_bytes_cons in Ha. destruct Ha as [Hx Ha].
    apply is_bytes_cons in Hb. destruct Hb as [Hy Hb].
    injection Hl as Hl.
    rewrite !str_from_cons, !emitted_value by assumption.
    cbn [lex_lt].
    destruct (emitted_compare s ta tb x y Hs Hta Htb Hbit Hx Hy) as [-> ->].
    destruct (Z.eqb_spec ta tb) as [Het|Hnt]; cbn [andb orb];
      [|rewrite ?andb_false_r, ?orb_false_r; reflexivity].
    rewrite (proj2 (Z.ltb_ge ta tb) ltac:(lia)). cbn [orb].
    destruct (Z.eqb_spec (x / 2 ^ s) (y / 2 ^ s)) as [Heq|Hnq]; cbn [andb].
    2:{ destruct (quotient_order s x y Hs Hx Hy Hnq) as [-> ->].
        rewrite !orb_false_r. reflexivity. }
    rewrite (proj2 (Z.ltb_ge (x / 2 ^ s) (y / 2 ^ s)) ltac:(lia)). cbn [orb].
    destruct (Z.ltb_spec s 7) as [Hlt|Hge].
    + destruct (next_trailer s x ltac:(lia) Hx) as [Ex Vx].
      destruct (next_trailer s y ltac:(lia) Hy) as [Ey Vy].
      destruct (trailer_compare s x y ltac:(lia) Hx Hy Heq) as (Hlt' & Heq' & Hb7).
      rewrite (IH b (s + 1) _ _ Hl Ha Hb ltac:(lia) Vx Vy) by (rewrite Ex, Ey; exact Hb7).
      rewrite Ex, Ey, Hlt', Heq'. reflexivity.
    + assert (s = 7) by lia. subst s.
      cbn [lex_lt]. rewrite !full_byte_value by assumption.
      destruct (last_byte_compare x y Hx Hy Heq) as [-> ->].
      rewrite (IH b 1 0 0 Hl Ha Hb ltac:(lia) trailer_at_start trailer_at_start eq_refl).
      cbn [Z.ltb Z.eqb Z.compare orb andb]. reflexivity.
Qed.

(** X15. Strings of one length sort as their bytes.  For two byte
    strings of the same length, encoded as strings, as texts or as UUIDs,
    [pack] under one prefix gives two keys whose unsigned byte-wise order is
    the byte-wise order of the strings.  All UUIDs have sixteen bytes, so
    keys of UUIDs sort as the UUIDs do. *)
Theorem strings_of_one_length_sort_as_their_bytes (prefix a b : bytes)
  (wrap : bytes -> PyObject) :
  wrap = PyString \/ wrap = PyUnicode \/ wrap = PyUUID ->
  is_bytes a = true -> is_bytes b = true -> length a = length b ->
  exists ea eb,
    packs [PyString prefix; wrap a] = Ok ea /\
    packs [PyString prefix; wrap b] = Ok eb /\
    lex_lt ea eb = lex_lt a b.
Proof.
  intros Hwrap Ha Hb Hl.
  assert (Hp : exists k, In k (kind_list K) /\
            forall p, packs [PyString prefix; wrap p] = Ok (prefix ++ k :: str_stream p)).
  { assert (Hany : forall k p arg, In k (kind_list K) -> is_element arg = true ->
              (forall w, c_encode_value w arg = write_str w p k) ->
              packs [PyString prefix; arg] = Ok (prefix ++ k :: str_stream p)).
    { intros k p arg Hk He Hc. apply packs_element; [exact He|].
      intros w Hw. rewrite Hc.
      destruct (write_str_ok w p k Hw) as (w' & Hw' & Hext).
      exists w'. split; [exact Hw'|].
      destruct (tag_kind k Hk) as [Ht Hu]. rewrite Ht, Hu in Hext. exact Hext. }
    destruct Hwrap as [-> | [-> | ->]].
    - exists (KIND_BLOB K). split; [kind_in|]. intros p. apply Hany; [kind_in | |]; reflexivity.
    - exists (KIND_TEXT K). split; [kind_in|]. intros p. apply Hany; [kind_in | |]; reflexivity.
    - exists (KIND_UUID K). split; [kind_in|]. intros p. apply Hany; [kind_in | |]; reflexivity. }
  destruct Hp as (k & _ & Hp).
  exists (prefix ++ k :: str_stream a), (prefix ++ k :: str_stream b).
  split; [apply Hp|]. split; [apply Hp|].
  rewrite lex_lt_app, lex_lt_tail.
  change (str_stream a) with (str_from a 1 0). change (str_stream b) with (str_from b 1 0).
  rewrite (str_from_order a b 1 0 0 Hl Ha Hb ltac:(lia) trailer_at_start trailer_at_start eq_refl).
  reflexivity.
Qed.

(** ** The varint decoder and the lead-byte table *)

Ltac bytes_in_range :=
  repeat match goal with
  | H : is_bytes (_ :: _) = true |- _ =>
      apply is_bytes_cons in H; let H1 := fresh "Hb" in destruct H as [H1 H]
  end.

Tactic Notation "payload_of_length" integer(n) :=
  match goal with
  | H : length ?p = _ |- _ =>
      do n (destruct p as [|? p]; [discriminate H|]);
      (destruct p; [clear H | discriminate H])
  end.

Ltac read_payload :=
  match goal with
  | |- exists rdr', read_plain_int (reader_init ?s (len ?s)) = _ /\ _ =>
      let Hat := fresh "Hat" in
      let Hg := fresh "Hg" in
      let Hat1 := fresh "Hat" in
      pose proof (reader_at_start s) as Hat; cbn [app] in Hat;
      unfold read_plain_int;
      destruct (reader_getc_at _ _ _ _ Hat) as [Hg Hat1]; cbn [app];
      rewrite Hg; clear Hg Hat;
      decide_ifs; cbv beta iota zeta;
      match goal with
      | Hat' : reader_at ?r ?pre' ?rest' |- context [reader_ensure ?r ?n] =>
          rewrite (reader_ensure_at r pre' rest' n Hat')
            by (rewrite ?len_cons; match goal with
                                   | |- context [len ?l] => pose proof (len_nonneg l)
                                   end; lia);
          cbn [bind]
      end;
      getchar_steps;
      eexists; split;
      [ do 2 f_equal
      | match goal with
        | Hat' : reader_at _ _ _ |- _ =>
            rewrite (reader_at_pos _ _ _ Hat'); rewrite ?len_app, ?len_cons;
            reflexivity
        end ]
  end.

(** X16. The varint decoder follows the lead-byte table for every form
    that has a payload, shortest or not.  For bytes [bs] with a lead byte
    above 240 to which the table gives the value [v], [read_plain_int]
    returns [v] and has read exactly [bs], whatever follows. *)
Theorem read_plain_int_follows_the_table (bs rest : bytes) (v : Z) :
  is_bytes bs = true -> 240 < hd 0 bs -> spec_decode bs = Some v ->
  exists rdr',
    read_plain_int (reader_init (bs ++ rest) (len (bs ++ rest))) = Ok (v, rdr') /\
    r_pos rdr' = len bs.
Proof.
  clear utf8_valid timegm host_utcoffset.
  intros Hb Hlead Hd. destruct bs as [|L payload]; [discriminate Hd|].
  cbn [hd] in Hlead. unfold spec_decode in Hd.
  destruct (Z.leb_spec L 240) as [|_]; [lia|].
  destruct (Z.leb_spec L 248) as [H248|H248].
  { destruct payload as [|P [|? ?]]; try discriminate Hd.
    apply some_inj in Hd. subst v. bytes_in_range.
    read_payload. bytes_arith. }
  destruct (Z.eqb_spec L 249) as [->|H249].
  { destruct payload as [|c1 [|c2 [|? ?]]]; try discriminate Hd.
    apply some_inj in Hd. subst v. bytes_in_range.
    unfold be_value. cbn [fold_left].
    read_payload. bytes_arith. }
  destruct (Z.leb_spec L 255) as [H255|]; [|discriminate Hd].
  destruct (Z.eqb_spec (len payload) (L - 247)) as [Hlen|]; [|discriminate Hd].
  apply some_inj in Hd. subst v.
  assert (Hn : length payload = Z.to_nat (L - 247)) by (unfold len in Hlen; lia).
  assert (HL : L = 250 \/ L = 251 \/ L = 252 \/ L = 253 \/ L = 254 \/ L = 255) by lia.
  clear Hlen H248 H249 H255 Hlead.
  destruct HL as [->|[->|[->|[->|[->| ->]]]]];
    [ change (Z.to_nat (250 - 247)) with 3%nat in Hn; payload_of_length 3
    | change (Z.to_nat (251 - 247)) with 4%nat in Hn; payload_of_length 4
    | change (Z.to_nat (252 - 247)) with 5%nat in Hn; payload_of_length 5
    | change (Z.to_nat (253 - 247)) with 6%nat in Hn; payload_of_length 6
    | change (Z.to_nat (254 - 247)) with 7%nat in Hn; payload_of_length 7
    | change (Z.to_nat (255 - 247)) with 8%nat in Hn; payload_of_length 8 ];
    bytes_in_range; unfold be_value; cbn [fold_left];
    read_payload; bytes_arith.
Qed.

(** ** The key of a naive datetime *)

Lemma s64_small (x : Z) : - 2 ^ 63 <= x < 2 ^ 63 -> s64 x = x.
Proof.
  clear uninit utf8_valid timegm host_utcoffset.
  intros Hx. unfold s64. rewrite Z.mod_small by lia. lia.
Qed.

Lemma s32_small (x : Z) : - 2 ^ 31 <= x < 2 ^ 31 -> s32 x = x.
Proof.
  clear uninit utf8_valid timegm host_utcoffset.
  intros Hx. unfold s32. rewrite Z.mod_small by lia. lia.
Qed.

Lemma u64_small (x : Z) : 0 <= x < 2 ^ 64 -> u64 x = x.
Proof. intros Hx. unfold u64. apply Z.mod_small. exact Hx. Qed.

(** X17. The key of a naive datetime.  For a datetime without an
    offset, on a host whose offset from UTC is not -1 second and gives an
    offset field [quarters] in [0, 127], and with the milliseconds [ms] of
    the wall clock read as UTC within 56 bits, [pack] writes the magnitude
    [(ms << 7) | quarters] as a varint: under the TIME tag when it is not
    negative, and negated under the NEG_TIME tag when it is. *)
Theorem naive_timestamp_key (prefix : bytes) (dt : datetime) :
  let t := {| tm_sec := dt_second dt; tm_min := dt_minute dt; tm_hour := dt_hour dt;
              tm_mday := dt_day dt; tm_mon := dt_month dt - 1;
              tm_year := dt_year dt - 1900 |} in
  let ms := timegm t * 1000 + Z.quot (dt_microsecond dt) 1000 in
  let quarters := UTCOFFSET_SHIFT + Z.quot host_utcoffset UTCOFFSET_DIV in
  let magnitude := Z.lor (Z.shiftl ms 7) quarters in
  dt_utcoffset dt = None ->
  - 2 ^ 31 <= host_utcoffset < 2 ^ 31 -> host_utcoffset <> -1 ->
  0 <= quarters <= 127 ->
  0 <= dt_microsecond dt < 1000000 -> - 2 ^ 55 <= ms < 2 ^ 55 ->
  magnitude = ms * 128 + quarters /\
  packs [PyString prefix; PyDateTime dt] =
    Ok (prefix ++ (if magnitude <? 0 then KIND_NEG_TIME K :: varint (- magnitude)
                   else KIND_TIME K :: varint magnitude)).
Proof.
  intros t ms quarters magnitude Hnaive Hhost Hnot Hq Hus Hms.
  assert (Husq : 0 <= Z.quot (dt_microsecond dt) 1000 < 1000).
  { rewrite Z.quot_div_nonneg by lia. split; [apply Z.div_pos; lia|].
    apply Z.div_lt_upper_bound; lia. }
  assert (Hmag : magnitude = ms * 128 + quarters).
  { unfold magnitude. rewrite Z.shiftl_mul_pow2 by lia. change (2 ^ 7) with 128.
    apply (lor_disjoint (ms * 128) quarters 7); [lia | | norm_pow; lia].
    change (2 ^ 7) with 128. apply Z_mod_mult. }
  split; [exact Hmag|].
  unfold packs.
  destruct (writer_init_ok 20 ltac:(lia)) as (w0 & -> & Hr0 & Hw0). cbn [bind].
  destruct (writer_puts_ok w0 prefix Hr0) as (w1 & -> & Hr1 & Hw1). cbn [bind].
  rewrite Hw0 in Hw1. cbn [app] in Hw1.
  cbn [c_encode_value]. unfold write_time, get_utcoffset_secs. rewrite Hnaive.
  fold t. cbv zeta.
  rewrite (s32_small host_utcoffset Hhost).
  destruct (Z.eqb_spec host_utcoffset (-1)) as [|_]; [contradiction|].
  fold quarters. rewrite (s32_small quarters) by lia.
  destruct (Z.leb_spec quarters 127); [|lia].
  destruct (Z.leb_spec 0 quarters); [|lia]. cbn [andb negb].
  assert (Hsec : - 2 ^ 63 <= timegm t * 1000 < 2 ^ 63) by (unfold ms in Hms; lia).
  rewrite (s64_small (timegm t)) by lia.
  rewrite (s64_small (timegm t * 1000)) by exact Hsec.
  fold ms. rewrite (s64_small ms) by lia.
  rewrite (s64_small (Z.shiftl ms 7))
    by (rewrite Z.shiftl_mul_pow2 by lia; change (2 ^ 7) with 128; lia).
  fold magnitude.
  assert (Hfin : forall v kind, In kind (kind_list K) -> 0 <= v < 2 ^ 64 ->
            (w <- write_int w1 (u64 v) kind ;; writer_fini w)
              = Ok (prefix ++ kind :: varint v)).
  { intros v kind Hk Hv. rewrite (u64_small v Hv).
    destruct (write_int_tagged w1 v kind Hr1 Hk) as (w2 & -> & Hr2 & Hw2).
    cbn [bind]. rewrite (writer_fini_ok w2 Hr2), Hw2, Hw1. reflexivity. }
  destruct (Z.ltb_spec magnitude 0).
  - apply Hfin; [kind_in | lia].
  - apply Hfin; [kind_in | lia].
Qed.

(** ** The encoder on arbitrary values *)

Lemma raise_not_ok (A : Type) (c : res A) (e : PyExc) :
  (exists a, c = Ok a) -> c = Raise e -> encoder_error e = true.
Proof. intros (a & ->). discriminate. Qed.

Lemma c_encode_value_errors (w : writer) (arg : PyObject) (e : PyExc) :
  room w 0 -> c_encode_value w arg = Raise e -> encoder_error e = true.
Proof.
  intros Hr.
  assert (Hint : forall v kind, write_int w v kind = Raise e -> encoder_error e = true).
  { intros v kind. apply raise_not_ok.
    destruct (write_int_ok w v kind Hr) as (w' & H & _). eauto. }
  assert (Hstr : forall p kind, write_str w p kind = Raise e -> encoder_error e = true).
  { intros p kind. apply raise_not_ok.
    destruct (write_str_ok w p kind Hr) as (w' & H & _). eauto. }
  destruct arg as [|v|b|b|b|v|dt|b|items|items]; cbn [c_encode_value].
  - apply raise_not_ok. destruct (writer_putc_ok w (u8 (KIND_NULL K)) Hr) as (w' & H & _). eauto.
  - destruct (v <? 0); apply Hint.
  - apply Hstr.
  - apply Hstr.
  - apply raise_not_ok.
    destruct (writer_putc_ok w (u8 (KIND_BOOL K)) Hr) as (w1 & -> & Hr1 & _). cbn [bind].
    destruct (writer_putc_ok w1 (u8 (if b then 1 else 0)) Hr1) as (w2 & H & _). eauto.
  - destruct ((v <? - 2 ^ 63) || (2 ^ 63 <=? v)).
    + intros H. injection H as <-. reflexivity.
    + destruct (v <? 0); apply Hint.
  - unfold write_time. cbv zeta.
    destruct (get_utcoffset_secs dt =? -1); [discriminate|].
    destruct (negb _).
    + intros H. injection H as <-. reflexivity.
    + destruct (_ <? 0); apply Hint.
  - apply Hstr.
  - intros H. injection H as <-. reflexivity.
  - intros H. injection H as <-. reflexivity.
Qed.

Lemma c_encode_key_errors (tup : list PyObject) :
  forall (w : writer) (e : PyExc),
  room w 0 -> c_encode_key w tup = Raise e -> encoder_error e = true.
Proof.
  induction tup as [|arg tup IH]; intros w e Hr; cbn [c_encode_key]; [discriminate|].
  destruct (c_encode_value w arg) as [w1|e1] eqn:H1; cbn [bind].
  - destruct (c_encode_value_extends _ _ _ Hr H1) as (x & Hr1 & _).
    apply IH. exact Hr1.
  - intros H. injection H as <-. apply (c_encode_value_errors w arg e1 Hr H1).
Qed.

Lemma encode_item_errors (w : writer) (elem : PyObject) (e : PyExc) :
  room w 0 ->
  match elem with
  | PyTuple items => c_encode_key w items
  | _ => c_encode_value w elem
  end = Raise e -> encoder_error e = true.
Proof.
  intros Hr. destruct elem; try apply (c_encode_value_errors _ _ _ Hr).
  apply (c_encode_key_errors _ _ _ Hr).
Qed.

Lemma encode_item_room (w w' : writer) (elem : PyObject) :
  room w 0 ->
  match elem with
  | PyTuple items => c_encode_key w items
  | _ => c_encode_value w elem
  end = Ok w' -> room w' 0.
Proof.
  intros Hr H.
  assert (He : exists x, extends w w' x).
  { destruct elem; try apply (c_encode_value_extends _ _ _ Hr H).
    apply (c_encode_key_extends _ _ _ Hr H). }
  destruct He as (x & Hr' & _). exact Hr'.
Qed.

Lemma packs_loop_errors (tups : list PyObject) :
  forall (w : writer) (i : Z) (e : PyExc),
  room w 0 -> packs_loop w tups i = Raise e -> encoder_error e = true.
Proof.
  induction tups as [|elem tups IH]; intros w i e Hr; cbn [packs_loop]; [discriminate|].
  assert (Hsep : exists w1,
            (if negb (i =? 0) then writer_putc w (u8 (KIND_SEP K)) else Ok w) = Ok w1 /\
            room w1 0).
  { destruct (negb (i =? 0)).
    - destruct (writer_putc_ok w (u8 (KIND_SEP K)) Hr) as (w1 & H1 & Hr1 & _). eauto.
    - eauto. }
  destruct Hsep as (w1 & -> & Hr1). cbn [bind].
  destruct (match elem with
            | PyTuple items => c_encode_key w1 items
            | _ => c_encode_value w1 elem
            end) as [w2|e2] eqn:H2; cbn [bind].
  - apply IH. apply (encode_item_room _ _ _ Hr1 H2).
  - intros H. injection H as <-. apply (encode_item_errors _ _ _ Hr1 H2).
Qed.

(** X22. The encoder stays inside its buffer.  On every argument
    tuple, [pack] comes to an end, and it returns a key or raises
    [TypeError] or [OverflowError], or fails the assertion of [write_time]:
    every unchecked store of [write_int] lands in room that [writer_ensure]
    has made, whatever the values and however long the key. *)
Theorem encoder_stays_inside_its_buffer (args : list PyObject) (e : PyExc) :
  packs args = Raise e -> encoder_error e = true.
Proof.
  unfold packs.
  destruct args as [|py_prefix [|tups [|x args]]];
    try (intros H; injection H as <-; reflexivity).
  destruct py_prefix; try (intros H; injection H as <-; reflexivity).
  destruct (writer_init_ok 20 ltac:(lia)) as (w0 & -> & Hr0 & _). cbn [bind].
  destruct (writer_puts_ok w0 b Hr0) as (w1 & -> & Hr1 & _). cbn [bind].
  destruct (match tups with
            | PyList items => packs_loop w1 items 0
            | PyTuple items => c_encode_key w1 items
            | _ => c_encode_value w1 tups
            end) as [w2|e2] eqn:H2; cbn [bind].
  - assert (Hr2 : room w2 0).
    { assert (He : exists x, extends w1 w2 x).
      { destruct tups; try apply (c_encode_value_extends _ _ _ Hr1 H2).
        - apply (c_encode_key_extends _ _ _ Hr1 H2).
        - apply (packs_loop_extends _ _ _ _ Hr1 H2). }
      destruct He as (x & Hr2 & _). exact Hr2. }
    rewrite (writer_fini_ok w2 Hr2). discriminate.
  - intros H. injection H as <-.
    destruct tups; try apply (c_encode_value_errors _ _ _ Hr1 H2).
    + apply (c_encode_key_errors _ _ _ Hr1 H2).
    + apply (packs_loop_errors _ _ _ _ Hr1 H2).
Qed.

(** ** The order of integer keys *)

Lemma varint_order (u v : Z) :
  0 <= u < 2 ^ 64 -> 0 <= v < 2 ^ 64 -> lex_lt (varint u) (varint v) = (u <? v).
Proof.
  intros Hu Hv. rewrite !varint_spec by assumption.
  destruct (Z.lt_trichotomy u v) as [Hlt|[Heq|Hgt]].
  - rewrite (proj2 (Z.ltb_lt u v) Hlt). apply spec_varint_lt; lia.
  - subst v. rewrite Z.ltb_irrefl. apply lex_lt_irrefl.
  - rewrite (proj2 (Z.ltb_ge u v) ltac:(lia)). apply lex_lt_asym, spec_varint_lt; lia.
Qed.

Lemma packs_integer (prefix : bytes) (long : bool) (v : Z) :
  - 2 ^ 63 <= v < 2 ^ 63 ->
  packs [PyString prefix; py_integer long v] =
  Ok (prefix ++ (if v <? 0 then KIND_NEG_INTEGER K :: varint (- v)
                 else KIND_INTEGER K :: varint v)).
Proof.
  intros Hv.
  assert (Hb : int_bytes v = if v <? 0 then KIND_NEG_INTEGER K :: varint (- v)
                             else KIND_INTEGER K :: varint v).
  { unfold int_bytes. destruct (Z.ltb_spec v 0).
    - rewrite (u8_kind (KIND_NEG_INTEGER K)) by kind_in.
      unfold u64. rewrite Z.mod_small by lia. reflexivity.
    - rewrite (u8_kind (KIND_INTEGER K)) by kind_in.
      unfold u64. rewrite Z.mod_small by lia. reflexivity. }
  rewrite (packs_element prefix (py_integer long v) (int_bytes v)).
  - rewrite Hb. reflexivity.
  - destruct long; reflexivity.
  - intros w Hr. apply c_encode_value_integer; assumption.
Qed.

(** X23. The order of integer keys.  Where the tag of negative integers
    is smaller than the tag of the others, the keys of two integers of the
    64-bit signed range, int or long, compare byte-wise as follows: a
    negative integer comes before every integer that is not negative; two
    integers that are not negative come in their numeric order; two negative
    integers come in the reverse of their numeric order. *)
Theorem order_of_integer_keys (prefix : bytes) (la lb : bool) (a b : Z) :
  KIND_NEG_INTEGER K < KIND_INTEGER K ->
  - 2 ^ 63 <= a < 2 ^ 63 -> - 2 ^ 63 <= b < 2 ^ 63 ->
  exists ea eb,
    packs [PyString prefix; py_integer la a] = Ok ea /\
    packs [PyString prefix; py_integer lb b] = Ok eb /\
    lex_lt ea eb =
      if a <? 0 then (if b <? 0 then b <? a else true)
      else (if b <? 0 then false else a <? b).
Proof.
  intros Htags Ha Hb. eexists. eexists.
  split; [apply packs_integer; exact Ha|].
  split; [apply packs_integer; exact Hb|].
  rewrite lex_lt_app.
  destruct (Z.ltb_spec a 0), (Z.ltb_spec b 0).
  - rewrite lex_lt_tail, varint_order by lia.
    destruct (Z.ltb_spec (- a) (- b)), (Z.ltb_spec b a); try reflexivity; lia.
  - apply lex_lt_head. exact Htags.
  - apply lex_lt_asym, lex_lt_head. exact Htags.
  - rewrite lex_lt_tail. apply varint_order; lia.
Qed.

End KeyCoder.

(** * The scenarios of the specification *)

Example pack_int_scenarios :
  py_pack_int unbounded_memory [] 0 = Ok [0] /\
  py_pack_int unbounded_memory [] 240 = Ok [240] /\
  py_pack_int unbounded_memory [] 241 = Ok [241; 1] /\
  py_pack_int unbounded_memory [] 2288 = Ok [249; 0; 0].
Proof. vm_compute. auto. Qed.

Example batch_scenario :
  packs unbounded_memory spec_kinds spec_shift spec_div one_second 0
    [PyString []; PyList [PyTuple [PyInt 1]; PyTuple [PyInt 2]]]
    = Ok [KIND_INTEGER spec_kinds; 1; KIND_SEP spec_kinds; KIND_INTEGER spec_kinds; 2].
Proof. vm_compute. reflexivity. Qed.

(** * Concrete instances of the theorems *)

Lemma unbounded_memory_grants : forall n, unbounded_memory n = true.
Proof. reflexivity. Defined.

Lemma writer_slack_invariant_witness :
  exists w,
    (w0 <- writer_init unbounded_memory 2 ;;
     run_ops unbounded_memory w0 [OpPutc 7; OpPuts [1; 2; 3]; OpEnsure 4]) = Ok w /\
    0 <= w_pos w < w_size w.
Proof.
  eexists. split; [vm_compute; reflexivity|].
  apply (writer_slack_invariant unbounded_memory 2 [OpPutc 7; OpPuts [1; 2; 3]; OpEnsure 4]);
    [lia | vm_compute; reflexivity].
Defined.

Lemma varint_order_preserving_witness :
  exists wu wv eu ev,
    write_int unbounded_memory small_writer 240 0 = Ok wu /\
    written wu = written small_writer ++ eu /\
    write_int unbounded_memory small_writer 241 0 = Ok wv /\
    written wv = written small_writer ++ ev /\
    lex_lt eu ev = true.
Proof.
  apply (varint_order_preserving unbounded_memory unbounded_memory_grants small_writer 240 241);
    [reflexivity | lia | reflexivity].
Defined.

Lemma negative_integers_sort_in_reverse_witness :
  exists ea eb,
    packs unbounded_memory spec_kinds spec_shift spec_div one_second 0 [PyString [120]; PyInt (-2)]
      = Ok ([120] ++ ea) /\
    packs unbounded_memory spec_kinds spec_shift spec_div one_second 0 [PyString [120]; PyLong (-1)]
      = Ok ([120] ++ eb) /\
    ea = u8 (KIND_NEG_INTEGER spec_kinds) :: varint (- -2) /\
    eb = u8 (KIND_NEG_INTEGER spec_kinds) :: varint (- -1) /\
    lex_lt eb ea = true.
Proof.
  apply (negative_integers_sort_in_reverse unbounded_memory spec_kinds spec_shift spec_div one_second 0
           unbounded_memory_grants eq_refl [120] false true (-2) (-1));
    [vm_compute; discriminate | lia | lia].
Defined.

(** The claim of C2 fails at [a = -2], [b = -1]: the encoding of -2 is
    not smaller than the encoding of -1. *)
Lemma negative_order_counterexample :
  packs unbounded_memory spec_kinds spec_shift spec_div one_second 0 [PyString []; PyInt (-2)] = Ok [20; 2] /\
  packs unbounded_memory spec_kinds spec_shift spec_div one_second 0 [PyString []; PyInt (-1)] = Ok [20; 1] /\
  lex_lt [20; 2] [20; 1] = false.
Proof. vm_compute. auto. Qed.

Lemma blob_stream_termination_witness :
  exists w' body,
    write_str unbounded_memory small_writer [1] 0 = Ok w' /\
    written w' = written small_writer ++ tag 0 ++ body ++ [0] /\
    Forall (fun x => x <> 0 /\ 0 <= x < 256) body /\
    Forall (fun x => high_bit x = true) (removelast body).
Proof.
  apply (blob_stream_termination unbounded_memory unbounded_memory_grants small_writer [1] 0).
  reflexivity.
Defined.

(** The claim of C4 fails on the blob of the single byte 1: its stream is
    80 40 00, and the byte 40 before the terminator has bit 7 clear. *)
Lemma blob_high_bit_counterexample :
  (w <- writer_init unbounded_memory 20 ;;
   w <- write_str unbounded_memory w [1] 0 ;;
   writer_fini unbounded_memory w) = Ok [128; 64; 0] /\
  high_bit 64 = false.
Proof. vm_compute. auto. Qed.

Lemma no_match_or_value_error_witness :
  packs unbounded_memory spec_kinds spec_shift spec_div one_second 0 [PyString [120]; PyNone] = Ok [120; 15] /\
  ~ is_prefix [121] [120; 15] /\
  py_unpack unbounded_memory spec_kinds holds_zero ascii_only [121] [120; 15] = Ok PyNone /\
  unpacks unbounded_memory spec_kinds holds_zero ascii_only [121] [120; 15] = Ok PyNone.
Proof.
  assert (Hp : packs unbounded_memory spec_kinds spec_shift spec_div one_second 0 [PyString [120]; PyNone]
               = Ok [120; 15]) by (vm_compute; reflexivity).
  assert (Hn : ~ is_prefix [121] [120; 15]) by (vm_compute; discriminate).
  split; [exact Hp|]. split; [exact Hn|].
  apply (proj1 (no_match_or_value_error unbounded_memory spec_kinds spec_shift spec_div one_second 0
                  holds_zero ascii_only [121] [120] PyNone [120; 15] Hp Hn)).
  vm_compute. discriminate.
Defined.

(** The claim of C5 fails when the packed string is shorter than the
    prefix: [unpack] and [unpacks] raise [ValueError]. *)
Lemma no_match_counterexample :
  packs unbounded_memory spec_kinds spec_shift spec_div one_second 0 [PyString []; PyNone] = Ok [15] /\
  ~ is_prefix [1; 2] [15] /\
  py_unpack unbounded_memory spec_kinds holds_zero ascii_only [1; 2] [15] = Raise ValueError /\
  unpacks unbounded_memory spec_kinds holds_zero ascii_only [1; 2] [15] = Raise ValueError.
Proof.
  split; [vm_compute; reflexivity|]. split; [vm_compute; discriminate|].
  split; vm_compute; reflexivity.
Qed.

Lemma pack_prefix_and_round_trip_witness :
  roundtrips ascii_only (PyTuple [PyNone; PyInt (-300); PyString [97; 98]; PyUnicode [99]])
    = true /\
  exists s t,
    packs unbounded_memory spec_kinds spec_shift spec_div one_second 0
      [PyString [120]; PyTuple [PyNone; PyInt (-300); PyString [97; 98]; PyUnicode [99]]]
      = Ok s /\
    py_unpack unbounded_memory spec_kinds holds_zero ascii_only [120] s = Ok t /\
    py_eq t (tuplize (PyTuple [PyNone; PyInt (-300); PyString [97; 98]; PyUnicode [99]]))
      = true.
Proof.
  split; [vm_compute; reflexivity|].
  apply (proj2 (pack_prefix_and_round_trip unbounded_memory spec_kinds spec_shift spec_div one_second 0
                  holds_zero ascii_only unbounded_memory_grants eq_refl [120]
                  (PyTuple [PyNone; PyInt (-300); PyString [97; 98]; PyUnicode [99]]))).
  vm_compute. reflexivity.
Defined.

(** The claim of C3 fails on a list of tuples: [unpack] returns the first
    tuple of the batch, and [tuplize] wraps the list in a tuple. *)
Lemma round_trip_counterexample :
  packs unbounded_memory spec_kinds spec_shift spec_div one_second 0
    [PyString []; PyList [PyTuple [PyNone]; PyTuple [PyNone]]] = Ok [15; 10; 15] /\
  py_unpack unbounded_memory spec_kinds holds_zero ascii_only [] [15; 10; 15]
    = Ok (PyTuple [PyNone]) /\
  tuplize (PyList [PyTuple [PyNone]; PyTuple [PyNone]])
    = PyTuple [PyList [PyTuple [PyNone]; PyTuple [PyNone]]] /\
  py_eq (PyTuple [PyNone]) (tuplize (PyList [PyTuple [PyNone]; PyTuple [PyNone]])) = false.
Proof. vm_compute. auto. Qed.

(** * The code at the failing inputs *)

(** C1. The round trip of the varint fails for every value up to 240.
    [pack_int("", 5)] is the single byte 05; [read_plain_int] on that byte
    stores 5 in [*u64], then overwrites it with its local [v], which was
    never assigned: the result is the indeterminate content of [v], here
    [uninit 0], and not 5. *)
Theorem one_byte_varint_is_not_read_back :
  py_pack_int unbounded_memory [] 5 = Ok [5] /\
  (forall uninit, read_plain_int uninit (reader_init [5] 1)
                  = Ok (uninit 0, {| r_p := [5]; r_size := 1; r_pos := 1 |})) /\
  read_plain_int holds_zero (reader_init [5] 1)
    = Ok (0, {| r_p := [5]; r_size := 1; r_pos := 1 |}).
Proof. split; [vm_compute; reflexivity|]. split; [intros uninit|]; reflexivity. Qed.

(** C6. The offset of a datetime with an explicit UTC offset does not
    reach the magnitude as the claim has it.  At UTC-00:15 (-900 seconds)
    [get_utcoffset_secs] returns -1, [write_time] takes it for a failure and
    writes nothing, whatever the two macros are.  With the macros at 64 and
    900, the offset is divided by 900 twice: for 1970-01-01 00:00:01+01:00
    the magnitude written is [(1000 << 7) | 64], where the claim has
    [(1000 << 7) | (3600 / 900 + 64)]; the naive path, on a host at the same
    offset, writes the latter. *)
Theorem aware_offset_does_not_reach_the_magnitude :
  (forall shift div,
     packs unbounded_memory spec_kinds shift div one_second 0
       [PyString []; PyDateTime (second_one (Some (-900)))] = Ok []) /\
  packs unbounded_memory spec_kinds spec_shift spec_div one_second 0
    [PyString []; PyDateTime (second_one (Some 3600))]
    = Ok (KIND_TIME spec_kinds :: varint (Z.lor (Z.shiftl 1000 7) 64)) /\
  packs unbounded_memory spec_kinds spec_shift spec_div one_second 3600
    [PyString []; PyDateTime (second_one None)]
    = Ok (KIND_TIME spec_kinds :: varint (Z.lor (Z.shiftl 1000 7) (3600 / 900 + 64))) /\
  varint (Z.lor (Z.shiftl 1000 7) 64) <> varint (Z.lor (Z.shiftl 1000 7) (3600 / 900 + 64)).
Proof.
  split; [intros shift div; reflexivity|].
  split; [vm_compute; reflexivity|]. split; [vm_compute; reflexivity|].
  vm_compute. discriminate.
Qed.

(** C8. [decode_offsets] on the table of the offsets 0, 3, 10, that is
    the count 2 and the deltas 3 and 7, each a one-byte varint: the count
    and the deltas are read by [read_plain_int], which returns the content
    of its uninitialised local.  Where that content is 0 the result is
    ([0], 1); where it is 1 the result is ([0, 1], 2); the claim has
    ([0, 3, 10], 3). *)
Theorem decode_offsets_reads_uninitialised_count :
  varint 2 ++ varint 3 ++ varint 7 = [2; 3; 7] /\
  py_decode_offsets holds_zero [2; 3; 7] = Ok (PyTuple [PyList [PyInt 0]; PyInt 1]) /\
  py_decode_offsets holds_one [2; 3; 7]
    = Ok (PyTuple [PyList [PyInt 0; PyInt 1]; PyInt 2]).
Proof. vm_compute. auto. Qed.

(** C9. A batch of the nil UUID followed by an empty tuple: the stream
    of the sixteen zero bytes ends in a zero trailer, [read_str] gives back
    fifteen bytes, the UUID constructor rejects them, and [unpacks] raises
    [ValueError] where the claim has a list of one tuple. *)
Theorem trailing_empty_tuple_after_nil_uuid_raises :
  forall (uninit : Z -> Z) (utf8_valid : bytes -> bool),
  exists s,
    packs unbounded_memory spec_kinds spec_shift spec_div one_second 0
      [PyString []; PyList [PyTuple [nil_uuid]; PyTuple []]] = Ok s /\
    read_str unbounded_memory (reader_init (tl s) (len (tl s)))
      = Ok (repeat 0 15, {| r_p := tl s; r_size := 20; r_pos := 19 |}) /\
    unpacks unbounded_memory spec_kinds uninit utf8_valid [] s = Raise ValueError.
Proof.
  intros uninit utf8_valid. eexists. split; [vm_compute; reflexivity|].
  split; vm_compute; reflexivity.
Qed.

(** * Concrete instances of the further properties *)

Lemma writer_builds_the_bytes_witness :
  (w0 <- writer_init unbounded_memory 1 ;;
   w <- run_ops unbounded_memory w0 [OpPuts [1; 2; 3]; OpEnsure 600; OpPutc 4] ;;
   writer_fini unbounded_memory w) = Ok [1; 2; 3; 4].
Proof.
  apply (writer_builds_the_bytes unbounded_memory unbounded_memory_grants 1
           [OpPuts [1; 2; 3]; OpEnsure 600; OpPutc 4]).
  lia.
Defined.

Lemma pack_int_packs_the_unsigned_reading_witness :
  py_pack_int unbounded_memory [7] (-1) = Ok ([7] ++ spec_varint ((-1) mod 2 ^ 64)) /\
  (-1 < 0 -> spec_varint ((-1) mod 2 ^ 64) = 255 :: be 8 (2 ^ 64 + -1)).
Proof.
  apply (pack_int_packs_the_unsigned_reading unbounded_memory unbounded_memory_grants [7] (-1)).
  lia.
Defined.

Lemma pack_int_self_delimiting_witness :
  exists eu ev,
    py_pack_int unbounded_memory [7] 5 = Ok ([7] ++ eu) /\
    py_pack_int unbounded_memory [7] 1280 = Ok ([7] ++ ev) /\
    forall x y, eu ++ x = ev ++ y -> 5 = 1280 /\ x = y.
Proof.
  apply (pack_int_self_delimiting unbounded_memory unbounded_memory_grants [7] 5 1280); lia.
Defined.

Lemma integer_tuples_sort_as_python_witness :
  exists es et,
    packs unbounded_memory spec_kinds spec_shift spec_div one_second 0
      [PyString [120]; PyTuple (map PyInt [1; 300])] = Ok es /\
    packs unbounded_memory spec_kinds spec_shift spec_div one_second 0
      [PyString [120]; PyTuple (map PyInt [1; 300; 0])] = Ok et /\
    lex_lt es et = tuple_lt [1; 300] [1; 300; 0].
Proof.
  apply (integer_tuples_sort_as_python unbounded_memory spec_kinds spec_shift spec_div
           one_second 0 unbounded_memory_grants eq_refl [120] [1; 300] [1; 300; 0]);
    reflexivity.
Defined.

Lemma read_str_after_write_str_witness :
  exists w' e rdr',
    write_str unbounded_memory small_writer [97; 4] 0 = Ok w' /\
    written w' = written small_writer ++ tag 0 ++ e /\
    read_str unbounded_memory (reader_init (e ++ [9]) (len (e ++ [9])))
      = Ok (if drops_last [97; 4] then removelast [97; 4] else [97; 4], rdr') /\
    r_pos rdr' = len e.
Proof.
  apply (read_str_after_write_str unbounded_memory unbounded_memory_grants small_writer
           [97; 4] [9] 0); reflexivity.
Defined.

Lemma blob_and_blob_with_zero_collide_witness :
  exists s,
    packs unbounded_memory spec_kinds spec_shift spec_div one_second 0
      [PyString [120]; PyString [2]] = Ok s /\
    packs unbounded_memory spec_kinds spec_shift spec_div one_second 0
      [PyString [120]; PyString ([2] ++ [0])] = Ok s.
Proof.
  apply (blob_and_blob_with_zero_collide unbounded_memory spec_kinds spec_shift spec_div
           one_second 0 unbounded_memory_grants eq_refl [120] [2]);
    [vm_compute; split; discriminate | reflexivity].
Defined.

Lemma decoder_stays_inside_the_input_witness :
  py_unpack unbounded_memory spec_kinds holds_zero ascii_only [] [35] = Raise SystemError /\
  decoder_error SystemError = true.
Proof.
  assert (H : py_unpack unbounded_memory spec_kinds holds_zero ascii_only [] [35]
              = Raise SystemError) by (vm_compute; reflexivity).
  split; [exact H|].
  exact (proj1 (decoder_stays_inside_the_input unbounded_memory spec_kinds holds_zero
                  ascii_only unbounded_memory_grants [] [35] SystemError) H).
Defined.

Lemma unknown_tag_is_a_value_error_witness :
  exists key,
    packs unbounded_memory spec_kinds spec_shift spec_div one_second 0
      [PyString [120]; PyTuple [PyNone]] = Ok key /\
    py_unpack unbounded_memory spec_kinds holds_zero ascii_only [120] (key ++ 99 :: [1; 2])
      = Raise ValueError /\
    unpacks unbounded_memory spec_kinds holds_zero ascii_only [120] (key ++ 99 :: [1; 2])
      = Raise ValueError.
Proof.
  apply (unknown_tag_is_a_value_error unbounded_memory spec_kinds spec_shift spec_div
           one_second 0 holds_zero ascii_only unbounded_memory_grants eq_refl
           [120] [PyNone] 99 [1; 2]); [reflexivity|].
  vm_compute. intros H.
  repeat (destruct H as [H|H]; [discriminate H|]). exact H.
Defined.

Lemma packed_timestamp_is_not_decoded_witness :
  packs unbounded_memory spec_kinds spec_shift spec_div one_second 0
    [PyString []; PyDateTime (second_one (Some 3600))] = Ok [38; 250; 1; 244; 64] /\
  py_unpack unbounded_memory spec_kinds holds_zero ascii_only [] [38; 250; 1; 244; 64]
    = Raise Aborted.
Proof.
  assert (H : packs unbounded_memory spec_kinds spec_shift spec_div one_second 0
                [PyString []; PyDateTime (second_one (Some 3600))]
              = Ok [38; 250; 1; 244; 64]) by (vm_compute; reflexivity).
  split; [exact H|].
  destruct (packed_timestamp_is_not_decoded unbounded_memory spec_kinds spec_shift spec_div
              one_second 0 holds_zero ascii_only unbounded_memory_grants eq_refl
              [] (second_one (Some 3600)) [38; 250; 1; 244; 64] H) as [[_ Hs] | [Hu _]].
  - discriminate Hs.
  - exact Hu.
Defined.

Lemma pack_wraps_a_single_element_witness :
  packs unbounded_memory spec_kinds spec_shift spec_div one_second 0
    [PyString [120]; PyInt 5]
  = packs unbounded_memory spec_kinds spec_shift spec_div one_second 0
      [PyString [120]; tuplize (PyInt 5)].
Proof.
  apply (pack_wraps_a_single_element unbounded_memory spec_kinds spec_shift spec_div
           one_second 0 [120] (PyInt 5)).
  intros items. discriminate.
Defined.

Lemma key_of_a_tuple_extends_the_key_of_its_front_witness :
  exists front whole,
    packs unbounded_memory spec_kinds spec_shift spec_div one_second 0
      [PyString [120]; PyTuple [PyInt 1]] = Ok front /\
    packs unbounded_memory spec_kinds spec_shift spec_div one_second 0
      [PyString front; PyTuple [PyString [97]; PyNone]] = Ok whole /\
    packs unbounded_memory spec_kinds spec_shift spec_div one_second 0
      [PyString [120]; PyTuple ([PyInt 1] ++ [PyString [97]; PyNone])] = Ok whole /\
    is_prefix front whole.
Proof.
  apply (key_of_a_tuple_extends_the_key_of_its_front unbounded_memory spec_kinds spec_shift
           spec_div one_second 0 unbounded_memory_grants eq_refl [120]
           [PyInt 1] [PyString [97]; PyNone]); reflexivity.
Defined.

Lemma pack_refuses_nested_and_oversized_items_witness :
  packs unbounded_memory spec_kinds spec_shift spec_div one_second 0
    [PyString [120]; PyTuple ([PyNone] ++ PyTuple [PyInt 1] :: [PyInt 2])]
    = Raise TypeError /\
  packs unbounded_memory spec_kinds spec_shift spec_div one_second 0
    [PyString [120]; PyTuple ([PyNone] ++ PyLong (2 ^ 63) :: [PyInt 2])]
    = Raise OverflowError.
Proof.
  destruct (pack_refuses_nested_and_oversized_items unbounded_memory spec_kinds spec_shift
              spec_div one_second 0 unbounded_memory_grants eq_refl [120]
              [PyNone] [PyInt 2] eq_refl) as [Hnested Hover].
  split.
  - apply (Hnested (PyTuple [PyInt 1])). reflexivity.
  - apply (Hover (2 ^ 63)). lia.
Defined.

Lemma unpack_gives_the_first_tuple_of_a_batch_witness :
  exists s,
    packs unbounded_memory spec_kinds spec_shift spec_div one_second 0
      [PyString [120]; PyList (map PyTuple ([PyInt 300; PyNone] :: [[PyInt 1]; []]))]
      = Ok s /\
    py_unpack unbounded_memory spec_kinds holds_zero ascii_only [120] s
      = Ok (decoded_tuple [PyInt 300; PyNone]).
Proof.
  apply (unpack_gives_the_first_tuple_of_a_batch unbounded_memory spec_kinds spec_shift
           spec_div one_second 0 holds_zero ascii_only unbounded_memory_grants eq_refl
           [120] [PyInt 300; PyNone] [[PyInt 1]; []]); reflexivity.
Defined.

Lemma batch_round_trip_witness :
  exists s,
    packs unbounded_memory spec_kinds spec_shift spec_div one_second 0
      [PyString [120];
       PyList (map PyTuple [[PyInt 300]; []; [PyString [97]; PyNone]])] = Ok s /\
    unpacks unbounded_memory spec_kinds holds_zero ascii_only [120] s
      = Ok (PyList (map decoded_tuple [[PyInt 300]; []; [PyString [97]; PyNone]])).
Proof.
  apply (batch_round_trip unbounded_memory spec_kinds spec_shift spec_div one_second 0
           holds_zero ascii_only unbounded_memory_grants eq_refl [120]
           [[PyInt 300]; []; [PyString [97]; PyNone]]);
    [reflexivity | vm_compute; discriminate].
Defined.

Lemma strings_of_one_length_sort_as_their_bytes_witness :
  exists ea eb,
    packs unbounded_memory spec_kinds spec_shift spec_div one_second 0
      [PyString [120]; PyUUID (repeat 0 15 ++ [1])] = Ok ea /\
    packs unbounded_memory spec_kinds spec_shift spec_div one_second 0
      [PyString [120]; PyUUID (repeat 0 14 ++ [1; 0])] = Ok eb /\
    lex_lt ea eb = lex_lt (repeat 0 15 ++ [1]) (repeat 0 14 ++ [1; 0]).
Proof.
  apply (strings_of_one_length_sort_as_their_bytes unbounded_memory spec_kinds spec_shift
           spec_div one_second 0 unbounded_memory_grants eq_refl [120]
           (repeat 0 15 ++ [1]) (repeat 0 14 ++ [1; 0]) PyUUID);
    [right; right; reflexivity | reflexivity | reflexivity | reflexivity].
Defined.

Lemma read_plain_int_follows_the_table_witness :
  exists rdr',
    read_plain_int holds_zero (reader_init ([250; 0; 0; 5] ++ [9]) (len ([250; 0; 0; 5] ++ [9])))
      = Ok (5, rdr') /\
    r_pos rdr' = len [250; 0; 0; 5].
Proof.
  apply (read_plain_int_follows_the_table holds_zero [250; 0; 0; 5] [9] 5);
    [reflexivity | vm_compute; reflexivity | reflexivity].
Defined.

Lemma naive_timestamp_key_witness :
  packs unbounded_memory spec_kinds spec_shift spec_div one_second 0
    [PyString []; PyDateTime (second_one None)] = Ok [38; 250; 1; 244; 64].
Proof.
  refine (proj2 (naive_timestamp_key unbounded_memory spec_kinds spec_shift spec_div
                   one_second 0 unbounded_memory_grants eq_refl [] (second_one None)
                   eq_refl _ _ _ _ _)); vm_compute; repeat split; first [discriminate | reflexivity].
Defined.

Lemma varint_encoder_shortest_form_witness :
  exists w',
    write_int unbounded_memory small_writer 300 0 = Ok w' /\
    written w' = written small_writer ++ spec_varint 300 /\
    spec_decode (spec_varint 300) = Some 300 /\
    forall bs, is_bytes bs = true -> spec_decode bs = Some 300 ->
      (length (spec_varint 300) <= length bs)%nat /\
      (length bs = length (spec_varint 300) -> bs = spec_varint 300).
Proof.
  apply (varint_encoder_shortest_form unbounded_memory unbounded_memory_grants
           small_writer 300); [reflexivity | lia].
Defined.

Lemma varint_round_trip_with_payload_witness :
  exists w' rdr',
    write_int unbounded_memory small_writer 300 0 = Ok w' /\
    written w' = written small_writer ++ spec_varint 300 /\
    read_plain_int holds_zero
      (reader_init (spec_varint 300 ++ [9]) (len (spec_varint 300 ++ [9]))) = Ok (300, rdr') /\
    r_pos rdr' = len (spec_varint 300).
Proof.
  apply (varint_round_trip_with_payload unbounded_memory holds_zero unbounded_memory_grants
           small_writer 300 [9]); [reflexivity | lia].
Defined.

Lemma deltas_with_payload : Forall (fun d => 240 < d < 2 ^ 64) (repeat 300 241).
Proof.
  apply Forall_forall. intros d Hd. apply repeat_spec in Hd. subst d. lia.
Defined.

Lemma decode_offsets_payloads_witness :
  py_decode_offsets holds_zero
    ((varint (Z.of_nat (length (repeat 300 241))) ++ flat_map varint (repeat 300 241)) ++ [9])
  = Ok (PyTuple [PyList (PyInt 0 :: map (fun p => PyInt (s64 p))
                                      (offsets_from 0 (repeat 300 241)));
                 PyInt (len (varint (Z.of_nat (length (repeat 300 241)))
                             ++ flat_map varint (repeat 300 241)))]).
Proof.
  apply (decode_offsets_payloads holds_zero (repeat 300 241) [9] deltas_with_payload).
  rewrite repeat_length. lia.
Defined.

Lemma trailing_empty_tuple_is_lost_witness :
  exists s l,
    packs unbounded_memory spec_kinds spec_shift spec_div one_second 0
      [PyString [120]; PyList (map PyTuple [[PyNone]; []])] = Ok s /\
    unpacks unbounded_memory spec_kinds holds_zero ascii_only [120] s = Ok (PyList l) /\
    length l = (length [[PyNone]; []] - 1)%nat.
Proof.
  apply (trailing_empty_tuple_is_lost unbounded_memory spec_kinds spec_shift spec_div
           one_second 0 holds_zero ascii_only unbounded_memory_grants eq_refl [120]
           [[PyNone]; []]); [cbn; lia | reflexivity | reflexivity].
Defined.

Lemma encoder_stays_inside_its_buffer_witness :
  packs unbounded_memory spec_kinds spec_shift spec_div one_second 0
    [PyString [120]; PyTuple [PyInt 70000; PyList []]] = Raise TypeError /\
  encoder_error TypeError = true.
Proof.
  assert (H : packs unbounded_memory spec_kinds spec_shift spec_div one_second 0
                [PyString [120]; PyTuple [PyInt 70000; PyList []]] = Raise TypeError)
    by (vm_compute; reflexivity).
  split; [exact H|].
  exact (encoder_stays_inside_its_buffer unbounded_memory spec_kinds spec_shift spec_div
           one_second 0 unbounded_memory_grants _ TypeError H).
Defined.

Lemma order_of_integer_keys_witness :
  exists ea eb,
    packs unbounded_memory spec_kinds spec_shift spec_div one_second 0
      [PyString [120]; py_integer false (-5)] = Ok ea /\
    packs unbounded_memory spec_kinds spec_shift spec_div one_second 0
      [PyString [120]; py_integer true (-300)] = Ok eb /\
    lex_lt ea eb =
      if -5 <? 0 then (if -300 <? 0 then -300 <? -5 else true)
      else (if -300 <? 0 then false else -5 <? -300).
Proof.
  apply (order_of_integer_keys unbounded_memory spec_kinds spec_shift spec_div one_second 0
           unbounded_memory_grants eq_refl [120] false true (-5) (-300)); [reflexivity | lia | lia].
Defined.
